(** * Equihash proof-of-work: solver and verifier of src/crypto/equihash.{h,cpp}

    A shallow embedding of the row operations, the verifier
    [IsValidSolution], the reference solver [BasicSolve] and the
    memory-reduced solver [OptimisedSolve], with the properties of the
    specification stated and settled over them.

    Conventions of the embedding.
    - [eh_index] (uint32_t) and [eh_trunc] (uint8_t) values, and bytes of a
      hash buffer, are [Z]; conversions between C++ integer types are
      written out where the source has them.
    - A [std::vector] is a [list]; cursors into a table ([int i], [posFree],
      [j], ...) are [nat] positions.
    - A [std::set] of index vectors is a [gset (list Z)].
    - A call returns a [result]: a value, a C++ exception, a failed
      [assert], or a step for which C++ defines no behaviour.
    - BLAKE2b is an external primitive: it enters as a function [digest]
      from a hash state, a leaf index and an output length to bytes.  The
      module [Blake2b] implements it, to evaluate the model on the states
      that [InitialiseState] gives.
    - [std::sort] is not stable and the order of rows with equal hashes is
      not fixed by the language: it enters as a function [std_sort] of
      which only the contract (a sorted permutation) is assumed. *)

From Stdlib Require Import Uint63.
From stdpp Require Import base numbers list sorting gmap sets strings.

Local Open Scope Z_scope.

(** ** Outcomes of a call *)

Inductive failure : Type :=
  | Throw_invalid_params                 (* throw invalid_params() *)
  | Throw_invalid_argument (what : string) (* throw std::invalid_argument(what) *)
  | AssertFailed                         (* assert(...) does not hold *)
  | UndefinedBehaviour                   (* division by zero, out-of-range read or shift *)
  | OutOfFuel.                           (* iteration bound of a modelled loop exhausted *)

Inductive result (A : Type) : Type :=
  | Ok (a : A)
  | Fail (f : failure).
Arguments Ok {A} a.
Arguments Fail {A} f.

Global Instance result_ret : MRet result := fun A a => Ok a.
Global Instance result_bind : MBind result := fun A B f m =>
  match m with
  | Ok a => f a
  | Fail e => Fail e
  end.

Definition is_thrown {A} (r : result A) : Prop :=
  r = Fail Throw_invalid_params \/ exists w, r = Fail (Throw_invalid_argument w).

(** ** Parameter validation *)

(** Conversion of an [unsigned int] argument to an [int] parameter
    (modular, as on every two's complement target). *)
Definition to_int (u : Z) : Z := if u <? 2 ^ 31 then u else u - 2 ^ 32.

Definition is_uint32 (u : Z) : Prop := 0 <= u < 2 ^ 32.

(** [void validate_params(int n, int k)].  [%] and [/] on [int] truncate
    towards zero ([Z.rem], [Z.quot]).  [k+1] cannot overflow and [n/(k+1)]
    cannot be [INT_MIN / -1] once [k < n] has been established; the only
    undefined step left is the division by [k+1 = 0]. *)
Definition validate_params (n k : Z) : result unit :=
  if k >=? n then Fail Throw_invalid_params
  else if negb (Z.rem n 8 =? 0) then Fail Throw_invalid_params
  else if k + 1 =? 0 then Fail UndefinedBehaviour
  else if negb (Z.rem (Z.quot n (k + 1)) 8 =? 0) then Fail Throw_invalid_params
  else Ok tt.

(** [class Equihash]: the two [unsigned int] members. *)
Record Equihash : Type := { eh_n : Z; eh_k : Z }.

(** [Equihash::Equihash(unsigned int n, unsigned int k)]: the members are
    initialised, then [validate_params(n, k)] is called with the arguments
    converted to [int]. *)
Definition Equihash_new (n k : Z) : result Equihash :=
  _ ← validate_params (to_int n) (to_int k);
  Ok {| eh_n := n; eh_k := k |}.

Definition CollisionBitLength (n k : Z) : Z := n / (k + 1).
Definition CollisionByteLength (n k : Z) : nat := Z.to_nat (CollisionBitLength n k / 8).

(** The invariants of the parameters as the specification lists them. *)
Definition params_invariant (n k : Z) : Prop :=
  k < n /\ n mod 8 = 0 /\ (n / (k + 1)) mod 8 = 0.

(** ** Step rows *)

(** [BasicStepRow]: the hash buffer of [StepRow] ([len] is the length of
    the list) and the index history. *)
Record BasicStepRow : Type := { hash : list Z; indices : list Z }.

(** [TruncatedStepRow]: hash buffer, 8-bit index history and the parallel
    vector of full indices. *)
Record TruncatedStepRow : Type :=
  { thash : list Z; tindices : list Z; full_indices : list Z }.

Global Instance BasicStepRow_eq_dec : EqDecision BasicStepRow.
Proof. solve_decision. Defined.
Global Instance TruncatedStepRow_eq_dec : EqDecision TruncatedStepRow.
Proof. solve_decision. Defined.

(** [p[i] = hash[i] ^ a.hash[i]] for [i < len]. *)
Definition xor_bytes (h1 h2 : list Z) : list Z := zip_with Z.lxor h1 h2.

(** [BasicStepRow::operator^=].  The object [this] is the state: the call
    returns its outcome and the value of [*this] afterwards. *)
Definition BasicStepRow_xor_assign (a this : BasicStepRow)
  : result unit * BasicStepRow :=
  if negb (length (hash a) =? length (hash this))%nat then
    (Fail (Throw_invalid_argument "Hash length differs"), this)
  else if negb (length (indices a) =? length (indices this))%nat then
    (Fail (Throw_invalid_argument "Number of indices differs"), this)
  else
    (Ok tt, {| hash := xor_bytes (hash this) (hash a);
               indices := indices this ++ indices a |}).

(** [TruncatedStepRow::operator^=]. *)
Definition TruncatedStepRow_xor_assign (a this : TruncatedStepRow)
  : result unit * TruncatedStepRow :=
  if negb (length (thash a) =? length (thash this))%nat then
    (Fail (Throw_invalid_argument "Hash length differs"), this)
  else if negb (length (tindices a) =? length (tindices this))%nat then
    (Fail (Throw_invalid_argument "Number of indices differs"), this)
  else
    (Ok tt, {| thash := xor_bytes (thash this) (thash a);
               tindices := tindices this ++ tindices a;
               full_indices := full_indices this ++ full_indices a |}).

(** [indices[0]]; the rows the program builds never have an empty history. *)
Definition first_index (l : list Z) : Z := hd 0 l.

(** [operator^(const BasicStepRow& a, const BasicStepRow& b)]: a copy of
    the operand with the smaller first index is merged with the other. *)
Definition BasicStepRow_xor (a b : BasicStepRow) : result BasicStepRow :=
  if first_index (indices a) <? first_index (indices b) then
    let '(r, c) := BasicStepRow_xor_assign b a in _ ← r; Ok c
  else
    let '(r, c) := BasicStepRow_xor_assign a b in _ ← r; Ok c.

Definition TruncatedStepRow_xor (a b : TruncatedStepRow) : result TruncatedStepRow :=
  if first_index (tindices a) <? first_index (tindices b) then
    let '(r, c) := TruncatedStepRow_xor_assign b a in _ ← r; Ok c
  else
    let '(r, c) := TruncatedStepRow_xor_assign a b in _ ← r; Ok c.

(** [StepRow::TrimHash(l)]: the buffer loses its first [l] bytes. *)
Definition trim_bytes (l : nat) (h : list Z) : list Z := drop l h.

Definition BasicStepRow_TrimHash (l : nat) (r : BasicStepRow) : BasicStepRow :=
  {| hash := trim_bytes l (hash r); indices := indices r |}.

Definition TruncatedStepRow_TrimHash (l : nat) (r : TruncatedStepRow) : TruncatedStepRow :=
  {| thash := trim_bytes l (thash r); tindices := tindices r;
     full_indices := full_indices r |}.

(** [StepRow::IsZero]: the bytes are or-ed together and compared with 0. *)
Definition IsZero (h : list Z) : bool := fold_left Z.lor h 0 =? 0.

(** [HasCollision(a, b, l)]: the first [l] bytes agree. *)
Definition HasCollision (ha hb : list Z) (l : nat) : bool :=
  bool_decide (take l ha = take l hb).

(** [memcmp(a.hash, b.hash, len) < 0]: the operator [<] of both row classes. *)
Fixpoint memcmp_lt (ha hb : list Z) : bool :=
  match ha, hb with
  | x :: ha', y :: hb' => if x <? y then true else if y <? x then false else memcmp_lt ha' hb'
  | _, _ => false
  end.

(** [memcmp(a.hash, b.hash, a.len) == 0]: the operator [==] of both row
    classes. *)
Fixpoint memcmp_eq (ha hb : list Z) : bool :=
  match ha, hb with
  | x :: ha', y :: hb' => if x <? y then false else if y <? x then false else memcmp_eq ha' hb'
  | _, _ => true
  end.

(** The loop of [HasCollision] as it is written,
    [for (int j = 0; j < l; j++) res &= a.hash[j] == b.hash[j];], from
    position [j] on with [count] iterations to go.  A read past the end
    of a buffer has no defined behaviour. *)
Fixpoint HasCollision_from (ha hb : list Z) (j count : nat) (res : bool) : result bool :=
  match count with
  | O => Ok res
  | S count' =>
      match ha !! j, hb !! j with
      | Some x, Some y => HasCollision_from ha hb (S j) count' (res && (x =? y))
      | _, _ => Fail UndefinedBehaviour
      end
  end.

Definition HasCollision_loop (ha hb : list Z) (l : nat) : result bool :=
  HasCollision_from ha hb 0 l true.

(** The exclusive or of a list of buffers of [len] bytes each. *)
Definition xor_all (len : nat) (hs : list (list Z)) : list Z :=
  foldr xor_bytes (replicate len 0) hs.

(** ** BLAKE2b

    The hash primitive behind [crypto_generichash_blake2b_*] (RFC 7693),
    for messages of at most one block of 128 bytes: enough for a short
    header followed by the four bytes of a leaf index.  It serves to
    evaluate the model on states the program can be given; the theorems
    about the solvers hold for every digest function. *)

Module Blake2b.

(** A 64-bit word as its high and low 32 bits, on primitive integers. *)
Definition w64 : Type := (int * int)%type.

Definition mask32 : int := 0xffffffff%uint63.

Definition of_Z64 (x : Z) : w64 :=
  (Uint63.of_Z (Z.land (Z.shiftr x 32) 0xffffffff), Uint63.of_Z (Z.land x 0xffffffff)).

Definition to_Z64 (w : w64) : Z := Uint63.to_Z (fst w) * 2 ^ 32 + Uint63.to_Z (snd w).

Definition add64 (a b : w64) : w64 :=
  let lo := Uint63.add (snd a) (snd b) in
  let hi := Uint63.add (Uint63.add (fst a) (fst b)) (Uint63.lsr lo 32) in
  (Uint63.land hi mask32, Uint63.land lo mask32).

Definition xor64 (a b : w64) : w64 :=
  (Uint63.lxor (fst a) (fst b), Uint63.lxor (snd a) (snd b)).

(** Rotation to the right by [r] bits, [0 < r < 32]. *)
Definition rotr_small (r : int) (a : w64) : w64 :=
  let l := Uint63.sub 32 r in
  (Uint63.land (Uint63.lor (Uint63.lsr (fst a) r) (Uint63.lsl (snd a) l)) mask32,
   Uint63.land (Uint63.lor (Uint63.lsr (snd a) r) (Uint63.lsl (fst a) l)) mask32).

Definition rotr32 (a : w64) : w64 := (snd a, fst a).
Definition rotr24 : w64 -> w64 := rotr_small 24.
Definition rotr16 : w64 -> w64 := rotr_small 16.
Definition rotr63 (a : w64) : w64 := rotr_small 31 (rotr32 a).

(** The initialisation vector and the message schedule of RFC 7693. *)
Definition IV : list w64 :=
  map of_Z64
  [0x6a09e667f3bcc908; 0xbb67ae8584caa73b; 0x3c6ef372fe94f82b; 0xa54ff53a5f1d36f1;
   0x510e527fade682d1; 0x9b05688c2b3e6c1f; 0x1f83d9abfb41bd6b; 0x5be0cd19137e2179].

Definition SIGMA : list (list nat) :=
  [[0; 1; 2; 3; 4; 5; 6; 7; 8; 9; 10; 11; 12; 13; 14; 15];
   [14; 10; 4; 8; 9; 15; 13; 6; 1; 12; 0; 2; 11; 7; 5; 3];
   [11; 8; 12; 0; 5; 2; 15; 13; 10; 14; 3; 6; 7; 1; 9; 4];
   [7; 9; 3; 1; 13; 12; 11; 14; 2; 6; 5; 10; 4; 0; 15; 8];
   [9; 0; 5; 7; 2; 4; 10; 15; 14; 1; 11; 12; 6; 8; 3; 13];
   [2; 12; 6; 10; 0; 11; 8; 3; 4; 13; 7; 5; 15; 14; 1; 9];
   [12; 5; 1; 15; 14; 13; 4; 10; 0; 7; 6; 3; 9; 2; 8; 11];
   [13; 11; 7; 14; 12; 1; 3; 9; 5; 0; 15; 4; 8; 6; 2; 10];
   [6; 15; 14; 9; 11; 3; 0; 8; 12; 2; 13; 7; 1; 4; 10; 5];
   [10; 2; 8; 4; 7; 6; 1; 5; 15; 11; 9; 14; 3; 12; 13; 0]]%nat.

Definition zero64 : w64 := (0%uint63, 0%uint63).
Definition word (v : list w64) (i : nat) : w64 := nth i v zero64.

(** The mixing function [G] and a round of eight of them. *)
Definition G (a b c d : nat) (x y : w64) (v : list w64) : list w64 :=
  let va := add64 (add64 (word v a) (word v b)) x in
  let vd := rotr32 (xor64 (word v d) va) in
  let vc := add64 (word v c) vd in
  let vb := rotr24 (xor64 (word v b) vc) in
  let va := add64 (add64 va vb) y in
  let vd := rotr16 (xor64 vd va) in
  let vc := add64 vc vd in
  let vb := rotr63 (xor64 vb vc) in
  <[a := va]> (<[b := vb]> (<[c := vc]> (<[d := vd]> v))).

Definition round (m : list w64) (s : list nat) (v : list w64) : list w64 :=
  let mi (i : nat) := word m (nth i s O) in
  let v := G 0 4 8 12 (mi 0%nat) (mi 1%nat) v in
  let v := G 1 5 9 13 (mi 2%nat) (mi 3%nat) v in
  let v := G 2 6 10 14 (mi 4%nat) (mi 5%nat) v in
  let v := G 3 7 11 15 (mi 6%nat) (mi 7%nat) v in
  let v := G 0 5 10 15 (mi 8%nat) (mi 9%nat) v in
  let v := G 1 6 11 12 (mi 10%nat) (mi 11%nat) v in
  let v := G 2 7 8 13 (mi 12%nat) (mi 13%nat) v in
  G 3 4 9 14 (mi 14%nat) (mi 15%nat) v.

(** The compression function [F]: [t] is the number of bytes absorbed so
    far (below 2^64), [last] marks the final block. *)
Definition compress (h m : list w64) (t : Z) (last : bool) : list w64 :=
  let v := h ++ IV in
  let v := <[12%nat := xor64 (word v 12) (of_Z64 t)]> v in
  let v := if last then <[14%nat := xor64 (word v 14) (mask32, mask32)]> v else v in
  let v := fold_left (fun v r => round m (nth (r mod 10)%nat SIGMA []) v) (seq 0 12) v in
  map (fun i => xor64 (xor64 (word h i) (word v i)) (word v (i + 8))) (seq 0 8).

Fixpoint le_word (bs : list Z) : Z :=
  match bs with
  | [] => 0
  | b :: bs' => b + 256 * le_word bs'
  end.

Fixpoint le_bytes (len : nat) (w : Z) : list Z :=
  match len with
  | O => []
  | S len' => (w mod 256) :: le_bytes len' (w / 256)
  end.

Fixpoint words (count : nat) (bs : list Z) : list w64 :=
  match count with
  | O => []
  | S count' => of_Z64 (le_word (take 8 bs)) :: words count' (drop 8 bs)
  end.

(** The state: the chain value and the bytes buffered since
    initialisation (no block has been compressed yet). *)
Record state : Type := { st_h : list w64; st_buf : list Z }.

(** [crypto_generichash_blake2b_init_salt_personal] with no key and no
    salt: the parameter block holds the digest length, fanout 1, depth 1
    and the 16 bytes of personalisation. *)
Definition init_personal (outlen : Z) (personal : list Z) : state :=
  let p := map of_Z64 [0x01010000 + outlen; 0; 0; 0; 0; 0;
                       le_word (take 8 personal); le_word (drop 8 personal)] in
  {| st_h := zip_with xor64 IV p; st_buf := [] |}.

Definition update (s : state) (bs : list Z) : state :=
  {| st_h := st_h s; st_buf := st_buf s ++ bs |}.

(** [crypto_generichash_blake2b_final]: the buffered bytes, padded with
    zeros, are compressed as the last block; the digest is the first
    [outlen] bytes of the chain value. *)
Definition final (s : state) (outlen : nat) : list Z :=
  let m := words 16 (st_buf s ++ repeat 0 (128 - length (st_buf s))) in
  let h := compress (st_h s) m (Z.of_nat (length (st_buf s))) true in
  take outlen (concat (map (fun w => le_bytes 8 (to_Z64 w)) h)).

End Blake2b.

(** [int Equihash::InitialiseState(eh_HashState& base_state)]: the
    personalisation is "ZcashPOW" followed by the four bytes of [n] and
    the four bytes of [k] ([memcpy] on a little-endian target); the digest
    length is [n/8]. *)
Definition InitialiseState (n k : Z) : Blake2b.state :=
  Blake2b.init_personal (n / 8)
    ([90; 99; 97; 115; 104; 80; 79; 87] ++ Blake2b.le_bytes 4 n ++ Blake2b.le_bytes 4 k).

(** The digest of a leaf as [StepRow::StepRow] computes it: the state is
    copied, updated with the four bytes of [i] and finalised. *)
Definition blake2b_digest (s : Blake2b.state) (i : Z) (len : nat) : list Z :=
  Blake2b.final (Blake2b.update s (Blake2b.le_bytes 4 i)) len.

(** The indices of the leaves of list [X_v] as the specification gives
    them: [(p_v << (N-7)) | j] for [j] in [[0, R)], [R = 2^(N-7)]. *)
Definition spec_recreate_indices (n k : Z) (p : Z) : list Z :=
  let N := CollisionBitLength n k in
  map (fun j => Z.lor (Z.shiftl p (N - 7)) j) (seqZ 0 (2 ^ (N - 7))).

(** ** A concrete sort and concrete digests, for evaluating the model *)

(** Merge sort with "[b] is not less than [a]" as the order: a function
    that meets the contract of [std::sort]. *)
Definition merge_std_sort (A : Type) (lt : A -> A -> bool) (l : list A) : list A :=
  @merge_sort A (fun a b => lt b a = false) (fun a b => bool_eq_dec (lt b a) false) l.

(** The same sort on the reversed input: rows with equal hashes come out
    in the opposite order. *)
Definition merge_std_sort_rev (A : Type) (lt : A -> A -> bool) (l : list A) : list A :=
  merge_std_sort A lt (rev l).

(** The bytes of [v], most significant first, [len] of them. *)
Fixpoint be_bytes (len : nat) (v : Z) : list Z :=
  match len with
  | O => []
  | S len' => be_bytes len' (v / 256) ++ [v mod 256]
  end.

(** A digest over the one-point state: leaves 0 and 2 share the digest 0,
    leaf 4 has digest 1, every other leaf [i] has digest [512 + i]. *)
Definition demo_digest (_ : unit) (i : Z) (len : nat) : list Z :=
  be_bytes len (if (i =? 0) || (i =? 2) then 0 else if i =? 4 then 1 else 512 + i).

(** The BLAKE2b digest at every length: [blake2b_digest] up to the 64
    bytes BLAKE2b can give, and zeros for the bytes past them, which no
    [Equihash] object with [n <= 512] asks for. *)
Definition blake2b_digest_padded (s : Blake2b.state) (i : Z) (len : nat) : list Z :=
  take len (blake2b_digest s i len ++ replicate len 0).


(** ** The model, over the external hash primitive and [std::sort] *)

Section Model.

(** [eh_HashState] and the digest of a leaf: the output of
    [crypto_generichash_blake2b_final(&state, hash, outlen)] after the
    state [s] has absorbed the four bytes of index [i]. *)
Variable HashState : Type.
Variable digest : HashState -> Z -> nat -> list Z.

(** [std::sort(first, last)] with the element type's [operator<]. *)
Variable std_sort : forall A : Type, (A -> A -> bool) -> list A -> list A.

(** *** DistinctIndices *)

(** [while (aSrt[i] < bSrt[j]) { i++; if (i == aSrt.size()) return true; }]
    on the part of [aSrt] from position [i] on: the result is the part
    from the new [i] on, and [[]] stands for the early [return true]. *)
Fixpoint skip_less (y : Z) (a : list Z) : list Z :=
  match a with
  | [] => []
  | x :: a' => if x <? y then skip_less y a' else a
  end.

(** The [for] loop over [bSrt], on the parts of the two sorted vectors
    that are still to be read. *)
Fixpoint scan_distinct (a b : list Z) : bool :=
  match b with
  | [] => true
  | y :: b' =>
      match skip_less y a with
      | [] => true
      | x :: a' => if x =? y then false else scan_distinct (x :: a') b'
      end
  end.

(** [template<typename INDEX_TYPE> bool DistinctIndices(a, b)].  (For an
    empty [a] the source reads [aSrt[0]] out of range; no row has an empty
    history.) *)
Definition DistinctIndices (a b : list Z) : bool :=
  let aSrt := std_sort Z Z.ltb a in
  let bSrt := std_sort Z Z.ltb b in
  scan_distinct aSrt bSrt.

(** *** Rows of leaves *)

(** [StepRow::StepRow(n, base_state, i)]: [n/8] bytes of digest. *)
Definition StepRow_new (n : Z) (s : HashState) (i : Z) : list Z :=
  digest s i (Z.to_nat (n / 8)).

Definition BasicStepRow_new (n : Z) (s : HashState) (i : Z) : BasicStepRow :=
  {| hash := StepRow_new n s i; indices := [i] |}.

(** [TruncatedStepRow::TruncatedStepRow(n, base_state, i, ilen)] with
    [eh_trunc itrunc { (i >> (ilen - 8)) & 0xff }].  The count [ilen - 8]
    is [unsigned]: for [ilen] below 8 it wraps, and a shift of the 32-bit
    [i] by 32 or more has no defined behaviour. *)
Definition TruncatedStepRow_new (n : Z) (s : HashState) (i : Z) (ilen : Z)
  : result TruncatedStepRow :=
  if (ilen <? 8) || (40 <=? ilen) then Fail UndefinedBehaviour
  else Ok {| thash := StepRow_new n s i;
             tindices := [Z.land (Z.shiftr i (ilen - 8)) 255];
             full_indices := [i] |}.

(** *** The verifier *)

(** One pass of the [for (int i = 0; i < X.size(); i += 2)] loop of
    [IsValidSolution] over the rows not yet consumed.  [Ok None] is
    [return false].  A table of odd size would make the source read
    [X[i+1]] out of range. *)
Fixpoint verify_level (Nb : nat) (X : list BasicStepRow)
  : result (option (list BasicStepRow)) :=
  match X with
  | [] => Ok (Some [])
  | [_] => Fail UndefinedBehaviour
  | a :: b :: X' =>
      if negb (HasCollision (hash a) (hash b) Nb) then Ok None
      else if first_index (indices b) <? first_index (indices a) then Ok None
      else if negb (DistinctIndices (indices a) (indices b)) then Ok None
      else
        c ← BasicStepRow_xor a b;
        rest ← verify_level Nb X';
        Ok (option_map (cons (BasicStepRow_TrimHash Nb c)) rest)
  end.

(** [while (X.size() > 1) { ... X = Xc; }] followed by
    [return X[0].IsZero()]. *)
Fixpoint verify_loop (fuel : nat) (Nb : nat) (X : list BasicStepRow) : result bool :=
  if bool_decide (1 < length X)%nat then
    match fuel with
    | O => Fail OutOfFuel
    | S fuel' =>
        r ← verify_level Nb X;
        match r with
        | None => Ok false
        | Some Xc => verify_loop fuel' Nb Xc
        end
    end
  else
    match X with
    | [] => Fail AssertFailed     (* assert(X.size() == 1) *)
    | x :: _ => Ok (IsZero (hash x))
    end.

(** [bool Equihash::IsValidSolution(base_state, soln)].
    [eh_index soln_size { pow(2, k) }] converts a [double] to [uint32_t],
    which is defined only when the value fits. *)
Definition IsValidSolution (n k : Z) (s : HashState) (soln : list Z) : result bool :=
  if 32 <=? k then Fail UndefinedBehaviour
  else if negb (Z.of_nat (length soln) =? 2 ^ k) then Ok false
  else
    let X := map (BasicStepRow_new n s) soln in
    verify_loop (length soln) (CollisionByteLength n k) X.

(** The table of the verifier after [t] complete passes of the [while]
    loop, when none of them returned. *)
Fixpoint verify_levels (t : nat) (Nb : nat) (X : list BasicStepRow)
  : result (option (list BasicStepRow)) :=
  match t with
  | O => Ok (Some X)
  | S t' =>
      r ← verify_level Nb X;
      match r with
      | None => Ok None
      | Some Xc => verify_levels t' Nb Xc
      end
  end.

(** *** The collision rounds shared by the two solvers *)

(** What the round loops use of a row class: both [BasicStepRow] and
    [TruncatedStepRow] derive from [StepRow] and provide [operator^],
    [TrimHash] and the history read by [DistinctIndices]. *)
Class StepRowOps (R : Type) : Type := {
  row_hash : R -> list Z;
  row_indices : R -> list Z;
  row_xor : R -> R -> result R;
  row_trim : nat -> R -> R
}.

Global Instance BasicStepRow_ops : StepRowOps BasicStepRow := {|
  row_hash := hash;
  row_indices := indices;
  row_xor := BasicStepRow_xor;
  row_trim := BasicStepRow_TrimHash
|}.

Global Instance TruncatedStepRow_ops : StepRowOps TruncatedStepRow := {|
  row_hash := thash;
  row_indices := tindices;
  row_xor := TruncatedStepRow_xor;
  row_trim := TruncatedStepRow_TrimHash
|}.

Section Rounds.
Context {R : Type} `{StepRowOps R}.

(** Collision byte length, and whether step 2c tests [DistinctIndices]
    ([BasicSolve]) or not (phase A of [OptimisedSolve]). *)
Variable Nb : nat.
Variable check_distinct : bool.

(** [operator<] of the row class. *)
Definition row_lt (a b : R) : bool := memcmp_lt (row_hash a) (row_hash b).

(** Number of leading rows of [rest] that collide with [x]: the count
    added by [while (... && HasCollision(x, rest[_], Nb)) j++].
    ([HasCollision] compares the two rows byte by byte, so the order of
    its two rows does not matter.) *)
Fixpoint run_length (x : R) (rest : list R) : nat :=
  match rest with
  | [] => O
  | y :: rest' =>
      if HasCollision (row_hash x) (row_hash y) Nb then S (run_length x rest') else O
  end.

(** Body of the inner loop of step 2c.  The vector [Xc] is kept with
    its [back()] at the head: [push_back] is [cons]. *)
Definition merge_pair (a b : R) (Xc : list R) : result (list R) :=
  if negb check_distinct || DistinctIndices (row_indices a) (row_indices b) then
    c ← row_xor a b;
    Ok (row_trim Nb c :: Xc)
  else Ok Xc.

(** [for (int m = l + 1; m < j; m++)] over the rows after [X[i+l]]. *)
Fixpoint merge_with (a : R) (bs : list R) (Xc : list R) : result (list R) :=
  match bs with
  | [] => Ok Xc
  | b :: bs' => Xc' ← merge_pair a b Xc; merge_with a bs' Xc'
  end.

(** [for (int l = 0; l < j - 1; l++)] over the run [X[i .. i+j)]. *)
Fixpoint merge_run (run : list R) (Xc : list R) : result (list R) :=
  match run with
  | [] => Ok Xc
  | a :: run' => Xc' ← merge_with a run' Xc; merge_run run' Xc'
  end.

(** [while (posFree < bound && Xc.size() > 0)
       { X[posFree++] = Xc.back(); Xc.pop_back(); }] *)
Fixpoint store_inplace (bound : nat) (X : list R) (posFree : nat) (Xc : list R)
  : list R * nat * list R :=
  match Xc with
  | [] => (X, posFree, [])
  | c :: Xc' =>
      if (posFree <? bound)%nat
      then store_inplace bound (<[posFree := c]> X) (S posFree) Xc'
      else (X, posFree, Xc)
  end.

(** The variables of the scan: the table, [i], [posFree] and [Xc]. *)
Record scan_state : Type := {
  scan_X : list R;
  scan_i : nat;
  scan_posFree : nat;
  scan_Xc : list R
}.

(** One iteration of [while (i < X.size() - 1)]: steps 2b, 2c, 2d and
    [i += j].  Under the loop condition [X[i]] is a row of the table. *)
Definition scan_step (st : scan_state) : result scan_state :=
  let X := scan_X st in
  let i := scan_i st in
  match X !! i with
  | None => Fail UndefinedBehaviour
  | Some x =>
      let j := S (run_length x (drop (S i) X)) in
      Xc' ← merge_run (take j (drop i X)) (scan_Xc st);
      let '(X', posFree', Xc'') :=
        store_inplace (i + j) X (scan_posFree st) Xc' in
      Ok {| scan_X := X'; scan_i := (i + j)%nat;
            scan_posFree := posFree'; scan_Xc := Xc'' |}
  end.

Fixpoint scan_loop (fuel : nat) (st : scan_state) : result scan_state :=
  if (scan_i st <? length (scan_X st) - 1)%nat then
    match fuel with
    | O => Fail OutOfFuel
    | S fuel' => st' ← scan_step st; scan_loop fuel' st'
    end
  else Ok st.

(** The states of the scan at the head of its loop, for the sorted
    table [Xs]: the state at entry, and the state after an iteration
    from a state in which the loop condition holds. *)
Definition scan_init (Xs : list R) : scan_state :=
  {| scan_X := Xs; scan_i := O; scan_posFree := O; scan_Xc := [] |}.

Inductive scan_reach (Xs : list R) : scan_state -> Prop :=
  | scan_reach_init : scan_reach Xs (scan_init Xs)
  | scan_reach_step (st st' : scan_state) :
      scan_reach Xs st ->
      (scan_i st < length (scan_X st) - 1)%nat ->
      scan_step st = Ok st' ->
      scan_reach Xs st'.

(** The positions of a scan state with respect to the sorted table:
    the table keeps its size, [posFree] is not ahead of [i], and from
    [i] on the table still holds the sorted rows. *)
Definition scan_inv (Xs : list R) (st : scan_state) : Prop :=
  length (scan_X st) = length Xs /\
  (scan_posFree st <= scan_i st <= length Xs)%nat /\
  drop (scan_i st) (scan_X st) = drop (scan_i st) Xs.

(** The body of the round loop: sort, scan, then steps 2e, 2f, 2g.
    The table is not empty here (loop condition [X.size() > 0]). *)
Definition collision_round (X : list R) : result (list R) :=
  let Xs := std_sort R row_lt X in
  st ← scan_loop (length Xs) (scan_init Xs);
  let '(X', posFree, Xc) :=
    store_inplace (length (scan_X st)) (scan_X st) (scan_posFree st) (scan_Xc st) in
  Ok (match Xc with
      | _ :: _ => X' ++ rev Xc
      | [] => if (posFree <? length X')%nat then take posFree X' else X'
      end).

(** [for (int r = 1; r < k && X.size() > 0; r++)], [count] rounds left. *)
Fixpoint collision_rounds (count : nat) (X : list R) : result (list R) :=
  match count with
  | O => Ok X
  | S count' =>
      match X with
      | [] => Ok X
      | _ :: _ => X' ← collision_round X; collision_rounds count' X'
      end
  end.

(** [for (int i = 0; i < X.size() - 1; i++)] of the final round, on the
    rows from [X[i]] on. *)
Fixpoint final_pairs (X : list R) : result (gset (list Z)) :=
  match X with
  | a :: X' =>
      match X' with
      | b :: _ =>
          res ← row_xor a b;
          rest ← final_pairs X';
          Ok (if IsZero (row_hash res)
                 && DistinctIndices (row_indices a) (row_indices b)
              then {[ row_indices res ]} ∪ rest
              else rest)
      | [] => Ok ∅
      end
  | [] => Ok ∅
  end.

Definition final_round (X : list R) : result (gset (list Z)) :=
  if (1 <? length X)%nat then final_pairs (std_sort R row_lt X) else Ok ∅.

End Rounds.

(** The merges of one round collected in a list, without the table being
    written: the sorted table is cut, from the left, into runs of rows
    that collide with the first row of the run, as the scan does, and the
    merges of every run are pushed.  The last row alone starts no run
    ([while (i < X.size() - 1)]). *)
Fixpoint round_merges {R : Type} `{StepRowOps R} (Nb : nat) (check_distinct : bool)
    (fuel : nat) (Xs : list R) (acc : list R) : result (list R) :=
  match Xs with
  | [] => Ok acc
  | x :: rest =>
      match rest with
      | [] => Ok acc
      | _ :: _ =>
          match fuel with
          | O => Fail OutOfFuel
          | S fuel' =>
              let j := S (run_length Nb x rest) in
              acc' ← merge_run Nb check_distinct (take j Xs) acc;
              round_merges Nb check_distinct fuel' (drop j Xs) acc'
          end
      end
  end.

Definition round_merge_list {R : Type} `{StepRowOps R} (Nb : nat) (check_distinct : bool)
    (Xs : list R) : result (list R) :=
  round_merges Nb check_distinct (length Xs) Xs [].

(** *** BasicSolve *)

(** [eh_index init_size { ((eh_index) 1) << (CollisionBitLength() + 1) }] *)
Definition init_size (n k : Z) : Z := Z.shiftl 1 (CollisionBitLength n k + 1).

(** [std::set<std::vector<eh_index>> Equihash::BasicSolve(base_state)]:
    the [assert], the first list, the rounds 1 .. k-1 and the final
    round. *)
Definition BasicSolve (n k : Z) (s : HashState) : result (gset (list Z)) :=
  if negb (CollisionBitLength n k + 1 <? 32) then Fail AssertFailed
  else
    let X := map (BasicStepRow_new n s) (seqZ 0 (init_size n k)) in
    X' ← collision_rounds (CollisionByteLength n k) true (Z.to_nat (k - 1)) X;
    final_round X'.

(** *** OptimisedSolve *)

(** Monadic iteration, for loops whose body can fail. *)
Fixpoint foldM {A B : Type} (f : B -> A -> result B) (b : B) (l : list A) : result B :=
  match l with
  | [] => Ok b
  | a :: l' => b' ← f b a; foldM f b' l'
  end.

Fixpoint mapM_result {A B : Type} (f : A -> result B) (l : list A) : result (list B) :=
  match l with
  | [] => Ok []
  | a :: l' => b ← f a; bs ← mapM_result f l'; Ok (b :: bs)
  end.

(** The [assert] at the head of [OptimisedSolve] and phase A: the first
    list of truncated rows, the rounds of [BasicSolve] without the test of
    step 2c, and the final round, which yields the partial solutions. *)
Definition PartialSolve (n k : Z) (s : HashState) : result (gset (list Z)) :=
  if negb (CollisionBitLength n k + 1 <? 32) then Fail AssertFailed
  else
    Xt ← mapM_result
           (fun i => TruncatedStepRow_new n s i (CollisionBitLength n k + 1))
           (seqZ 0 (init_size n k));
    Xt' ← collision_rounds (CollisionByteLength n k) false (Z.to_nat (k - 1)) Xt;
    final_round Xt'.

(** [eh_index recreate_size { ((eh_index) 1) << (CollisionBitLength() - 7) }]:
    the count is [unsigned]; with fewer than 7 collision bits the
    subtraction wraps, and a shift of a 32-bit value by 32 or more has no
    defined behaviour. *)
Definition recreate_size (n k : Z) : result Z :=
  let count := CollisionBitLength n k - 7 in
  if (count <? 0) || (32 <=? count) then Fail UndefinedBehaviour
  else Ok (Z.shiftl 1 count).

(** [(partialSoln[i] << recreate_size) | j]: the [eh_trunc] is promoted
    to [int] and shifted by [recreate_size]; a shift by the width of
    [int] or more, or one whose result does not fit [int], is undefined. *)
Definition recreate_index (n k : Z) (p j : Z) : result Z :=
  sh ← recreate_size n k;
  if (32 <=? sh) || (2 ^ 31 <=? Z.shiftl p sh) then Fail UndefinedBehaviour
  else Ok (Z.lor (Z.shiftl p sh) j).

(** The list [ic] built for one entry of the partial solution. *)
Definition recreate_list (n k : Z) (s : HashState) (p : Z) : result (list BasicStepRow) :=
  rs ← recreate_size n k;
  mapM_result
    (fun j => i ← recreate_index n k p j; Ok (BasicStepRow_new n s i))
    (seqZ 0 rs).

(** The cursors and the output vector of the cross-merge of two lists. *)
Record cross_state : Type := {
  iChecked : nat;
  jChecked : nat;
  cross_ic : list BasicStepRow
}.

(** Body of the double loop of step 2c in phase B, for one [(l, m)]:
    the test reads [X[v][iChecked+l]] and [X[v+1][jChecked+m]], the pushed
    row is [X[v][iChecked+l] ^ X[v][jChecked+m]]. *)
Definition cross_emit (Nb : nat) (Xl Xr : list BasicStepRow) (iC jC : nat)
    (ic : list BasicStepRow) (l m : nat) : result (list BasicStepRow) :=
  match Xl !! (iC + l)%nat, Xr !! (jC + m)%nat with
  | Some a, Some b =>
      if DistinctIndices (indices a) (indices b) then
        match Xl !! (jC + m)%nat with
        | Some a' =>
            c ← BasicStepRow_xor a a';
            Ok (ic ++ [BasicStepRow_TrimHash Nb c])
        | None => Fail UndefinedBehaviour
        end
      else Ok ic
  | _, _ => Fail UndefinedBehaviour
  end.

(** One iteration of
    [while (iChecked < X[v].size() && jChecked < X[v+1].size())]. *)
Definition cross_step (Nb : nat) (Xl Xr : list BasicStepRow) (st : cross_state)
  : result cross_state :=
  let iC := iChecked st in
  let jC := jChecked st in
  match Xl !! iC, Xr !! jC with
  | Some xi, Some xj =>
      let i := run_length Nb xj (drop iC Xl) in
      let j := S (run_length Nb xi (drop (S jC) Xr)) in
      ic' ← foldM (fun ic l => foldM (fun ic m => cross_emit Nb Xl Xr iC jC ic l m)
                                      ic (seq 0 j))
                  (cross_ic st) (seq 0 i);
      Ok (if (i =? 0)%nat && (j =? 0)%nat
          then {| iChecked := iC; jChecked := S jC; cross_ic := ic' |}
          else {| iChecked := (iC + i)%nat; jChecked := (jC + j)%nat; cross_ic := ic' |})
  | _, _ => Fail UndefinedBehaviour
  end.

Fixpoint cross_loop (fuel : nat) (Nb : nat) (Xl Xr : list BasicStepRow)
    (st : cross_state) : result cross_state :=
  if (iChecked st <? length Xl)%nat && (jChecked st <? length Xr)%nat then
    match fuel with
    | O => Fail OutOfFuel
    | S fuel' => st' ← cross_step Nb Xl Xr st; cross_loop fuel' Nb Xl Xr st'
    end
  else Ok st.

(** The list [ic] pushed for the pair [(X[v], X[v+1])]. *)
Definition cross_merge (Nb : nat) (Xl Xr : list BasicStepRow)
  : result (list BasicStepRow) :=
  st ← cross_loop (length Xr) Nb Xl Xr
         {| iChecked := O; jChecked := O; cross_ic := [] |};
  Ok (cross_ic st).

(** [for (int v = 0; v < X.size(); v += 2)] over the lists not yet paired. *)
Fixpoint cross_pairs (Nb : nat) (X : list (list BasicStepRow))
  : result (list (list BasicStepRow)) :=
  match X with
  | [] => Ok []
  | [_] => Fail UndefinedBehaviour
  | Xl :: Xr :: X' =>
      ic ← cross_merge Nb Xl Xr;
      rest ← cross_pairs Nb X';
      Ok (ic :: rest)
  end.

(** [if (X[v].size() == 0) continue; std::sort(X[v].begin(), X[v].end());] *)
Definition sort_list (l : list BasicStepRow) : list BasicStepRow :=
  match l with
  | [] => l
  | _ :: _ => std_sort BasicStepRow row_lt l
  end.

(** [while (X.size() > 1) { ... X = Xc; }] of phase B and the
    [assert(X.size() == 1)] after it; the result is [X[0]]. *)
Fixpoint recreate_loop (fuel : nat) (Nb : nat) (X : list (list BasicStepRow))
  : result (list BasicStepRow) :=
  if (1 <? length X)%nat then
    match fuel with
    | O => Fail OutOfFuel
    | S fuel' =>
        Xc ← cross_pairs Nb (map sort_list X);
        recreate_loop fuel' Nb Xc
    end
  else
    match X with
    | [] => Fail AssertFailed
    | top :: _ => Ok top
    end.

(** The lists of phase B after [t] complete passes of its [while] loop. *)
Fixpoint recreate_levels (t : nat) (Nb : nat) (X : list (list BasicStepRow))
  : result (list (list BasicStepRow)) :=
  match t with
  | O => Ok X
  | S t' =>
      Xc ← cross_pairs Nb (map sort_list X);
      recreate_levels t' Nb Xc
  end.

(** Phase B for one partial solution: the index vectors inserted into
    [solns]. *)
Definition recreate (n k : Z) (s : HashState) (partialSoln : list Z)
  : result (list (list Z)) :=
  X ← mapM_result (recreate_list n k s) partialSoln;
  top ← recreate_loop (length X) (CollisionByteLength n k) X;
  Ok (map indices top).

(** [std::set<std::vector<eh_index>> Equihash::OptimisedSolve(base_state)]:
    the [assert] and phase A, then [recreate_size] and phase B for each
    partial solution. *)
Definition OptimisedSolve (n k : Z) (s : HashState) : result (gset (list Z)) :=
  partialSolns ← PartialSolve n k s;
  _ ← recreate_size n k;
  solns ← mapM_result (recreate n k s) (elements partialSolns);
  Ok (list_to_set (concat solns)).


(** *** Invariants used in the proofs *)

(** All rows of a table have a hash of [L] bytes and a history of [c]
    indices. *)
Definition uniform (L c : nat) (X : list BasicStepRow) : Prop :=
  Forall (fun r => length (hash r) = L /\ length (indices r) = c) X.

(** The rows [BasicSolve] can hold after [r] rounds: a leaf row, or the
    trimmed merge of two such rows of the round before that collide on
    [Nb] bytes, are in canonical order and have disjoint histories. *)
Inductive tree_row (n k : Z) (s : HashState) : nat -> BasicStepRow -> Prop :=
  | tree_leaf (i : Z) :
      0 <= i < init_size n k ->
      tree_row n k s O (BasicStepRow_new n s i)
  | tree_node (r : nat) (a b : BasicStepRow) :
      tree_row n k s r a ->
      tree_row n k s r b ->
      HasCollision (hash a) (hash b) (CollisionByteLength n k) = true ->
      first_index (indices a) < first_index (indices b) ->
      DistinctIndices (indices a) (indices b) = true ->
      tree_row n k s (S r)
        (BasicStepRow_TrimHash (CollisionByteLength n k)
           {| hash := xor_bytes (hash a) (hash b);
              indices := indices a ++ indices b |}).

(** What the final round of [BasicSolve] records: the two histories of a
    canonical pair of rows whose hashes cancel. *)
Definition final_pair (n k : Z) (s : HashState) (r : nat) (sol : list Z) : Prop :=
  exists a b,
    tree_row n k s r a /\ tree_row n k s r b /\
    first_index (indices a) < first_index (indices b) /\
    DistinctIndices (indices a) (indices b) = true /\
    IsZero (xor_bytes (hash a) (hash b)) = true /\
    sol = indices a ++ indices b.

(** The exclusive or of the digests of the leaves with the indices [l]. *)
Definition leaves_xor (n : Z) (s : HashState) (l : list Z) : list Z :=
  xor_all (Z.to_nat (n / 8)) (map (StepRow_new n s) l).

(** A binary tree of [t] levels over the [2^t] indices [l], read from
    left to right: at every node the first index of the left half is
    smaller than the first index of the right half, and the exclusive or
    of the digests of the leaves below a node at height [h] starts with
    [h * Nb] zero bytes. *)
Fixpoint collision_tree (n : Z) (s : HashState) (Nb : nat) (t : nat) (l : list Z) : Prop :=
  match t with
  | O => True
  | S t' =>
      collision_tree n s Nb t' (take (2 ^ t') l) /\
      collision_tree n s Nb t' (drop (2 ^ t') l) /\
      first_index (take (2 ^ t') l) < first_index (drop (2 ^ t') l) /\
      Forall (fun b => b = 0) (take (S t' * Nb) (leaves_xor n s l))
  end.

(** The row the verifier holds for a node at height [t] over the
    indices [l]. *)
Definition block_row (n : Z) (s : HashState) (Nb t : nat) (l : list Z) : BasicStepRow :=
  {| hash := drop (t * Nb) (leaves_xor n s l); indices := l |}.

(** The indices below a node at height [t]: [2^t] of them, no two
    equal, forming a tree. *)
Definition tree_block (n : Z) (s : HashState) (Nb t : nat) (l : list Z) : Prop :=
  length l = (2 ^ t)%nat /\ NoDup l /\ collision_tree n s Nb t l.

(** A row of the verifier after [t] passes: the row of a node at height
    [t]. *)
Definition verified_row (n : Z) (s : HashState) (Nb t : nat) (x : BasicStepRow) : Prop :=
  tree_block n s Nb t (indices x) /\ x = block_row n s Nb t (indices x).


(** * Properties *)

(** ** Parameter validation *)

Lemma to_int_small (u : Z) : 0 <= u < 2 ^ 31 -> to_int u = u.
Proof. intros Hu. unfold to_int. case_match; [done | lia]. Qed.

(** X16: for arguments below 2^31 the conversion to [int] keeps the value,
  and construction throws [invalid_params] exactly outside the invariant
  region and succeeds inside it. *)
Lemma Equihash_new_in_range (n k : Z) :
0 <= n < 2 ^ 31 -> 0 <= k < 2 ^ 31 ->
(Equihash_new n k = Fail Throw_invalid_params <-> ~ params_invariant n k) /\
(params_invariant n k -> Equihash_new n k = Ok {| eh_n := n; eh_k := k |}).
Proof.
intros Hn Hk. unfold Equihash_new, params_invariant.
rewrite !to_int_small by done. unfold validate_params.
destruct (Z.geb_spec k n) as [Hge|Hlt]; simpl; [split; [split|]; [lia|done|lia]|].
rewrite Z.rem_mod_nonneg by lia.
destruct (Z.eqb_spec (n mod 8) 0) as [H8|H8]; simpl; [|split; [split|]; [lia|done|lia]].
destruct (Z.eqb_spec (k + 1) 0) as [?|_]; [lia|].
rewrite Z.quot_div_nonneg by lia.
rewrite Z.rem_mod_nonneg; [|apply Z.div_pos; lia|lia].
destruct (Z.eqb_spec ((n / (k + 1)) mod 8) 0) as [HN|HN]; simpl.
- split; [split; [done|intros []; lia]|done].
- split; [split; [lia|done]|lia].
Qed.

(** C4, at the input [Equihash(64, 4294967287)]: the [unsigned] argument
  [k] becomes the [int] -9 in [validate_params], none of the three tests
  fires and the instance is constructed, although [k >= n]. *)
Theorem Equihash_new_accepts_k_above_n :
is_uint32 64 /\ is_uint32 4294967287 /\
~ params_invariant 64 4294967287 /\
Equihash_new 64 4294967287 = Ok {| eh_n := 64; eh_k := 4294967287 |}.
Proof.
unfold is_uint32, params_invariant. repeat split; try lia; try done.
Qed.

(** For [Equihash(8, 4294967295)] the converted [k] is -1 and the third
  test divides by zero. *)
Lemma Equihash_new_divides_by_zero :
Equihash_new 8 4294967295 = Fail UndefinedBehaviour.
Proof. reflexivity. Qed.

(** ** Row operations *)

Lemma xor_bytes_comm (h1 h2 : list Z) : xor_bytes h1 h2 = xor_bytes h2 h1.
Proof.
unfold xor_bytes. revert h2.
induction h1 as [|x h1 IH]; intros [|y h2]; simpl; try done.
by rewrite Z.lxor_comm, IH.
Qed.

Lemma length_xor_bytes (h1 h2 : list Z) :
length h1 = length h2 -> length (xor_bytes h1 h2) = length h1.
Proof. intros Hl. unfold xor_bytes. rewrite length_zip_with. lia. Qed.

(** Every byte of the result is the exclusive or of the two bytes at its
  position. *)
Lemma xor_bytes_lookup (h1 h2 : list Z) (i : nat) (x y : Z) :
h1 !! i = Some x -> h2 !! i = Some y -> xor_bytes h1 h2 !! i = Some (Z.lxor x y).
Proof.
intros H1 H2. unfold xor_bytes. rewrite lookup_zip_with, H1, H2. done.
Qed.

Lemma BasicStepRow_xor_ok (a b : BasicStepRow) :
length (hash a) = length (hash b) ->
length (indices a) = length (indices b) ->
BasicStepRow_xor a b =
  Ok (if first_index (indices a) <? first_index (indices b)
      then {| hash := xor_bytes (hash a) (hash b); indices := indices a ++ indices b |}
      else {| hash := xor_bytes (hash b) (hash a); indices := indices b ++ indices a |}).
Proof.
intros Hh Hi. unfold BasicStepRow_xor, BasicStepRow_xor_assign.
rewrite Hh, Hi, !Nat.eqb_refl. simpl. by case_match.
Qed.

(** C5: on two rows with hashes of one length and histories of one length,
  [a] with the history [x, ia...] and [b] with the history [y, ib...],
  [operator^] returns a row whose hash is the byte-wise exclusive or of
  the two hashes and whose history is the two histories one after the
  other, the one with the smaller first index first: [x, ia..., y, ib...]
  when [x < y], and [y, ib..., x, ia...] when [x >= y]. *)
Theorem BasicStepRow_xor_canonical (a b : BasicStepRow) (x y : Z) (ia ib : list Z) :
length (hash a) = length (hash b) ->
length (indices a) = length (indices b) ->
indices a = x :: ia ->
indices b = y :: ib ->
exists c,
  BasicStepRow_xor a b = Ok c /\
  hash c = xor_bytes (hash a) (hash b) /\
  length (hash c) = length (hash a) /\
  (forall i u v, hash a !! i = Some u -> hash b !! i = Some v ->
                 hash c !! i = Some (Z.lxor u v)) /\
  (x < y -> indices c = x :: ia ++ y :: ib) /\
  (x >= y -> indices c = y :: ib ++ x :: ia).
Proof.
intros Hh Hi Ha Hb. rewrite (BasicStepRow_xor_ok a b Hh Hi).
rewrite Ha, Hb. simpl.
destruct (Z.ltb_spec x y) as [Hlt|Hge];
  eexists; (split; [reflexivity|]); simpl;
  rewrite ?(xor_bytes_comm (hash b) (hash a));
  (split; [done|]); (split; [by apply length_xor_bytes|]);
  (split; [intros; by apply xor_bytes_lookup|]); split; intros; try done; lia.
Qed.

Lemma BasicStepRow_xor_canonical_witness :
(exists c,
  BasicStepRow_xor {| hash := [1; 2]; indices := [5; 9] |}
                   {| hash := [3; 6]; indices := [7; 4] |} = Ok c /\
  hash c !! 0%nat = Some 2 /\ hash c !! 1%nat = Some 4 /\
  indices c = [5; 9; 7; 4]) /\
(exists c,
  BasicStepRow_xor {| hash := [1; 2]; indices := [7; 4] |}
                   {| hash := [3; 6]; indices := [5; 9] |} = Ok c /\
  indices c = [5; 9; 7; 4]) /\
(exists c,
  BasicStepRow_xor {| hash := [1; 2]; indices := [5; 9] |}
                   {| hash := [3; 6]; indices := [5; 4] |} = Ok c /\
  indices c = [5; 4; 5; 9]).
Proof.
split; [|split].
- destruct (BasicStepRow_xor_canonical
              {| hash := [1; 2]; indices := [5; 9] |}
              {| hash := [3; 6]; indices := [7; 4] |} 5 7 [9] [4]
              eq_refl eq_refl eq_refl eq_refl)
    as (c & Hc & _ & _ & Hx & Hlt & _).
  exists c. split; [exact Hc|].
  split; [exact (Hx 0%nat 1 3 eq_refl eq_refl)|].
  split; [exact (Hx 1%nat 2 6 eq_refl eq_refl)|].
  apply Hlt. lia.
- destruct (BasicStepRow_xor_canonical
              {| hash := [1; 2]; indices := [7; 4] |}
              {| hash := [3; 6]; indices := [5; 9] |} 7 5 [4] [9]
              eq_refl eq_refl eq_refl eq_refl)
    as (c & Hc & _ & _ & _ & _ & Hge).
  exists c. split; [exact Hc|]. apply Hge. lia.
- destruct (BasicStepRow_xor_canonical
              {| hash := [1; 2]; indices := [5; 9] |}
              {| hash := [3; 6]; indices := [5; 4] |} 5 5 [9] [4]
              eq_refl eq_refl eq_refl eq_refl)
    as (c & Hc & _ & _ & _ & _ & Hge).
  exists c. split; [exact Hc|]. apply Hge. lia.
Defined.

(** C6: [operator^=] of either row class throws exactly when the hash
  lengths differ or the history lengths differ, and when it throws the
  object it was called on is as it was before the call. *)
Theorem xor_assign_raises_iff_length_mismatch :
(forall a this : BasicStepRow,
   (is_thrown (BasicStepRow_xor_assign a this).1 <->
      length (hash a) <> length (hash this) \/
      length (indices a) <> length (indices this)) /\
   (forall f, (BasicStepRow_xor_assign a this).1 = Fail f ->
      is_thrown (BasicStepRow_xor_assign a this).1 /\
      (BasicStepRow_xor_assign a this).2 = this)) /\
(forall a this : TruncatedStepRow,
   (is_thrown (TruncatedStepRow_xor_assign a this).1 <->
      length (thash a) <> length (thash this) \/
      length (tindices a) <> length (tindices this)) /\
   (forall f, (TruncatedStepRow_xor_assign a this).1 = Fail f ->
      is_thrown (TruncatedStepRow_xor_assign a this).1 /\
      (TruncatedStepRow_xor_assign a this).2 = this)).
Proof.
split; intros a this.
- unfold BasicStepRow_xor_assign, is_thrown.
  destruct (Nat.eqb_spec (length (hash a)) (length (hash this))) as [Hh|Hh]; simpl.
  + destruct (Nat.eqb_spec (length (indices a)) (length (indices this))) as [Hi|Hi]; simpl.
    * split; [|intros f Hf; discriminate Hf].
      split; [intros [?|[w ?]]; discriminate|intros [?|?]; done].
    * split; [split; eauto|]. intros f _. eauto.
  + split; [split; eauto|]. intros f _. eauto.
- unfold TruncatedStepRow_xor_assign, is_thrown.
  destruct (Nat.eqb_spec (length (thash a)) (length (thash this))) as [Hh|Hh]; simpl.
  + destruct (Nat.eqb_spec (length (tindices a)) (length (tindices this))) as [Hi|Hi]; simpl.
    * split; [|intros f Hf; discriminate Hf].
      split; [intros [?|[w ?]]; discriminate|intros [?|?]; done].
    * split; [split; eauto|]. intros f _. eauto.
  + split; [split; eauto|]. intros f _. eauto.
Qed.

(** ** Properties that hold for every digest and every conforming sort *)

(** The digest has the length that was asked for. *)
Hypothesis digest_length : forall s i len, length (digest s i len) = len.

(** [std::sort] permutes its range, and leaves integers in ascending
    order. *)
Hypothesis std_sort_perm : forall A lt l, std_sort A lt l ≡ₚ l.
Hypothesis std_sort_sorted : forall l, Sorted Z.le (std_sort Z Z.ltb l).

(** *** DistinctIndices decides disjointness *)

Lemma skip_less_split (y : Z) (a : list Z) :
  exists pre, a = pre ++ skip_less y a /\ Forall (fun x => x < y) pre /\
              match skip_less y a with [] => True | x :: _ => y <= x end.
Proof.
  induction a as [|x a (pre & Heq & Hpre & Hhd)]; simpl.
  - exists []. done.
  - destruct (Z.ltb_spec x y) as [Hlt|Hge].
    + exists (x :: pre). split; [simpl; congruence|]. split; [by constructor|done].
    + exists []. done.
Qed.

Lemma scan_distinct_spec (a b : list Z) :
  StronglySorted Z.le a -> StronglySorted Z.le b ->
  scan_distinct a b = true <-> (forall x, x ∈ a -> x ∈ b -> False).
Proof.
  intros Ha Hb. revert a Ha.
  induction Hb as [|y b Hb IH Hyb]; intros a Ha; simpl.
  { split; [|done]. intros _ x _ Hx. by apply elem_of_nil in Hx. }
  destruct (skip_less_split y a) as (pre & Heq & Hpre & Hhd).
  destruct (skip_less y a) as [|x a'] eqn:Hs.
  - split; [|done]. intros _ z Hza Hzb.
    rewrite Heq, app_nil_r in Hza.
    assert (z < y) by (by eapply (proj1 (Forall_forall _ _) Hpre)).
    apply elem_of_cons in Hzb as [->|Hzb]; [lia|].
    assert (y <= z) by (by eapply (proj1 (Forall_forall _ _) Hyb)). lia.
  - assert (Hsuf : StronglySorted Z.le (x :: a')).
    { rewrite Heq in Ha. by apply StronglySorted_app in Ha as (_ & _ & ?). }
    destruct (Z.eqb_spec x y) as [->|Hne].
    + split; [intros ?; discriminate|]. intros Hd. exfalso. apply (Hd y).
      * rewrite Heq. apply elem_of_app. right. by left.
      * by left.
    + rewrite (IH _ Hsuf). apply StronglySorted_cons in Hsuf as [Hxa _].
      assert (Hge : forall z, z ∈ x :: a' -> y < z).
      { intros z [->|Hz]%elem_of_cons; [lia|].
        assert (x <= z) by (by eapply (proj1 (Forall_forall _ _) Hxa)). lia. }
      split; intros Hd z Hza Hzb.
      * rewrite Heq in Hza. apply elem_of_app in Hza as [Hza|Hza].
        -- assert (z < y) by (by eapply (proj1 (Forall_forall _ _) Hpre)).
           apply elem_of_cons in Hzb as [->|Hzb]; [lia|].
           assert (y <= z) by (by eapply (proj1 (Forall_forall _ _) Hyb)). lia.
        -- apply elem_of_cons in Hzb as [->|Hzb]; [apply Hge in Hza; lia|].
           by apply (Hd z).
      * apply (Hd z); [rewrite Heq; apply elem_of_app; by right|].
        apply elem_of_cons. by right.
Qed.

Lemma std_sort_strongly_sorted (l : list Z) : StronglySorted Z.le (std_sort Z Z.ltb l).
Proof. apply Sorted_StronglySorted; [intros x y z; lia | apply std_sort_sorted]. Qed.

Lemma DistinctIndices_spec (a b : list Z) :
  DistinctIndices a b = true <-> (forall x, x ∈ a -> x ∈ b -> False).
Proof.
  unfold DistinctIndices.
  rewrite scan_distinct_spec by apply std_sort_strongly_sorted.
  split; intros Hd x Hxa Hxb; apply (Hd x).
  - by rewrite std_sort_perm.
  - by rewrite std_sort_perm.
  - by rewrite <- (std_sort_perm _ Z.ltb a).
  - by rewrite <- (std_sort_perm _ Z.ltb b).
Qed.

(** *** The verifier *)

Lemma list_pair_ind {A} (P : list A -> Prop) :
  P [] -> (forall a, P [a]) -> (forall a b l, P l -> P (a :: b :: l)) ->
  forall l, P l.
Proof.
  intros Hnil Hone Hcons l.
  assert (H2 : P l /\ forall a, P (a :: l)); [|by destruct H2].
  induction l as [|b l [IH1 IH2]]; split; auto.
Qed.

Lemma uniform_xor (L c : nat) (a b : BasicStepRow) :
  length (hash a) = L /\ length (indices a) = c ->
  length (hash b) = L /\ length (indices b) = c ->
  exists r, BasicStepRow_xor a b = Ok r /\
            length (hash r) = L /\ length (indices r) = (c + c)%nat.
Proof.
  intros [Ha1 Ha2] [Hb1 Hb2].
  rewrite BasicStepRow_xor_ok by congruence.
  eexists; split; [done|]. case_match; simpl;
    rewrite length_xor_bytes, length_app by congruence; lia.
Qed.

Lemma verify_level_length (Nb : nat) (X Xc : list BasicStepRow) :
  verify_level Nb X = Ok (Some Xc) -> length X = (2 * length Xc)%nat.
Proof.
  revert Xc. induction X as [|a|a b X IH] using list_pair_ind; intros Xc; simpl.
  - by intros [= <-].
  - done.
  - repeat (case_match; try done).
    destruct (BasicStepRow_xor a b) as [c|]; simpl; [|done].
    destruct (verify_level Nb X) as [[rest|]|]; simpl; try done.
    intros [= <-]. simpl. rewrite (IH rest) by done. lia.
Qed.

Lemma verify_level_uniform (Nb L c : nat) (X Xc : list BasicStepRow) :
  uniform L c X -> verify_level Nb X = Ok (Some Xc) ->
  uniform (L - Nb) (c + c) Xc.
Proof.
  revert Xc. induction X as [|a|a b X IH] using list_pair_ind; intros Xc HX; simpl.
  - intros [= <-]. constructor.
  - done.
  - apply Forall_cons in HX as [Ha HX]. apply Forall_cons in HX as [Hb HX].
    repeat (case_match; try done).
    destruct (uniform_xor L c a b Ha Hb) as (r & -> & Hr1 & Hr2). simpl.
    destruct (verify_level Nb X) as [[rest|]|]; simpl; try done.
    intros [= <-]. constructor; [|by apply IH].
    simpl. unfold trim_bytes. rewrite length_drop. lia.
Qed.

Lemma verify_level_total (Nb L c : nat) (X : list BasicStepRow) :
  uniform L c X -> Nat.Even (length X) -> exists r, verify_level Nb X = Ok r.
Proof.
  induction X as [|a|a b X IH] using list_pair_ind; intros HX Hev; simpl.
  - eauto.
  - destruct Hev as [m Hm]. simpl in Hm. lia.
  - apply Forall_cons in HX as [Ha HX]. apply Forall_cons in HX as [Hb HX].
    repeat (case_match; eauto).
    destruct (uniform_xor L c a b Ha Hb) as (r & -> & _). simpl.
    destruct IH as [rest ->]; [done| |simpl; eauto].
    destruct Hev as [m Hm]. exists (m - 1)%nat. simpl in Hm. lia.
Qed.

Lemma DistinctIndices_same_first (a b : list Z) :
  a <> [] -> b <> [] -> first_index a = first_index b -> DistinctIndices a b = false.
Proof.
  intros Ha Hb Hf. destruct a as [|x a], b as [|y b]; try done. simpl in Hf. subst y.
  destruct (DistinctIndices (x :: a) (x :: b)) eqn:Hd; [|done].
  exfalso. apply (proj1 (DistinctIndices_spec _ _) Hd x); by left.
Qed.

Lemma verify_level_misordered (Nb L c : nat) (X : list BasicStepRow)
    (i : nat) (a b : BasicStepRow) :
  uniform L c X -> (0 < c)%nat -> Nat.Even (length X) ->
  X !! (2 * i)%nat = Some a -> X !! (2 * i + 1)%nat = Some b ->
  ~ first_index (indices a) < first_index (indices b) ->
  verify_level Nb X = Ok None.
Proof.
  intros HX Hc. revert i.
  induction X as [|a0|a0 b0 X IH] using list_pair_ind; intros i Hev Hia Hib Hord.
  - done.
  - destruct Hev as [m Hm]. simpl in Hm. lia.
  - apply Forall_cons in HX as [Ha HX]. apply Forall_cons in HX as [Hb HX].
    simpl. destruct (negb (HasCollision (hash a0) (hash b0) Nb)); [done|].
    destruct (Z.ltb_spec (first_index (indices b0)) (first_index (indices a0)))
      as [Hlt|Hge]; [done|].
    destruct i as [|i].
    + simpl in Hia, Hib. injection Hia as <-. injection Hib as <-.
      rewrite DistinctIndices_same_first; [done| | |lia].
      * intros E. rewrite E in Ha. simpl in Ha. lia.
      * intros E. rewrite E in Hb. simpl in Hb. lia.
    + destruct (DistinctIndices (indices a0) (indices b0)); [|done]. simpl.
      destruct (uniform_xor L c a0 b0 Ha Hb) as (r & -> & _). simpl.
      rewrite (IH HX i); [done| | | |done].
      * destruct Hev as [m Hm]. exists (m - 1)%nat. simpl in Hm. lia.
      * replace (2 * S i)%nat with (S (S (2 * i))) in Hia by lia. done.
      * replace (2 * S i + 1)%nat with (S (S (2 * i + 1))) in Hib by lia. done.
Qed.

Lemma verify_levels_reached (Nb L c t : nat) (X Xt : list BasicStepRow) :
  uniform L c X -> verify_levels t Nb X = Ok (Some Xt) ->
  length X = (2 ^ t * length Xt)%nat /\
  uniform (L - t * Nb) (2 ^ t * c) Xt.
Proof.
  revert L c X. induction t as [|t IH]; intros L c X HX; simpl.
  - intros [= <-]. split; [lia|]. by rewrite Nat.sub_0_r, Nat.add_0_r.
  - destruct (verify_level Nb X) as [[Xc|]|] eqn:Hl; simpl; try done.
    intros Ht. pose proof (verify_level_length _ _ _ Hl) as Hlen.
    pose proof (verify_level_uniform _ _ _ _ _ HX Hl) as HXc.
    destruct (IH _ _ _ HXc Ht) as [Hlen' Hu]. split; [lia|].
    replace (L - (Nb + t * Nb))%nat with (L - Nb - t * Nb)%nat by lia.
    replace ((2 ^ t + (2 ^ t + 0)) * c)%nat with (2 ^ t * (c + c))%nat by lia.
    done.
Qed.

Lemma verify_levels_length (Nb t : nat) (X Xt : list BasicStepRow) :
  verify_levels t Nb X = Ok (Some Xt) -> length X = (2 ^ t * length Xt)%nat.
Proof.
  revert X. induction t as [|t IH]; intros X; simpl.
  - intros [= <-]. lia.
  - destruct (verify_level Nb X) as [[Xc|]|] eqn:Hl; simpl; try done.
    intros Ht. apply verify_level_length in Hl. apply IH in Ht. lia.
Qed.

Lemma verify_loop_reached (Nb t fuel : nat) (X Xt : list BasicStepRow) :
  verify_levels t Nb X = Ok (Some Xt) -> (1 < length Xt)%nat ->
  verify_loop (t + fuel) Nb X = verify_loop fuel Nb Xt.
Proof.
  revert X. induction t as [|t IH]; intros X; simpl.
  - by intros [= <-].
  - destruct (verify_level Nb X) as [[Xc|]|] eqn:Hl; simpl; try done.
    intros Ht Hlen. rewrite bool_decide_true.
    + simpl. by apply IH.
    + apply verify_level_length in Hl. apply verify_levels_length in Ht.
      assert (0 < 2 ^ t)%nat by (apply Nat.neq_0_lt_0, Nat.pow_nonzero; lia). nia.
Qed.

(** The verifier returns a verdict on every candidate: its loop ends
    within [k] passes and none of its reads or merges fails. *)
Lemma verify_loop_total (Nb e fuel L c : nat) (X : list BasicStepRow) :
  uniform L c X -> length X = (2 ^ e)%nat -> (e <= fuel)%nat ->
  exists b, verify_loop fuel Nb X = Ok b.
Proof.
  revert fuel L c X. induction e as [|e IH]; intros fuel L c X HX Hlen Hfuel.
  - destruct X as [|x [|y X]]; simpl in Hlen; try lia.
    destruct fuel; simpl; eauto.
  - destruct fuel as [|fuel]; [lia|]. simpl.
    assert (Hpos : (0 < 2 ^ e)%nat) by (apply Nat.neq_0_lt_0, Nat.pow_nonzero; lia).
    rewrite Nat.pow_succ_r' in Hlen.
    rewrite bool_decide_true by lia.
    destruct (verify_level_total Nb L c X HX) as [[Xc|] Hl]; rewrite ?Hl; simpl.
    + exists (2 ^ e)%nat. lia.
    + apply (IH fuel (L - Nb)%nat (c + c)%nat); [|apply verify_level_length in Hl; lia|lia].
      by eapply verify_level_uniform.
    + eauto.
Qed.

Lemma IsValidSolution_total (n k : Z) (s : HashState) (soln : list Z) :
  0 <= k < 32 -> exists b, IsValidSolution n k s soln = Ok b.
Proof.
  intros Hk. unfold IsValidSolution.
  destruct (Z.leb_spec 32 k) as [?|_]; [lia|].
  destruct (Z.eqb_spec (Z.of_nat (length soln)) (2 ^ k)) as [Hsize|Hsize]; simpl; [|eauto].
  apply (verify_loop_total _ (Z.to_nat k) _ (Z.to_nat (n / 8)) 1).
  - apply Forall_map, Forall_forall. intros x _. simpl.
    unfold StepRow_new. by rewrite digest_length.
  - rewrite length_map. apply Nat2Z.inj. rewrite Hsize, Nat2Z.inj_pow.
    f_equal. lia.
  - assert (Z.to_nat k < 2 ^ Z.to_nat k)%nat by (apply Nat.pow_gt_lin_r; lia).
    assert (Z.of_nat (2 ^ Z.to_nat k) = 2 ^ k).
    { rewrite Nat2Z.inj_pow. f_equal. lia. }
    lia.
Qed.

(** C7: for a candidate of size 2^k, if the table the verifier has after
    some number of passes contains a pair [(X[2i], X[2i+1])] whose left
    row does not have a strictly smaller first index than its right row,
    [IsValidSolution] returns false.  ([k < 32]: [soln_size] is a
    [uint32_t].) *)
Theorem IsValidSolution_rejects_misordered_pair
    (n k : Z) (s : HashState) (soln : list Z)
    (t : nat) (Xt : list BasicStepRow) (i : nat) (a b : BasicStepRow) :
  0 <= k < 32 ->
  Z.of_nat (length soln) = 2 ^ k ->
  verify_levels t (CollisionByteLength n k) (map (BasicStepRow_new n s) soln)
    = Ok (Some Xt) ->
  Xt !! (2 * i)%nat = Some a ->
  Xt !! (2 * i + 1)%nat = Some b ->
  ~ first_index (indices a) < first_index (indices b) ->
  IsValidSolution n k s soln = Ok false.
Proof.
  intros Hk Hsize Hlev Ha Hb Hord. unfold IsValidSolution.
  destruct (Z.leb_spec 32 k) as [?|_]; [lia|].
  rewrite Hsize, Z.eqb_refl. simpl.
  set (X := map (BasicStepRow_new n s) soln) in *.
  set (Nb := CollisionByteLength n k) in *.
  assert (HX : uniform (Z.to_nat (n / 8)) 1 X).
  { unfold uniform, X. apply Forall_map, Forall_forall. intros x _. simpl.
    unfold StepRow_new. by rewrite digest_length. }
  destruct (verify_levels_reached _ _ _ _ _ _ HX Hlev) as [Hlen Hu].
  assert (Hi : (2 * i + 1 < length Xt)%nat) by (by eapply lookup_lt_Some).
  assert (Hpos : (0 < 2 ^ t)%nat) by (apply Nat.neq_0_lt_0, Nat.pow_nonzero; lia).
  assert (Heven : Nat.Even (length Xt)).
  { assert (HpowZ : Z.of_nat (length Xt) * 2 ^ Z.of_nat t = 2 ^ k).
    { rewrite <- Hsize. unfold X in Hlen. rewrite length_map in Hlen.
      rewrite Hlen, Nat2Z.inj_mul, Nat2Z.inj_pow. simpl. lia. }
    destruct (Nat.Even_or_Odd (length Xt)) as [|[m Hm]]; [done|exfalso].
    assert (Hdiv : (Z.of_nat (length Xt) | 2 ^ k)).
    { exists (2 ^ Z.of_nat t). lia. }
    assert (Hle : Z.of_nat t <= k).
    { destruct (Z.le_gt_cases (Z.of_nat t) k) as [|Hgt]; [done|exfalso].
      assert (2 ^ k < 2 ^ Z.of_nat t) by (apply Z.pow_lt_mono_r; lia).
      assert (1 <= Z.of_nat (length Xt)) by lia. nia. }
    assert (Hkt : 2 ^ k = 2 ^ (k - Z.of_nat t) * 2 ^ Z.of_nat t).
    { rewrite <- Z.pow_add_r by lia. f_equal. lia. }
    assert (HX2 : Z.of_nat (length Xt) = 2 ^ (k - Z.of_nat t)).
    { apply (Z.mul_cancel_r _ _ (2 ^ Z.of_nat t)); [|lia].
      apply Z.pow_nonzero; lia. }
    destruct (Z.eq_dec (k - Z.of_nat t) 0) as [E|E].
    - rewrite E in HX2. simpl in HX2. lia.
    - replace (k - Z.of_nat t) with (Z.succ (k - Z.of_nat t - 1)) in HX2 by lia.
      rewrite Z.pow_succ_r in HX2 by lia. lia. }
  assert (Hfuel : length soln = (t + (length soln - t))%nat).
  { unfold X in Hlen. rewrite length_map in Hlen.
    assert (t < 2 ^ t)%nat by (apply Nat.pow_gt_lin_r; lia). nia. }
  rewrite Hfuel, (verify_loop_reached _ _ _ _ _ Hlev) by lia.
  assert (Hrem : exists f, (length soln - t)%nat = S f).
  { exists (length soln - t - 1)%nat. unfold X in Hlen. rewrite length_map in Hlen.
    assert (t < 2 ^ t)%nat by (apply Nat.pow_gt_lin_r; lia). nia. }
  destruct Hrem as [f ->]. simpl. rewrite bool_decide_true by lia.
  rewrite (verify_level_misordered Nb _ _ Xt i a b Hu); try done.
  lia.
Qed.

(** *** The scan of a collision round *)

Lemma HasCollision_true (ha hb : list Z) (l : nat) :
  HasCollision ha hb l = true <-> take l ha = take l hb.
Proof. unfold HasCollision. apply bool_decide_eq_true. Qed.

Lemma HasCollision_sym (ha hb : list Z) (l : nat) :
  HasCollision ha hb l = HasCollision hb ha l.
Proof. unfold HasCollision. apply bool_decide_ext. split; congruence. Qed.

Section RoundProperties.
Context {R : Type} `{StepRowOps R}.
Variable Nb : nat.
Variable check_distinct : bool.

Lemma run_length_le (x : R) (rest : list R) :
  (run_length Nb x rest <= length rest)%nat.
Proof. induction rest as [|y rest IH]; simpl; [lia|]. case_match; simpl; lia. Qed.

Lemma run_length_collide (x : R) (rest : list R) :
  Forall (fun y => take Nb (row_hash y) = take Nb (row_hash x))
         (take (run_length Nb x rest) rest).
Proof.
  induction rest as [|y rest IH]; simpl; [constructor|].
  destruct (HasCollision (row_hash x) (row_hash y) Nb) eqn:Hc; simpl; [|constructor].
  constructor; [|done]. apply HasCollision_true in Hc. done.
Qed.

(** What the store loop does to the table and to its cursor. *)
Lemma store_inplace_frame (bound : nat) (X : list R) (pf : nat) (Xc : list R)
    (X' : list R) (pf' : nat) (Xc' : list R) :
  store_inplace bound X pf Xc = (X', pf', Xc') ->
  length X' = length X /\
  (pf <= pf')%nat /\
  ((pf <= bound)%nat -> (pf' <= bound)%nat) /\
  (Xc' <> [] -> (bound <= pf')%nat) /\
  (forall p, (p < pf \/ pf' <= p)%nat -> X' !! p = X !! p).
Proof.
  revert X pf. induction Xc as [|c Xc IH]; intros X pf; simpl.
  - intros [= <- <- <-]. repeat split; try done; lia.
  - destruct (Nat.ltb_spec pf bound) as [Hlt|Hge].
    + intros Hs. destruct (IH _ _ Hs) as (Hl & Hle & Hb & Hne & Hfr).
      rewrite length_insert in Hl. repeat split; try done; try lia.
      intros p Hp. rewrite Hfr by lia. apply list_lookup_insert_ne. lia.
    + intros [= <- <- <-]. repeat split; try done; lia.
Qed.

Lemma store_inplace_Forall (Q : R -> Prop) (bound : nat) (X : list R) (pf : nat)
    (Xc : list R) (X' : list R) (pf' : nat) (Xc' : list R) :
  store_inplace bound X pf Xc = (X', pf', Xc') ->
  (bound <= length X)%nat ->
  Forall Q Xc -> Forall Q (take pf X) ->
  Forall Q (take pf' X') /\ Forall Q Xc'.
Proof.
  revert X pf. induction Xc as [|c Xc IH]; intros X pf; simpl.
  - intros [= <- <- <-]. done.
  - destruct (Nat.ltb_spec pf bound) as [Hlt|Hge].
    + intros Hs Hb HXc HX. apply Forall_cons in HXc as [Hc HXc].
      apply (IH _ _ Hs); [by rewrite length_insert|done|].
      rewrite (take_S_r _ _ c) by (apply list_lookup_insert_eq; lia).
      rewrite take_insert_ge by lia. apply Forall_app. split; [done|].
      by constructor.
    + intros [= <- <- <-]. done.
Qed.

Lemma scan_step_frame (Xs : list R) (st st' : scan_state) :
  scan_inv Xs st ->
  (scan_i st < length (scan_X st) - 1)%nat ->
  scan_step Nb check_distinct st = Ok st' ->
  scan_inv Xs st' /\
  (scan_i st < scan_i st')%nat /\
  (scan_posFree st <= scan_posFree st')%nat /\
  (forall p, scan_X st' !! p <> scan_X st !! p ->
             (scan_posFree st <= p < scan_posFree st')%nat /\ (p < scan_i st')%nat).
Proof.
  intros (Hlen & Hpos & Hdrop) Hguard. unfold scan_step.
  destruct (scan_X st !! scan_i st) as [x|] eqn:Hx; [|done].
  destruct (merge_run _ _ _ _) as [Xc'|]; simpl; [|done].
  destruct (store_inplace _ _ _ _) as [[X' pf'] Xc''] eqn:Hs.
  intros [= <-]. simpl.
  destruct (store_inplace_frame _ _ _ _ _ _ _ Hs) as (Hl & Hle & Hb & _ & Hfr).
  pose proof (run_length_le x (drop (S (scan_i st)) (scan_X st))) as Hrl.
  rewrite length_drop in Hrl.
  split; [|split; [lia|split; [lia|]]].
  - unfold scan_inv. simpl. split; [congruence|]. split; [lia|].
    rewrite <- (drop_drop Xs), <- Hdrop, drop_drop.
    apply list_eq. intros p. rewrite !lookup_drop. apply Hfr. lia.
  - intros p Hp.
    destruct (decide (p < scan_posFree st \/ pf' <= p)%nat) as [Hout|Hin].
    + by rewrite Hfr in Hp.
    + lia.
Qed.

Lemma scan_reach_inv (Xs : list R) (st : scan_state) :
  scan_reach Nb check_distinct Xs st -> scan_inv Xs st.
Proof.
  induction 1 as [|st st' _ IH Hguard Hstep].
  - unfold scan_inv, scan_init. simpl. repeat split; lia.
  - by destruct (scan_step_frame Xs st st' IH Hguard Hstep).
Qed.

(** The loop of the model runs through reachable states only. *)
Lemma scan_loop_reach (Xs : list R) (fuel : nat) (st st' : scan_state) :
  scan_reach Nb check_distinct Xs st ->
  scan_loop Nb check_distinct fuel st = Ok st' ->
  scan_reach Nb check_distinct Xs st' /\
  ~ (scan_i st' < length (scan_X st') - 1)%nat.
Proof.
  revert st. induction fuel as [|fuel IH]; intros st Hr; simpl.
  - destruct (Nat.ltb_spec (scan_i st) (length (scan_X st) - 1)); [done|].
    intros [= <-]. split; [done|lia].
  - destruct (Nat.ltb_spec (scan_i st) (length (scan_X st) - 1)) as [Hg|Hg].
    + destruct (scan_step Nb check_distinct st) as [st1|] eqn:Hs; simpl; [|done].
      apply IH. by eapply scan_reach_step.
    + intros [= <-]. split; [done|lia].
Qed.

(** C10: in every collision round, of [BasicSolve] and of phase A of
    [OptimisedSolve] alike, at each state the scan reaches [posFree] is
    not ahead of [i], and the table from [i] on holds the rows of the
    sorted table; an iteration changes only slots from [posFree] on that
    lie below the frontier [i+j] it has just scanned up to, so the rows
    from [i+j] on, which the scan has still to read, are never
    overwritten; and the writes of step 2e, made when the scan is over,
    stay inside the table. *)
Theorem compaction_never_overwrites_unscanned_rows
    (Xs : list R) (st : scan_state) :
  scan_reach Nb check_distinct Xs st ->
  (scan_posFree st <= scan_i st <= length Xs)%nat /\
  length (scan_X st) = length Xs /\
  drop (scan_i st) (scan_X st) = drop (scan_i st) Xs /\
  (forall st',
     (scan_i st < length (scan_X st) - 1)%nat ->
     scan_step Nb check_distinct st = Ok st' ->
     (scan_posFree st' <= scan_i st')%nat /\
     drop (scan_i st') (scan_X st') = drop (scan_i st') Xs /\
     forall p, scan_X st' !! p <> scan_X st !! p ->
               (scan_posFree st <= p < scan_posFree st')%nat /\
               (p < scan_i st')%nat) /\
  (forall X' posFree' Xc',
     ~ (scan_i st < length (scan_X st) - 1)%nat ->
     store_inplace (length (scan_X st)) (scan_X st) (scan_posFree st) (scan_Xc st)
       = (X', posFree', Xc') ->
     (length Xs - 1 <= scan_i st)%nat /\
     forall p, X' !! p <> scan_X st !! p ->
               (scan_posFree st <= p < length Xs)%nat).
Proof.
  intros Hr. pose proof (scan_reach_inv Xs st Hr) as (Hlen & Hpos & Hdrop).
  split; [lia|]. split; [done|]. split; [done|]. split.
  - intros st' Hguard Hstep.
    destruct (scan_step_frame Xs st st' (conj Hlen (conj Hpos Hdrop)) Hguard Hstep)
      as ((_ & Hpos' & Hdrop') & _ & _ & Hwr).
    split; [lia|]. split; [done|]. exact Hwr.
  - intros X' pf' Xc' Hguard Hs. split; [lia|]. intros p Hp.
    destruct (store_inplace_frame _ _ _ _ _ _ _ Hs) as (Hl & Hle & Hb & _ & Hfr).
    destruct (decide (p < scan_posFree st \/ pf' <= p)%nat) as [Hout|Hin].
    + by rewrite Hfr in Hp.
    + lia.
Qed.

(** **** The rows a round leaves in the table *)

Section RoundRows.
(** [P] holds of the rows before the round; two such rows that
    collide and pass the test of step 2c merge into a row of [Q]. *)
Variables P Q : R -> Prop.
Hypothesis merge_PQ : forall a b,
  P a -> P b ->
  take Nb (row_hash a) = take Nb (row_hash b) ->
  (check_distinct = true -> DistinctIndices (row_indices a) (row_indices b) = true) ->
  exists c, row_xor a b = Ok c /\ Q (row_trim Nb c).

Lemma merge_with_rows (h : list Z) (a : R) (bs Xc : list R) :
  P a -> take Nb (row_hash a) = h ->
  Forall (fun b => P b /\ take Nb (row_hash b) = h) bs ->
  Forall Q Xc ->
  exists Xc', merge_with Nb check_distinct a bs Xc = Ok Xc' /\ Forall Q Xc'.
Proof.
  intros Ha Hh Hbs. revert Xc.
  induction Hbs as [|b bs [Hb Hbh] _ IH]; intros Xc HXc; simpl; [eauto|].
  unfold merge_pair.
  destruct (negb check_distinct
            || DistinctIndices (row_indices a) (row_indices b)) eqn:Hc; simpl.
  - destruct (merge_PQ a b Ha Hb) as (c & -> & Hq); [congruence| |].
    + intros ->. simpl in Hc. done.
    + simpl. apply IH. by constructor.
  - by apply IH.
Qed.

Lemma merge_run_rows (h : list Z) (run Xc : list R) :
  Forall (fun b => P b /\ take Nb (row_hash b) = h) run ->
  Forall Q Xc ->
  exists Xc', merge_run Nb check_distinct run Xc = Ok Xc' /\ Forall Q Xc'.
Proof.
  intros Hrun. revert Xc.
  induction Hrun as [|a run [Ha Hah] Hrun IH]; intros Xc HXc; simpl; [eauto|].
  destruct (merge_with_rows h a run Xc Ha Hah Hrun HXc) as (Xc1 & -> & HXc1).
  simpl. by apply IH.
Qed.

Lemma scan_step_rows (Xs : list R) (st : scan_state) :
  Forall P Xs ->
  scan_inv Xs st ->
  (scan_i st < length (scan_X st) - 1)%nat ->
  Forall Q (take (scan_posFree st) (scan_X st)) ->
  Forall Q (scan_Xc st) ->
  exists st', scan_step Nb check_distinct st = Ok st' /\
              Forall Q (take (scan_posFree st') (scan_X st')) /\
              Forall Q (scan_Xc st').
Proof.
  intros HP (Hlen & Hpos & Hdrop) Hguard HQX HQc. unfold scan_step.
  destruct (lookup_lt_is_Some_2 (scan_X st) (scan_i st)) as [x Hx]; [lia|].
  rewrite Hx.
  set (j := S (run_length Nb x (drop (S (scan_i st)) (scan_X st)))).
  assert (Hrun : Forall (fun b => P b /\ take Nb (row_hash b) = take Nb (row_hash x))
                        (take j (drop (scan_i st) (scan_X st)))).
  { rewrite (drop_S _ x) by done. unfold j. simpl. constructor.
    - split; [|done]. apply (proj1 (Forall_lookup P Xs) HP (scan_i st)).
      rewrite <- (Nat.add_0_r (scan_i st)), <- lookup_drop, <- Hdrop, lookup_drop.
      by rewrite Nat.add_0_r.
    - apply Forall_and. split; [|apply run_length_collide].
      apply Forall_take.
      replace (drop (S (scan_i st)) (scan_X st))
        with (drop 1 (drop (scan_i st) (scan_X st)))
        by (rewrite drop_drop; f_equal; lia).
      rewrite Hdrop. by apply Forall_drop, Forall_drop. }
  destruct (merge_run_rows _ _ _ Hrun HQc) as (Xc' & -> & HXc'). simpl.
  destruct (store_inplace _ _ _ _) as [[X' pf'] Xc''] eqn:Hs.
  eexists. split; [done|]. simpl.
  apply (store_inplace_Forall Q _ _ _ _ _ _ _ Hs); try done.
  pose proof (run_length_le x (drop (S (scan_i st)) (scan_X st))) as Hrl.
  rewrite length_drop in Hrl. unfold j. lia.
Qed.

Lemma scan_loop_rows (Xs : list R) (fuel : nat) (st : scan_state) :
  Forall P Xs ->
  scan_reach Nb check_distinct Xs st ->
  (length Xs - scan_i st <= fuel)%nat ->
  Forall Q (take (scan_posFree st) (scan_X st)) ->
  Forall Q (scan_Xc st) ->
  exists st', scan_loop Nb check_distinct fuel st = Ok st' /\
              scan_reach Nb check_distinct Xs st' /\
              Forall Q (take (scan_posFree st') (scan_X st')) /\
              Forall Q (scan_Xc st').
Proof.
  intros HP. revert st. induction fuel as [|fuel IH]; intros st Hr Hfuel HQX HQc;
    pose proof (scan_reach_inv Xs st Hr) as Hinv;
    pose proof Hinv as (Hlen & Hpos & Hdrop); simpl.
  - destruct (Nat.ltb_spec (scan_i st) (length (scan_X st) - 1)); [lia|]. eauto.
  - destruct (Nat.ltb_spec (scan_i st) (length (scan_X st) - 1)) as [Hg|Hg]; [|eauto].
    destruct (scan_step_rows Xs st HP Hinv Hg HQX HQc) as (st1 & Hs & HQX1 & HQc1).
    rewrite Hs. simpl.
    destruct (scan_step_frame Xs st st1 Hinv Hg Hs) as (_ & Hi & _).
    apply IH; try done; [by eapply scan_reach_step|lia].
Qed.

(** A round on rows of [P] returns, and returns rows of [Q]. *)
Lemma collision_round_rows (X : list R) :
  Forall P X ->
  exists X', collision_round Nb check_distinct X = Ok X' /\ Forall Q X'.
Proof.
  intros HP. unfold collision_round.
  set (Xs := std_sort R row_lt X).
  assert (HPs : Forall P Xs) by (unfold Xs; by rewrite std_sort_perm).
  destruct (scan_loop_rows Xs (length Xs) (scan_init Xs) HPs)
    as (st & -> & Hr & HQX & HQc); [constructor|simpl; lia|constructor..|].
  simpl. pose proof (scan_reach_inv Xs st Hr) as (Hlen & Hpos & Hdrop).
  destruct (store_inplace _ _ _ _) as [[X' pf'] Xc'] eqn:Hs.
  destruct (store_inplace_frame _ _ _ _ _ _ _ Hs) as (Hl & Hle & Hb & Hne & _).
  destruct (store_inplace_Forall Q _ _ _ _ _ _ _ Hs) as [HQX' HQc']; try done.
  eexists. split; [done|]. destruct Xc' as [|c Xc'].
  - destruct (Nat.ltb_spec pf' (length X')); [done|]. by rewrite take_ge in HQX'.
  - apply Forall_app. split.
    + rewrite take_ge in HQX'; [done|]. rewrite Hl. by apply Hne.
    + by apply Forall_rev.
Qed.

End RoundRows.

End RoundProperties.

(** *** The rows of BasicSolve *)

Lemma DistinctIndices_sym (a b : list Z) : DistinctIndices a b = DistinctIndices b a.
Proof.
  destruct (DistinctIndices a b) eqn:Hab, (DistinctIndices b a) eqn:Hba; try done.
  - rewrite <- Hba. symmetry. apply DistinctIndices_spec.
    intros x Hb Ha. by apply (proj1 (DistinctIndices_spec a b) Hab x).
  - rewrite <- Hab. apply DistinctIndices_spec.
    intros x Ha Hb. by apply (proj1 (DistinctIndices_spec b a) Hba x).
Qed.

Lemma init_size_pow (n k : Z) : init_size n k = 2 ^ (CollisionBitLength n k + 1).
Proof. unfold init_size. apply Z.shiftl_1_l. Qed.

Lemma tree_row_shape (n k : Z) (s : HashState) (r : nat) (x : BasicStepRow) :
  tree_row n k s r x ->
  length (hash x) = (Z.to_nat (n / 8) - r * CollisionByteLength n k)%nat /\
  length (indices x) = (2 ^ r)%nat /\
  NoDup (indices x) /\
  Forall (fun i => 0 <= i < init_size n k) (indices x).
Proof.
  induction 1 as [i Hi|r a b _ (Ha1 & Ha2 & Ha3 & Ha4) _ (Hb1 & Hb2 & Hb3 & Hb4) Hc Ho Hd];
    simpl.
  - unfold StepRow_new. rewrite digest_length.
    split; [lia|]. split; [done|]. split; [apply NoDup_singleton|].
    constructor; [done|constructor].
  - unfold trim_bytes. rewrite length_drop, length_xor_bytes, length_app by congruence.
    split; [lia|]. split; [lia|]. split; [|by apply Forall_app].
    apply NoDup_app. split; [done|]. split; [|done].
    intros i Hia Hib. by apply (proj1 (DistinctIndices_spec _ _) Hd i).
Qed.

Lemma tree_row_nonempty (n k : Z) (s : HashState) (r : nat) (x : BasicStepRow) :
  tree_row n k s r x -> indices x <> [].
Proof.
  intros Hx E. apply tree_row_shape in Hx as (_ & Hl & _). rewrite E in Hl. simpl in Hl.
  assert (0 < 2 ^ r)%nat by (apply Nat.neq_0_lt_0, Nat.pow_nonzero; lia). lia.
Qed.

(** Two rows of one round that collide and have disjoint histories merge
    into a row of the next round, whichever comes first. *)
Lemma tree_row_merge (n k : Z) (s : HashState) (r : nat) (a b : BasicStepRow) :
  tree_row n k s r a -> tree_row n k s r b ->
  take (CollisionByteLength n k) (hash a) = take (CollisionByteLength n k) (hash b) ->
  DistinctIndices (indices a) (indices b) = true ->
  exists a' b',
    tree_row n k s r a' /\ tree_row n k s r b' /\
    first_index (indices a') < first_index (indices b') /\
    DistinctIndices (indices a') (indices b') = true /\
    xor_bytes (hash a') (hash b') = xor_bytes (hash a) (hash b) /\
    BasicStepRow_xor a b =
      Ok {| hash := xor_bytes (hash a') (hash b');
            indices := indices a' ++ indices b' |} /\
    tree_row n k s (S r)
      (BasicStepRow_TrimHash (CollisionByteLength n k)
         {| hash := xor_bytes (hash a') (hash b');
            indices := indices a' ++ indices b' |}).
Proof.
  intros Ha Hb Hc Hd.
  pose proof (tree_row_shape _ _ _ _ _ Ha) as (Ha1 & Ha2 & _).
  pose proof (tree_row_shape _ _ _ _ _ Hb) as (Hb1 & Hb2 & _).
  rewrite BasicStepRow_xor_ok by congruence.
  destruct (Z.ltb_spec (first_index (indices a)) (first_index (indices b))) as [Hlt|Hge].
  - exists a, b. repeat split; try done.
    apply tree_node; try done. by apply HasCollision_true.
  - assert (Hne : first_index (indices a) <> first_index (indices b)).
    { intros E. rewrite DistinctIndices_same_first in Hd; try done;
        by eapply tree_row_nonempty. }
    exists b, a. repeat split; try done; [lia|by rewrite DistinctIndices_sym| |].
    + apply xor_bytes_comm.
    + apply tree_node; try done; [by apply HasCollision_true|lia|].
      by rewrite DistinctIndices_sym.
Qed.

Lemma collision_round_tree (n k : Z) (s : HashState) (r : nat) (X : list BasicStepRow) :
  Forall (tree_row n k s r) X ->
  exists X', collision_round (CollisionByteLength n k) true X = Ok X' /\
             Forall (tree_row n k s (S r)) X'.
Proof.
  apply (collision_round_rows _ _ (tree_row n k s r) (tree_row n k s (S r))).
  intros a b Ha Hb Hc Hd.
  destruct (tree_row_merge n k s r a b Ha Hb Hc (Hd eq_refl))
    as (a' & b' & _ & _ & _ & _ & _ & Hx & Ht).
  eexists. split; [exact Hx|exact Ht].
Qed.

Lemma collision_rounds_tree (n k : Z) (s : HashState) (count r : nat)
    (X : list BasicStepRow) :
  Forall (tree_row n k s r) X ->
  exists X', collision_rounds (CollisionByteLength n k) true count X = Ok X' /\
             Forall (tree_row n k s (r + count)) X'.
Proof.
  revert r X. induction count as [|count IH]; intros r X HX; simpl.
  - exists X. by rewrite Nat.add_0_r.
  - destruct X as [|x X]; [exists []; by split|].
    destruct (collision_round_tree n k s r _ HX) as (X1 & -> & HX1). simpl.
    destruct (IH _ _ HX1) as (X2 & -> & HX2). exists X2. split; [done|].
    by replace (r + S count)%nat with (S r + count)%nat by lia.
Qed.

Lemma fold_lor_zero (h : list Z) (acc : Z) :
  fold_left Z.lor h acc = 0 <-> acc = 0 /\ Forall (fun x => x = 0) h.
Proof.
  revert acc. induction h as [|x h IH]; intros acc; simpl.
  - split; [intros ->; by split|by intros [-> _]].
  - rewrite IH, Z.lor_eq_0_iff, Forall_cons. tauto.
Qed.

Lemma IsZero_Forall (h : list Z) : IsZero h = true <-> Forall (fun x => x = 0) h.
Proof. unfold IsZero. rewrite Z.eqb_eq, fold_lor_zero. tauto. Qed.

Lemma xor_bytes_zero_eq (h1 h2 : list Z) :
  length h1 = length h2 -> Forall (fun x => x = 0) (xor_bytes h1 h2) -> h1 = h2.
Proof.
  unfold xor_bytes. revert h2.
  induction h1 as [|x h1 IH]; intros [|y h2]; simpl; try done.
  intros [= Hl] [Hx Hr]%Forall_cons. apply Z.lxor_eq in Hx. f_equal; auto.
Qed.

Lemma final_pairs_cons (a b : BasicStepRow) (X : list BasicStepRow) :
  final_pairs (a :: b :: X) =
    (res ← BasicStepRow_xor a b;
     rest ← final_pairs (b :: X);
     Ok (if IsZero (hash res) && DistinctIndices (indices a) (indices b)
         then {[ indices res ]} ∪ rest else rest)).
Proof. reflexivity. Qed.

Lemma final_pairs_tree (n k : Z) (s : HashState) (r : nat) (X : list BasicStepRow) :
  Forall (tree_row n k s r) X ->
  exists S, final_pairs X = Ok S /\ forall sol, sol ∈ S -> final_pair n k s r sol.
Proof.
  induction 1 as [|a X Ha HX (S & HS & Hsol)].
  - exists ∅. split; [done|]. intros sol Hin. by apply not_elem_of_empty in Hin.
  - destruct X as [|b X'].
    { exists ∅. split; [done|]. intros sol Hin. by apply not_elem_of_empty in Hin. }
    apply Forall_cons in HX as [Hb _].
    pose proof (tree_row_shape _ _ _ _ _ Ha) as (Ha1 & Ha2 & _).
    pose proof (tree_row_shape _ _ _ _ _ Hb) as (Hb1 & Hb2 & _).
    pose proof (BasicStepRow_xor_ok a b) as Hx.
    rewrite final_pairs_cons, Hx, HS by congruence. simpl.
    eexists. split; [done|]. intros sol.
    destruct (IsZero _) eqn:Hz; simpl; [|by apply Hsol].
    destruct (DistinctIndices (indices a) (indices b)) eqn:Hd; [|by apply Hsol].
    intros [->%elem_of_singleton|Hin]%elem_of_union; [|by apply Hsol].
    assert (Hz' : IsZero (xor_bytes (hash a) (hash b)) = true).
    { destruct (first_index (indices a) <? first_index (indices b)); simpl in Hz;
        [done|by rewrite xor_bytes_comm]. }
    assert (Heq : hash a = hash b).
    { apply xor_bytes_zero_eq; [congruence|by apply IsZero_Forall]. }
    destruct (tree_row_merge n k s r a b Ha Hb) as
      (a' & b' & Ha' & Hb' & Ho & Hd' & Hxor & Hres & _); [by rewrite Heq|done|].
    exists a', b'. repeat (split; [done|]). split; [by rewrite Hxor|].
    rewrite Hx in Hres by congruence. injection Hres as Hres.
    by destruct (first_index (indices a) <? first_index (indices b)); simplify_eq.
Qed.

(** [BasicSolve] returns, and each solution is the history of a
    canonical pair of rows of round [k-1] whose hashes cancel. *)
Lemma BasicSolve_final_pairs (n k : Z) (s : HashState) :
  CollisionBitLength n k + 1 < 32 ->
  exists S, BasicSolve n k s = Ok S /\
            forall sol, sol ∈ S -> final_pair n k s (Z.to_nat (k - 1)) sol.
Proof.
  intros HN. unfold BasicSolve.
  destruct (Z.ltb_spec (CollisionBitLength n k + 1) 32) as [_|?]; [simpl|lia].
  set (X0 := map (BasicStepRow_new n s) (seqZ 0 (init_size n k))).
  assert (HX0 : Forall (tree_row n k s 0) X0).
  { apply Forall_map, Forall_forall. intros i Hi%elem_of_seqZ.
    apply tree_leaf. lia. }
  destruct (collision_rounds_tree n k s (Z.to_nat (k - 1)) 0 X0 HX0) as (X1 & -> & HX1).
  simpl in *. unfold final_round.
  destruct (1 <? length X1)%nat.
  - apply final_pairs_tree. by rewrite std_sort_perm.
  - exists ∅. split; [done|]. intros sol Hin. by apply not_elem_of_empty in Hin.
Qed.

Lemma final_pair_shape (n k : Z) (s : HashState) (r : nat) (sol : list Z) :
  final_pair n k s r sol ->
  length sol = (2 ^ S r)%nat /\ NoDup sol /\
  Forall (fun i => 0 <= i < init_size n k) sol.
Proof.
  intros (a & b & Ha & Hb & _ & Hd & _ & ->).
  apply tree_row_shape in Ha as (_ & Ha2 & Ha3 & Ha4).
  apply tree_row_shape in Hb as (_ & Hb2 & Hb3 & Hb4).
  rewrite length_app. split; [simpl; lia|]. split; [|by apply Forall_app].
  apply NoDup_app. split; [done|]. split; [|done].
  intros i Hia Hib. by apply (proj1 (DistinctIndices_spec _ _) Hd i).
Qed.

(** The shape of the solutions: [BasicSolve] returns a set, and every
    solution in it has 2^max(k,1) indices (2^k of them whenever k >= 1,
    two when k = 0), no index twice, and every index below 2^(N+1),
    [N = n/(k+1)]. *)
Theorem BasicSolve_solution_shape (n k : Z) (s : HashState) :
  CollisionBitLength n k + 1 < 32 ->
  exists S, BasicSolve n k s = Ok S /\
    forall sol, sol ∈ S ->
      Z.of_nat (length sol) = 2 ^ Z.max k 1 /\
      (1 <= k -> Z.of_nat (length sol) = 2 ^ k) /\
      NoDup sol /\
      Forall (fun i => 0 <= i < 2 ^ (CollisionBitLength n k + 1)) sol.
Proof.
  intros HN. destruct (BasicSolve_final_pairs n k s HN) as (S & HS & Hsol).
  exists S. split; [done|]. intros sol Hin.
  destruct (final_pair_shape _ _ _ _ _ (Hsol sol Hin)) as (Hl & Hnd & Hb).
  rewrite <- init_size_pow.
  assert (Hlen : Z.of_nat (length sol) = 2 ^ Z.max k 1).
  { rewrite Hl, Nat2Z.inj_pow. f_equal. lia. }
  split; [done|]. split; [|done].
  intros Hk. rewrite Hlen. f_equal. lia.
Qed.

(** *** The verifier rebuilds the rows of BasicSolve *)

Lemma verify_levels_snoc (Nb t : nat) (X : list BasicStepRow) :
  verify_levels (S t) Nb X =
    (r ← verify_levels t Nb X;
     match r with
     | None => Ok None
     | Some Xt => verify_level Nb Xt
     end).
Proof.
  revert X. induction t as [|t IH]; intros X.
  - simpl. destruct (verify_level Nb X) as [[?|]|]; done.
  - change (verify_levels (S (S t)) Nb X)
      with (r ← verify_level Nb X;
            match r with None => Ok None | Some Xc => verify_levels (S t) Nb Xc end).
    destruct (verify_level Nb X) as [[Xc|]|] eqn:Hl; simpl; rewrite Hl; simpl; try done.
    apply IH.
Qed.

(** The rows of round [r+1] are what one pass of the verifier makes of
    their children, taken in order. *)
Lemma verify_level_children (n k : Z) (s : HashState) (r : nat)
    (xs : list BasicStepRow) :
  Forall (tree_row n k s (S r)) xs ->
  exists ys, Forall (tree_row n k s r) ys /\
             concat (map indices ys) = concat (map indices xs) /\
             verify_level (CollisionByteLength n k) ys = Ok (Some xs).
Proof.
  induction 1 as [|x xs Hx _ (ys & Hys & Hcat & Hlev)].
  - exists []. done.
  - inversion Hx as [|r' a b Ha Hb Hc Ho Hd Hr' Heq]; subst.
    exists (a :: b :: ys). split; [by repeat constructor|]. split.
    + simpl. rewrite Hcat. by rewrite <- app_assoc.
    + simpl. rewrite Hc. simpl.
      destruct (Z.ltb_spec (first_index (indices b)) (first_index (indices a)));
        [lia|].
      rewrite Hd. simpl.
      pose proof (tree_row_shape _ _ _ _ _ Ha) as (Ha1 & Ha2 & _).
      pose proof (tree_row_shape _ _ _ _ _ Hb) as (Hb1 & Hb2 & _).
      rewrite BasicStepRow_xor_ok by congruence.
      destruct (Z.ltb_spec (first_index (indices a)) (first_index (indices b)));
        [|lia].
      simpl. rewrite Hlev. done.
Qed.

Lemma verify_levels_tree (n k : Z) (s : HashState) (r : nat)
    (xs : list BasicStepRow) :
  Forall (tree_row n k s r) xs ->
  verify_levels r (CollisionByteLength n k)
    (map (BasicStepRow_new n s) (concat (map indices xs))) = Ok (Some xs).
Proof.
  revert xs. induction r as [|r IH]; intros xs Hxs.
  - simpl. do 2 f_equal. induction Hxs as [|x xs Hx _ IHxs]; [done|].
    inversion Hx; subst. simpl. by rewrite IHxs.
  - destruct (verify_level_children n k s r xs Hxs) as (ys & Hys & Hcat & Hlev).
    rewrite verify_levels_snoc, <- Hcat, (IH ys Hys). simpl. exact Hlev.
Qed.

Lemma verify_loop_single (fuel Nb : nat) (x : BasicStepRow) :
  verify_loop fuel Nb [x] = Ok (IsZero (hash x)).
Proof. by destruct fuel. Qed.

Lemma NoDup_bounded_length (l : list Z) (m : Z) :
  NoDup l -> Forall (fun i => 0 <= i < m) l -> Z.of_nat (length l) <= Z.max m 0.
Proof.
  intros Hnd Hb.
  assert (Hsub : l ⊆+ seqZ 0 m).
  { apply NoDup_submseteq; [done|]. intros x Hx. apply elem_of_seqZ.
    pose proof (proj1 (Forall_forall _ _) Hb x Hx) as Hx'. simpl in Hx'. lia. }
  apply submseteq_length in Hsub. rewrite length_seqZ in Hsub. lia.
Qed.

(** A canonical pair of rows of round [k-1] whose hashes cancel is
    accepted by the verifier. *)
Lemma final_pair_valid (n k : Z) (s : HashState) (sol : list Z) :
  1 <= k -> CollisionBitLength n k + 1 < 32 ->
  final_pair n k s (Z.to_nat (k - 1)) sol ->
  IsValidSolution n k s sol = Ok true.
Proof.
  intros Hk HN Hfp.
  destruct (final_pair_shape _ _ _ _ _ Hfp) as (Hl & Hnd & Hb).
  destruct Hfp as (a & b & Ha & Hb' & Ho & Hd & Hz & ->).
  set (r := Z.to_nat (k - 1)) in *.
  assert (Hlen : Z.of_nat (length (indices a ++ indices b)) = 2 ^ k).
  { rewrite Hl, Nat2Z.inj_pow. f_equal. lia. }
  assert (Hk32 : k < 32).
  { pose proof (NoDup_bounded_length _ _ Hnd Hb) as Hle.
    rewrite Hlen, init_size_pow in Hle.
    destruct (Z.lt_ge_cases k 32) as [|Hge]; [done|exfalso].
    assert (2 ^ (CollisionBitLength n k + 1) <= 2 ^ 31).
    { destruct (Z.lt_ge_cases (CollisionBitLength n k + 1) 0) as [Hneg|Hpos].
      - rewrite Z.pow_neg_r by done. lia.
      - apply Z.pow_le_mono_r; lia. }
    assert (2 ^ 32 <= 2 ^ k) by (apply Z.pow_le_mono_r; lia). lia. }
  unfold IsValidSolution.
  destruct (Z.leb_spec 32 k) as [?|_]; [lia|].
  rewrite Hlen, Z.eqb_refl. simpl.
  pose proof (verify_levels_tree n k s r [a; b]) as Hlev.
  simpl in Hlev. rewrite app_nil_r in Hlev.
  assert (Hfuel : exists f, length (indices a ++ indices b) = (r + S f)%nat).
  { exists (2 ^ S r - r - 1)%nat. rewrite Hl.
    assert (r < 2 ^ r)%nat by (apply Nat.pow_gt_lin_r; lia).
    rewrite Nat.pow_succ_r'. lia. }
  destruct Hfuel as [f Hf]. rewrite Hf.
  rewrite (verify_loop_reached _ _ _ _ [a; b]); [|by apply Hlev; repeat constructor|simpl; lia].
  pose proof (tree_row_shape _ _ _ _ _ Ha) as (Ha1 & Ha2 & _).
  pose proof (tree_row_shape _ _ _ _ _ Hb') as (Hb1 & Hb2 & _).
  assert (Heq : hash a = hash b).
  { apply xor_bytes_zero_eq; [congruence|by apply IsZero_Forall]. }
  simpl. rewrite Heq at 1.
  unfold HasCollision. rewrite bool_decide_true by done. simpl.
  destruct (Z.ltb_spec (first_index (indices b)) (first_index (indices a))); [lia|].
  rewrite Hd. simpl. rewrite BasicStepRow_xor_ok by congruence.
  destruct (Z.ltb_spec (first_index (indices a)) (first_index (indices b))); [|lia].
  simpl. rewrite verify_loop_single. f_equal.
  apply IsZero_Forall. unfold trim_bytes. apply Forall_drop.
  by apply IsZero_Forall.
Qed.

(** X11: for [k >= 1], [BasicSolve] returns a set of solutions and the
    verifier accepts every one of them. *)
Theorem BasicSolve_solutions_are_valid (n k : Z) (s : HashState) :
  1 <= k -> CollisionBitLength n k + 1 < 32 ->
  exists S, BasicSolve n k s = Ok S /\
            forall sol, sol ∈ S -> IsValidSolution n k s sol = Ok true.
Proof.
  intros Hk HN. destruct (BasicSolve_final_pairs n k s HN) as (S & HS & Hsol).
  exists S. split; [done|]. intros sol Hin.
  apply final_pair_valid; auto.
Qed.

(** *** Phase B of OptimisedSolve *)

(** With [N = 8] the leaves of a list are those of the indices
    [(p << 2) | j], [j] in [[0, 2)]: the shift count is [recreate_size]. *)
Lemma recreate_list_N8 (n k : Z) (s : HashState) (p : Z) :
  CollisionBitLength n k = 8 -> 0 <= p < 256 ->
  recreate_list n k s p =
    Ok [BasicStepRow_new n s (Z.lor (Z.shiftl p 2) 0);
        BasicStepRow_new n s (Z.lor (Z.shiftl p 2) 1)].
Proof.
  intros HN Hp. unfold recreate_list, recreate_index, recreate_size. rewrite HN.
  change (Z.shiftl 1 (8 - 7)) with 2. simpl.
  rewrite Z.shiftl_mul_pow2 by lia.
  destruct (Z.leb_spec (2 ^ 31) (p * 2 ^ 2)) as [?|_]; [lia|]. done.
Qed.

(** C3, at [(n, k) = (48, 5)] (so [N = 8], [R = 2]) and a partial
    solution entry [p = 1]: the list the code builds holds the leaves of
    the indices 4 and 5, each row carrying its index; the leaves of
    [(p << (N-7)) | j] would be those of 2 and 3. *)
Theorem recreate_list_shifts_by_recreate_size (s : HashState) :
  recreate_list 48 5 s 1 = Ok [BasicStepRow_new 48 s 4; BasicStepRow_new 48 s 5] /\
  spec_recreate_indices 48 5 1 = [2; 3] /\
  (rows ← recreate_list 48 5 s 1; Ok (concat (map indices rows)))
    <> Ok (spec_recreate_indices 48 5 1).
Proof. split; [by apply recreate_list_N8|]. split; [done|]. by intros [=]. Qed.

(** With [N = 16], as for [(n, k) = (96, 5)], the shift count is 512. *)
Lemma recreate_list_N16_undefined (s : HashState) (p : Z) :
  recreate_list 96 5 s p = Fail UndefinedBehaviour.
Proof. reflexivity. Qed.

Lemma BasicStepRow_xor_not_fuel (a b : BasicStepRow) :
  BasicStepRow_xor a b <> Fail OutOfFuel.
Proof.
  unfold BasicStepRow_xor, BasicStepRow_xor_assign.
  repeat (case_match; simplify_eq; simpl; try done).
Qed.

Lemma foldM_not_fuel {A B} (f : B -> A -> result B) (l : list A) (b : B) :
  (forall b a, f b a <> Fail OutOfFuel) -> foldM f b l <> Fail OutOfFuel.
Proof.
  intros Hf. revert b. induction l as [|a l IH]; intros b; simpl; [done|].
  destruct (f b a) as [b'|e] eqn:Hfb; simpl; [apply IH|].
  intros [= ->]. by apply (Hf b a).
Qed.

Lemma cross_emit_not_fuel (Nb : nat) (Xl Xr : list BasicStepRow) (iC jC : nat)
    (ic : list BasicStepRow) (l m : nat) :
  cross_emit Nb Xl Xr iC jC ic l m <> Fail OutOfFuel.
Proof.
  unfold cross_emit. repeat (case_match; try done).
  destruct (BasicStepRow_xor _ _) eqn:Hx; simpl; [done|].
  intros [= ->]. by apply BasicStepRow_xor_not_fuel in Hx.
Qed.

Lemma cross_step_not_fuel (Nb : nat) (Xl Xr : list BasicStepRow) (st : cross_state) :
  cross_step Nb Xl Xr st <> Fail OutOfFuel.
Proof.
  unfold cross_step.
  destruct (Xl !! iChecked st) as [xi|]; [|done].
  destruct (Xr !! jChecked st) as [xj|]; [|done].
  destruct (foldM _ _ _) eqn:Hf; simpl; [done|].
  intros [= ->]. revert Hf. apply foldM_not_fuel. intros ic l.
  apply foldM_not_fuel. intros ic' m. apply cross_emit_not_fuel.
Qed.

Lemma cross_step_advances (Nb : nat) (Xl Xr : list BasicStepRow) (st st' : cross_state) :
  cross_step Nb Xl Xr st = Ok st' ->
  (jChecked st + 1 <= jChecked st')%nat /\ (iChecked st <= iChecked st')%nat.
Proof.
  unfold cross_step.
  destruct (Xl !! iChecked st) as [xi|]; [|done].
  destruct (Xr !! jChecked st) as [xj|]; [|done].
  destruct (foldM _ _ _); simpl; [|done].
  rewrite andb_false_r. intros [= <-]. simpl. lia.
Qed.

Lemma cross_loop_not_fuel (Nb : nat) (Xl Xr : list BasicStepRow) (fuel : nat)
    (st : cross_state) :
  (length Xr - jChecked st <= fuel)%nat ->
  cross_loop fuel Nb Xl Xr st <> Fail OutOfFuel.
Proof.
  revert st. induction fuel as [|fuel IH]; intros st Hfuel; simpl.
  - destruct (Nat.ltb_spec (jChecked st) (length Xr)); [lia|].
    by rewrite andb_false_r.
  - destruct (_ && _); [|done].
    destruct (cross_step Nb Xl Xr st) as [st'|e] eqn:Hs; simpl.
    + apply IH. apply cross_step_advances in Hs. lia.
    + intros [= ->]. by apply cross_step_not_fuel in Hs.
Qed.

Lemma cross_merge_empty (Nb : nat) (Xl Xr : list BasicStepRow) :
  Xl = [] \/ Xr = [] -> cross_merge Nb Xl Xr = Ok [].
Proof.
  intros [-> | ->]; unfold cross_merge.
  - by destruct (length Xr).
  - simpl. by rewrite andb_false_r.
Qed.

Lemma cross_pairs_empty (Nb : nat) (X Xc : list (list BasicStepRow)) :
  [] ∈ X -> cross_pairs Nb X = Ok Xc -> [] ∈ Xc.
Proof.
  revert Xc. induction X as [|Xl|Xl Xr X IH] using list_pair_ind; intros Xc Hin; simpl.
  - by apply elem_of_nil in Hin.
  - done.
  - destruct (cross_merge Nb Xl Xr) as [ic|] eqn:Hm; simpl; [|done].
    destruct (cross_pairs Nb X) as [rest|] eqn:Hp; simpl; [|done].
    intros [= <-].
    apply elem_of_cons in Hin as [<-|Hin].
    { rewrite cross_merge_empty in Hm by auto. injection Hm as <-. by left. }
    apply elem_of_cons in Hin as [<-|Hin].
    { rewrite cross_merge_empty in Hm by auto. injection Hm as <-. by left. }
    right. by apply IH.
Qed.

Lemma sort_list_empty (X : list (list BasicStepRow)) :
  [] ∈ X -> [] ∈ map sort_list X.
Proof. intros Hin. apply (list_elem_of_fmap_2 sort_list) in Hin. exact Hin. Qed.

Lemma recreate_loop_empty (Nb fuel : nat) (X : list (list BasicStepRow))
    (top : list BasicStepRow) :
  [] ∈ X -> recreate_loop fuel Nb X = Ok top -> top = [].
Proof.
  revert X. induction fuel as [|fuel IH]; intros X Hin; simpl.
  - destruct (1 <? length X)%nat eqn:Hl; [done|].
    destruct X as [|x [|y X]]; [done| |done].
    apply list_elem_of_singleton in Hin as <-. by intros [= <-].
  - destruct (1 <? length X)%nat eqn:Hl.
    + destruct (cross_pairs Nb (map sort_list X)) as [Xc|] eqn:Hp; simpl; [|done].
      apply IH. eapply cross_pairs_empty; [|done]. by apply sort_list_empty.
    + destruct X as [|x [|y X]]; [done| |done].
      apply list_elem_of_singleton in Hin as <-. by intros [= <-].
Qed.

Lemma recreate_loop_levels (Nb t fuel : nat) (X Xt : list (list BasicStepRow))
    (top : list BasicStepRow) :
  recreate_levels t Nb X = Ok Xt ->
  recreate_loop fuel Nb X = Ok top ->
  exists fuel', recreate_loop fuel' Nb Xt = Ok top.
Proof.
  revert fuel X. induction t as [|t IH]; intros fuel X; simpl.
  - intros [= <-]. eauto.
  - destruct (cross_pairs Nb (map sort_list X)) as [Xc|] eqn:Hp; simpl; [|done].
    intros Ht. destruct fuel as [|fuel]; simpl.
    + destruct (1 <? length X)%nat eqn:Hl; [done|].
      destruct X as [|x [|y X]]; simpl in *; done.
    + destruct (1 <? length X)%nat eqn:Hl.
      * rewrite Hp. simpl. by apply IH.
      * destruct X as [|x [|y X]]; simpl in *; done.
Qed.

Lemma foldM_ok {A B} (f : B -> A -> result B) (l : list A) (b : B) :
  (forall b a, a ∈ l -> exists b', f b a = Ok b') -> exists b', foldM f b l = Ok b'.
Proof.
  revert b. induction l as [|a l IH]; intros b Hf; simpl; [eauto|].
  destruct (Hf b a) as [b' ->]; [by left|]. simpl.
  apply IH. intros b0 a0 Hin. apply Hf. by right.
Qed.

(** When the rows of both lists have one shape and the left list is not
    the shorter one, every read of the cross-merge is in range and it
    returns its list. *)
Lemma cross_merge_returns (Nb L c : nat) (Xl Xr : list BasicStepRow) :
  uniform L c Xl -> uniform L c Xr -> (length Xr <= length Xl)%nat ->
  exists ic, cross_merge Nb Xl Xr = Ok ic.
Proof.
  intros Hl Hr Hlen. unfold cross_merge.
  cut (forall fuel st, (length Xr - jChecked st <= fuel)%nat ->
                       exists st', cross_loop fuel Nb Xl Xr st = Ok st').
  { intros Hloop. destruct (Hloop (length Xr) {| iChecked := O; jChecked := O; cross_ic := [] |})
      as [st' ->]; [simpl; lia|]. simpl. eauto. }
  induction fuel as [|fuel IH]; intros st Hfuel; simpl.
  - destruct (Nat.ltb_spec (jChecked st) (length Xr)); [lia|].
    rewrite andb_false_r. eauto.
  - destruct (Nat.ltb_spec (iChecked st) (length Xl)) as [Hi|Hi]; [|simpl; eauto].
    destruct (Nat.ltb_spec (jChecked st) (length Xr)) as [Hj|Hj]; [|simpl; eauto].
    simpl.
    assert (Hstep : exists st', cross_step Nb Xl Xr st = Ok st').
    { unfold cross_step.
      destruct (lookup_lt_is_Some_2 Xl (iChecked st) Hi) as [xi ->].
      destruct (lookup_lt_is_Some_2 Xr (jChecked st) Hj) as [xj ->].
      pose proof (run_length_le Nb xj (drop (iChecked st) Xl)) as Hri.
      pose proof (run_length_le Nb xi (drop (S (jChecked st)) Xr)) as Hrj.
      rewrite length_drop in Hri, Hrj.
      match goal with |- context [foldM ?f ?b ?l] =>
        destruct (foldM_ok f l b) as [ic' ->]; [|simpl; eauto] end.
      intros ic l Hin%elem_of_seq. apply foldM_ok. intros ic' m Hm%elem_of_seq.
      unfold cross_emit.
      destruct (lookup_lt_is_Some_2 Xl (iChecked st + l)) as [a Ha]; [lia|].
      destruct (lookup_lt_is_Some_2 Xr (jChecked st + m)) as [b Hb]; [lia|].
      destruct (lookup_lt_is_Some_2 Xl (jChecked st + m)) as [a' Ha']; [lia|].
      rewrite Ha, Hb, Ha'. destruct (DistinctIndices _ _); [|eauto].
      destruct (uniform_xor L c a a') as (r & -> & _); [| |simpl; eauto].
      - by apply (proj1 (Forall_lookup _ Xl) Hl _ _ Ha).
      - by apply (proj1 (Forall_lookup _ Xl) Hl _ _ Ha'). }
    destruct Hstep as [st' Hs]. rewrite Hs. simpl.
    apply IH. apply cross_step_advances in Hs. lia.
Qed.

(** The loop bound [X[v+1].size()] is never exhausted: the cross-merge
    ends within that many iterations, by returning its list or at a read
    out of range or a throw of its body. *)
Lemma cross_merge_not_fuel (Nb : nat) (Xl Xr : list BasicStepRow) :
  cross_merge Nb Xl Xr <> Fail OutOfFuel.
Proof.
  unfold cross_merge.
  destruct (cross_loop _ _ _ _ _) as [st|e] eqn:Hl; simpl; [done|].
  intros [= ->]. revert Hl. apply cross_loop_not_fuel. simpl. lia.
Qed.

(** Once some list is empty after [t] passes of phase B, a run of
    [recreate] that returns adds no solution. *)
Lemma recreate_empty_level (n k : Z) (s : HashState) (partialSoln : list Z)
    (X : list (list BasicStepRow)) (t : nat) (Xt : list (list BasicStepRow))
    (solns : list (list Z)) :
  mapM_result (recreate_list n k s) partialSoln = Ok X ->
  recreate_levels t (CollisionByteLength n k) X = Ok Xt -> [] ∈ Xt ->
  recreate n k s partialSoln = Ok solns -> solns = [].
Proof.
  intros HX Ht Hin. unfold recreate. rewrite HX. simpl.
  destruct (recreate_loop _ _ X) as [top|] eqn:Hloop; simpl; [|done].
  intros [= <-].
  destruct (recreate_loop_levels _ _ _ _ _ _ Ht Hloop) as [fuel' Hloop'].
  by rewrite (recreate_loop_empty _ _ _ _ Hin Hloop').
Qed.

(** With [k = 0], which [validate_params] lets through, the final round
    still merges two rows: every solution of [BasicSolve] has two
    indices, and the verifier, which expects 2^0 = 1, rejects it. *)
Lemma BasicSolve_k0_pairs_rejected (n : Z) (s : HashState) :
  CollisionBitLength n 0 + 1 < 32 ->
  exists S, BasicSolve n 0 s = Ok S /\
    forall sol, sol ∈ S ->
      length sol = 2%nat /\ IsValidSolution n 0 s sol = Ok false.
Proof.
  intros HN. destruct (BasicSolve_solution_shape n 0 s HN) as (S & HS & Hsol).
  exists S. split; [done|]. intros sol Hin.
  destruct (Hsol sol Hin) as (Hl & _). change (2 ^ Z.max 0 1) with 2 in Hl.
  split; [lia|]. unfold IsValidSolution. simpl. rewrite Hl. done.
Qed.

(** ** Further properties of the rows *)

(** X1: for a non-empty [a], [DistinctIndices(a, b)] returns true exactly
    when no index occurs in both vectors, whatever their order, and false
    exactly when some index occurs in both; on two non-empty vectors the
    order of the arguments does not matter. *)
Theorem DistinctIndices_decides_disjointness (a b : list Z) :
  a <> [] ->
  (DistinctIndices a b = true <-> forall x, x ∈ a -> x ∈ b -> False) /\
  (DistinctIndices a b = false <-> exists x, x ∈ a /\ x ∈ b) /\
  (b <> [] -> DistinctIndices a b = DistinctIndices b a).
Proof.
  intros _. split; [apply DistinctIndices_spec|]. split; [|intros _; apply DistinctIndices_sym].
  split.
  - intros Hf. destruct (decide (Exists (fun x => x ∈ b) a)) as [Hex|Hno].
    + apply Exists_exists in Hex. exact Hex.
    + exfalso. assert (Ht : DistinctIndices a b = true); [|congruence].
      apply DistinctIndices_spec. intros x Ha Hb. apply Hno, Exists_exists. eauto.
  - intros (x & Ha & Hb). destruct (DistinctIndices a b) eqn:Hd; [|done].
    exfalso. by apply (proj1 (DistinctIndices_spec a b) Hd x).
Qed.

Lemma HasCollision_from_in_range (ha hb : list Z) (j count : nat) (res : bool) :
  (j + count <= length ha)%nat -> (j + count <= length hb)%nat ->
  HasCollision_from ha hb j count res =
    Ok (res && bool_decide (take count (drop j ha) = take count (drop j hb))).
Proof.
  revert j res. induction count as [|count IH]; intros j res Ha Hb; simpl.
  - by destruct res.
  - destruct (lookup_lt_is_Some_2 ha j) as [x Hx]; [lia|].
    destruct (lookup_lt_is_Some_2 hb j) as [y Hy]; [lia|].
    rewrite Hx, Hy, IH by lia.
    rewrite (drop_S ha x j Hx), (drop_S hb y j Hy). simpl. f_equal.
    destruct (Z.eqb_spec x y) as [->|Hne].
    + rewrite andb_true_r. f_equal. apply bool_decide_ext.
      split; [congruence|]. by intros [= ->].
    + rewrite andb_false_r. simpl. rewrite (bool_decide_false (_ :: _ = _ :: _)).
      * by rewrite andb_false_r.
      * by intros [= ? _].
Qed.

Lemma HasCollision_from_out_of_range (ha hb : list Z) (j count : nat) (res : bool) :
  (j <= length ha)%nat -> (j <= length hb)%nat ->
  (length ha < j + count)%nat \/ (length hb < j + count)%nat ->
  HasCollision_from ha hb j count res = Fail UndefinedBehaviour.
Proof.
  revert j res. induction count as [|count IH]; intros j res Ha Hb Hout; simpl; [lia|].
  destruct (ha !! j) as [x|] eqn:Hx; [|done].
  destruct (hb !! j) as [y|] eqn:Hy; [|done].
  apply lookup_lt_Some in Hx, Hy. apply IH; lia.
Qed.

(** X2: the loop of [HasCollision(a, b, l)] reads the bytes 0 .. l-1 of
    both buffers.  When both hold at least [l] bytes it returns true
    exactly when these bytes agree position by position, which is the
    comparison of the two prefixes the model of the solvers uses; when
    one of them holds fewer than [l] bytes the loop reads out of range. *)
Theorem HasCollision_loop_compares_prefixes (ha hb : list Z) (l : nat) :
  ((l <= length ha)%nat -> (l <= length hb)%nat ->
     HasCollision_loop ha hb l = Ok (HasCollision ha hb l) /\
     (HasCollision ha hb l = true <->
        forall j, (j < l)%nat -> ha !! j = hb !! j)) /\
  ((length ha < l)%nat \/ (length hb < l)%nat ->
     HasCollision_loop ha hb l = Fail UndefinedBehaviour).
Proof.
  split.
  - intros Ha Hb. split.
    + unfold HasCollision_loop. by rewrite HasCollision_from_in_range.
    + rewrite HasCollision_true. split.
      * intros Heq j Hj. by rewrite <- (lookup_take_lt ha l j), Heq, lookup_take_lt.
      * intros Hj. apply list_eq. intros j.
        destruct (decide (j < l)%nat) as [Hlt|Hge].
        -- rewrite !lookup_take_lt by done. by apply Hj.
        -- by rewrite !lookup_take_ge by lia.
  - intros Hout. apply HasCollision_from_out_of_range; lia.
Qed.

(** Rows that collide with one row collide with each other: comparing
    with the first row of a run is enough. *)
Lemma HasCollision_trans (ha hb hc : list Z) (l : nat) :
  HasCollision ha hb l = true -> HasCollision hb hc l = true ->
  HasCollision ha hc l = true.
Proof. rewrite !HasCollision_true. congruence. Qed.

Lemma xor_bytes_self_zero (h : list Z) : Forall (fun x => x = 0) (xor_bytes h h).
Proof.
  unfold xor_bytes. induction h as [|x h IH]; simpl; constructor; [|done].
  apply Z.lxor_nilpotent.
Qed.

(** X3: [IsZero] returns true exactly when every byte of the buffer is
    zero; on the merge of two rows of one shape it returns true exactly
    when the two rows have the same hash. *)
Theorem IsZero_of_merge_iff_equal_hashes (a b : BasicStepRow) :
  length (hash a) = length (hash b) ->
  length (indices a) = length (indices b) ->
  (forall h, IsZero h = true <-> forall i x, h !! i = Some x -> x = 0) /\
  exists c, BasicStepRow_xor a b = Ok c /\
            (IsZero (hash c) = true <-> hash a = hash b).
Proof.
  intros Hh Hi. split.
  - intros h. rewrite IsZero_Forall. apply Forall_lookup.
  - rewrite BasicStepRow_xor_ok by done. eexists. split; [done|].
    rewrite IsZero_Forall.
    assert (Hx : hash (if first_index (indices a) <? first_index (indices b)
                       then {| hash := xor_bytes (hash a) (hash b);
                               indices := indices a ++ indices b |}
                       else {| hash := xor_bytes (hash b) (hash a);
                               indices := indices b ++ indices a |})
                 = xor_bytes (hash a) (hash b)).
    { case_match; simpl; [done|apply xor_bytes_comm]. }
    rewrite Hx. split.
    + by apply xor_bytes_zero_eq.
    + intros ->. apply xor_bytes_self_zero.
Qed.

(** X4: [TrimHash] after a merge gives the row that merging the two
    trimmed rows gives, and two calls of [TrimHash] remove what one call
    with the sum removes, as long as the buffer holds the bytes that are
    removed. *)
Theorem TrimHash_after_merge (l1 l2 : nat) (a b : BasicStepRow) :
  length (hash a) = length (hash b) ->
  length (indices a) = length (indices b) ->
  (l1 + l2 <= length (hash a))%nat ->
  (c ← BasicStepRow_xor a b; Ok (BasicStepRow_TrimHash l1 c)) =
    BasicStepRow_xor (BasicStepRow_TrimHash l1 a) (BasicStepRow_TrimHash l1 b) /\
  BasicStepRow_TrimHash l2 (BasicStepRow_TrimHash l1 a) = BasicStepRow_TrimHash (l1 + l2) a /\
  length (hash (BasicStepRow_TrimHash l1 a)) = (length (hash a) - l1)%nat.
Proof.
  intros Hh Hi Hl. split; [|split].
  - rewrite !BasicStepRow_xor_ok; simpl; try done.
    + unfold BasicStepRow_TrimHash, trim_bytes, xor_bytes.
      case_match; simpl; by rewrite zip_with_drop.
    + unfold trim_bytes. rewrite !length_drop. lia.
  - unfold BasicStepRow_TrimHash, trim_bytes. simpl. by rewrite drop_drop.
  - simpl. unfold trim_bytes. by rewrite length_drop.
Qed.

(** X5: [operator^] does not depend on the order of its operands when
    their first indices differ; when they are equal the two orders give
    the same hash and the same indices, in a different order. *)
Theorem BasicStepRow_xor_operand_order (a b : BasicStepRow) :
  (first_index (indices a) <> first_index (indices b) ->
     BasicStepRow_xor a b = BasicStepRow_xor b a) /\
  (forall c d, BasicStepRow_xor a b = Ok c -> BasicStepRow_xor b a = Ok d ->
     hash c = hash d /\ indices c ≡ₚ indices d).
Proof.
  split.
  - intros Hne. unfold BasicStepRow_xor.
    destruct (Z.ltb_spec (first_index (indices a)) (first_index (indices b))),
             (Z.ltb_spec (first_index (indices b)) (first_index (indices a)));
      try done; lia.
  - intros c d. unfold BasicStepRow_xor, BasicStepRow_xor_assign.
    destruct (Nat.eqb_spec (length (hash a)) (length (hash b))) as [Hh|Hh];
      destruct (Nat.eqb_spec (length (hash b)) (length (hash a))) as [Hh'|Hh'];
      try congruence; simpl; [|by repeat case_match].
    destruct (Nat.eqb_spec (length (indices a)) (length (indices b))) as [Hi|Hi];
      destruct (Nat.eqb_spec (length (indices b)) (length (indices a))) as [Hi'|Hi'];
      try congruence; simpl; [|by repeat case_match].
    repeat case_match; simpl; intros [= <-] [= <-]; simpl;
      (split; [done || apply xor_bytes_comm|done || apply Permutation_app_comm]).
Qed.

Lemma memcmp_lt_irrefl (h : list Z) : memcmp_lt h h = false.
Proof. induction h as [|x h IH]; simpl; [done|]. by rewrite Z.ltb_irrefl. Qed.

Lemma memcmp_eq_spec (ha hb : list Z) :
  length ha = length hb -> memcmp_eq ha hb = true <-> ha = hb.
Proof.
  revert hb. induction ha as [|x ha IH]; intros [|y hb]; simpl; try done.
  intros [= Hl].
  destruct (Z.ltb_spec x y); [split; [done|intros [= ? _]; lia]|].
  destruct (Z.ltb_spec y x); [split; [done|intros [= ? _]; lia]|].
  rewrite (IH hb Hl). split; [intros ->; f_equal; lia|by intros [= _ ->]].
Qed.

Lemma memcmp_lt_trans (ha hb hc : list Z) :
  length ha = length hb -> length hb = length hc ->
  memcmp_lt ha hb = true -> memcmp_lt hb hc = true -> memcmp_lt ha hc = true.
Proof.
  revert hb hc. induction ha as [|x ha IH]; intros [|y hb] [|z hc]; simpl; try done.
  intros [= Hl1] [= Hl2].
  destruct (Z.ltb_spec x y), (Z.ltb_spec y x), (Z.ltb_spec y z), (Z.ltb_spec z y),
           (Z.ltb_spec x z), (Z.ltb_spec z x); try done; try lia.
  by apply IH.
Qed.

Lemma memcmp_incomparable (ha hb : list Z) :
  length ha = length hb ->
  memcmp_lt ha hb = false /\ memcmp_lt hb ha = false <-> memcmp_eq ha hb = true.
Proof.
  revert hb. induction ha as [|x ha IH]; intros [|y hb]; simpl; try done.
  intros [= Hl].
  destruct (Z.ltb_spec x y), (Z.ltb_spec y x); simpl; try lia;
    try (split; [intros [? ?]|intros ?]; discriminate).
  by apply IH.
Qed.

(** X6: on buffers of one length, as the rows of a table have,
    [operator<] is a strict order (irreflexive, transitive, hence
    asymmetric), [operator==] holds exactly of equal buffers, and two
    buffers neither of which is less than the other are equal: the order
    that [std::sort] is given is total on the hashes, and the rows it may
    leave in either order are those with the same hash. *)
Theorem row_order_strict_and_total (ha hb hc : list Z) :
  length ha = length hb -> length hb = length hc ->
  memcmp_lt ha ha = false /\
  (memcmp_lt ha hb = true -> memcmp_lt hb ha = false) /\
  (memcmp_lt ha hb = true -> memcmp_lt hb hc = true -> memcmp_lt ha hc = true) /\
  (memcmp_eq ha hb = true <-> ha = hb) /\
  (memcmp_lt ha hb = false /\ memcmp_lt hb ha = false <-> ha = hb).
Proof.
  intros H1 H2. split; [apply memcmp_lt_irrefl|]. split; [|split; [|split]].
  - intros Hab. destruct (memcmp_lt hb ha) eqn:Hba; [|done].
    assert (memcmp_lt ha ha = true) by (by apply (memcmp_lt_trans ha hb ha)).
    by rewrite memcmp_lt_irrefl in *.
  - by apply memcmp_lt_trans.
  - by apply memcmp_eq_spec.
  - rewrite memcmp_incomparable by done. by apply memcmp_eq_spec.
Qed.

(** X7: the constructor of a truncated row keeps the top eight bits of an
    index of [ilen] bits, [8 <= ilen <= 32]: for the index
    [(p << (ilen - 8)) | j] with [p] a byte and [j] below [2^(ilen - 8)]
    the truncated history is [p], and for every index below [2^ilen] it
    is the quotient by [2^(ilen - 8)], a byte. *)
Theorem TruncatedStepRow_new_keeps_top_byte (n : Z) (s : HashState) (ilen p j : Z) :
  8 <= ilen <= 32 -> 0 <= p < 256 -> 0 <= j < 2 ^ (ilen - 8) ->
  (exists r,
     TruncatedStepRow_new n s (Z.lor (Z.shiftl p (ilen - 8)) j) ilen = Ok r /\
     tindices r = [p]) /\
  (forall i, 0 <= i < 2 ^ ilen ->
     exists r,
       TruncatedStepRow_new n s i ilen = Ok r /\
       tindices r = [i / 2 ^ (ilen - 8)] /\
       0 <= i / 2 ^ (ilen - 8) < 256).
Proof.
  intros Hl Hp Hj.
  assert (Hpow : 0 < 2 ^ (ilen - 8)) by (apply Z.pow_pos_nonneg; lia).
  assert (Hq : forall i, 0 <= i < 2 ^ ilen -> 0 <= i / 2 ^ (ilen - 8) < 256).
  { intros i Hi. split; [apply Z.div_pos; lia|].
    apply Z.div_lt_upper_bound; [done|].
    replace (2 ^ (ilen - 8) * 256) with (2 ^ ilen); [lia|].
    change 256 with (2 ^ 8). rewrite <- Z.pow_add_r by lia. f_equal. lia. }
  assert (Hland : forall q, 0 <= q < 256 -> Z.land q 255 = q).
  { intros q Hq'. change 255 with (Z.ones 8). rewrite Z.land_ones by lia.
    apply Z.mod_small. change (2 ^ 8) with 256. lia. }
  unfold TruncatedStepRow_new.
  destruct (Z.ltb_spec ilen 8) as [?|_]; [lia|].
  destruct (Z.leb_spec 40 ilen) as [?|_]; [lia|]. simpl.
  split.
  - eexists. split; [done|]. simpl. f_equal.
    rewrite Z.shiftr_lor, Z.shiftr_shiftl_l, Z.sub_diag, Z.shiftl_0_r by lia.
    rewrite (Z.shiftr_div_pow2 j), (Z.div_small j), Z.lor_0_r by lia.
    by apply Hland.
  - intros i Hi. eexists. split; [done|]. split; [|by apply Hq]. simpl. f_equal.
    rewrite Z.shiftr_div_pow2 by lia. by apply Hland, Hq.
Qed.

(** ** Further properties of the parameters *)

Lemma Equihash_new_ok_invariant (n k : Z) (e : Equihash) :
  0 <= n < 2 ^ 31 -> 0 <= k < 2 ^ 31 ->
  Equihash_new n k = Ok e ->
  e = {| eh_n := n; eh_k := k |} /\ params_invariant n k.
Proof.
  intros Hn Hk. unfold Equihash_new, params_invariant.
  rewrite !to_int_small by done. unfold validate_params.
  destruct (Z.geb_spec k n) as [Hge|Hlt]; [done|].
  rewrite Z.rem_mod_nonneg by lia.
  destruct (Z.eqb_spec (n mod 8) 0) as [H8|H8]; [|done].
  destruct (Z.eqb_spec (k + 1) 0) as [?|_]; [lia|].
  rewrite Z.quot_div_nonneg by lia.
  rewrite Z.rem_mod_nonneg; [|apply Z.div_pos; lia|lia].
  destruct (Z.eqb_spec ((n / (k + 1)) mod 8) 0) as [HN|HN]; [|done].
  simpl. by intros [= <-].
Qed.

(** X8: parameters below 2^31 that the constructor accepts have a
    collision length [N = n/(k+1)] that is a positive multiple of 8, so
    that the collision byte length is at least 1, and the [n/8] bytes of a
    digest hold the [k+1] segments of [N/8] bytes the rounds consume. *)
Theorem accepted_params_geometry (n k : Z) (e : Equihash) :
  0 <= n < 2 ^ 31 -> 0 <= k < 2 ^ 31 ->
  Equihash_new n k = Ok e ->
  e = {| eh_n := n; eh_k := k |} /\
  k < n /\ n mod 8 = 0 /\
  8 <= CollisionBitLength n k /\
  CollisionBitLength n k = 8 * Z.of_nat (CollisionByteLength n k) /\
  (1 <= CollisionByteLength n k)%nat /\
  ((Z.to_nat k + 1) * CollisionByteLength n k <= Z.to_nat (n / 8))%nat.
Proof.
  intros Hn Hk He.
  destruct (Equihash_new_ok_invariant n k e Hn Hk He) as (-> & Hlt & H8 & HN).
  unfold CollisionByteLength, CollisionBitLength.
  set (N := n / (k + 1)) in *.
  assert (HN1 : 1 <= N) by (apply Z.div_le_lower_bound; lia).
  assert (HN8 : N = 8 * (N / 8)) by (apply Z.div_exact; [lia|done]).
  assert (HNn : (k + 1) * N <= n) by (apply Z.mul_div_le; lia).
  assert (Hn8 : n = 8 * (n / 8)) by (apply Z.div_exact; [lia|done]).
  split; [done|]. split; [done|]. split; [done|]. split; [lia|].
  split; [lia|]. split; [lia|].
  apply Nat2Z.inj_le. rewrite Nat2Z.inj_mul, Nat2Z.inj_add. nia.
Qed.

(** ** Further properties of the verifier and of BasicSolve *)

(** X9: with parameters the constructor accepts, two rows that
    [BasicSolve] holds after [r <= k - 1] rounds have at least twice
    [CollisionByteLength()] bytes of hash left: the loop of
    [HasCollision] on them stays inside both buffers and returns what the
    comparison of the prefixes gives, and [TrimHash] removes bytes that
    are there. *)
Theorem BasicSolve_rows_hold_collision_bytes
    (n k : Z) (s : HashState) (e : Equihash) (r : nat) (a b : BasicStepRow) :
  0 <= n < 2 ^ 31 -> 0 <= k < 2 ^ 31 ->
  Equihash_new n k = Ok e ->
  Z.of_nat r <= k - 1 ->
  tree_row n k s r a -> tree_row n k s r b ->
  (2 * CollisionByteLength n k <= length (hash a))%nat /\
  length (hash a) = length (hash b) /\
  HasCollision_loop (hash a) (hash b) (CollisionByteLength n k) =
    Ok (HasCollision (hash a) (hash b) (CollisionByteLength n k)).
Proof.
  intros Hn Hk He Hr Ha Hb.
  destruct (Equihash_new_ok_invariant n k e Hn Hk He) as (_ & Hlt & H8 & HN).
  assert (Hseg : ((Z.to_nat k + 1) * CollisionByteLength n k <= Z.to_nat (n / 8))%nat).
  { unfold CollisionByteLength, CollisionBitLength.
    assert (1 <= n / (k + 1)) by (apply Z.div_le_lower_bound; lia).
    assert (n / (k + 1) = 8 * (n / (k + 1) / 8)) by (apply Z.div_exact; [lia|done]).
    assert ((k + 1) * (n / (k + 1)) <= n) by (apply Z.mul_div_le; lia).
    assert (n = 8 * (n / 8)) by (apply Z.div_exact; [lia|done]).
    apply Nat2Z.inj_le. rewrite Nat2Z.inj_mul, Nat2Z.inj_add. nia. }
  apply tree_row_shape in Ha as (Ha & _). apply tree_row_shape in Hb as (Hb & _).
  assert (Hlen : (2 * CollisionByteLength n k <= length (hash a))%nat).
  { rewrite Ha. assert (r + 2 <= Z.to_nat k + 1)%nat by lia. nia. }
  split; [done|]. split; [congruence|].
  unfold HasCollision_loop. rewrite HasCollision_from_in_range by lia. done.
Qed.

Lemma xor_bytes_assoc (h1 h2 h3 : list Z) :
  xor_bytes (xor_bytes h1 h2) h3 = xor_bytes h1 (xor_bytes h2 h3).
Proof.
  unfold xor_bytes. revert h2 h3.
  induction h1 as [|x h1 IH]; intros [|y h2] [|z h3]; simpl; try done.
  by rewrite Z.lxor_assoc, IH.
Qed.

Lemma xor_bytes_zero_l (h : list Z) (len : nat) :
  length h = len -> xor_bytes (replicate len 0) h = h.
Proof.
  intros <-. unfold xor_bytes. induction h as [|x h IH]; simpl; [done|].
  by rewrite IH, Z.lxor_0_l.
Qed.

Lemma xor_bytes_zero_Forall (h1 h2 : list Z) :
  Forall (fun x => x = 0) h1 -> Forall (fun x => x = 0) h2 ->
  Forall (fun x => x = 0) (xor_bytes h1 h2).
Proof.
  unfold xor_bytes. intros H1. revert h2.
  induction H1 as [|x h1 -> _ IH]; intros h2 H2; simpl; [constructor|].
  destruct H2 as [|y h2 -> H2]; constructor; [done|by apply IH].
Qed.

Lemma length_xor_all (len : nat) (hs : list (list Z)) :
  Forall (fun h => length h = len) hs -> length (xor_all len hs) = len.
Proof.
  induction 1 as [|h hs Hh _ IH].
  - apply length_replicate.
  - change (xor_all len (h :: hs)) with (xor_bytes h (xor_all len hs)).
    rewrite length_xor_bytes; [done|]. congruence.
Qed.

Lemma xor_all_app (len : nat) (hs1 hs2 : list (list Z)) :
  Forall (fun h => length h = len) hs2 ->
  xor_all len (hs1 ++ hs2) = xor_bytes (xor_all len hs1) (xor_all len hs2).
Proof.
  intros H2. induction hs1 as [|h hs1 IH].
  - symmetry. apply xor_bytes_zero_l. by apply length_xor_all.
  - change (xor_all len ((h :: hs1) ++ hs2))
      with (xor_bytes h (xor_all len (hs1 ++ hs2))).
    change (xor_all len (h :: hs1)) with (xor_bytes h (xor_all len hs1)).
    by rewrite IH, xor_bytes_assoc.
Qed.

Lemma length_leaves_xor (n : Z) (s : HashState) (l : list Z) :
  length (leaves_xor n s l) = Z.to_nat (n / 8).
Proof.
  apply length_xor_all, Forall_map, Forall_forall. intros i _. simpl.
  unfold StepRow_new. apply digest_length.
Qed.

Lemma leaves_xor_app (n : Z) (s : HashState) (l1 l2 : list Z) :
  leaves_xor n s (l1 ++ l2) = xor_bytes (leaves_xor n s l1) (leaves_xor n s l2).
Proof.
  unfold leaves_xor. rewrite map_app. apply xor_all_app.
  apply Forall_map, Forall_forall. intros i _. simpl.
  unfold StepRow_new. apply digest_length.
Qed.

Lemma block_row_leaf (n : Z) (s : HashState) (Nb : nat) (i : Z) :
  block_row n s Nb 0 [i] = BasicStepRow_new n s i.
Proof.
  unfold block_row, BasicStepRow_new, leaves_xor. simpl. f_equal.
  change (xor_all (Z.to_nat (n / 8)) [StepRow_new n s i])
    with (xor_bytes (StepRow_new n s i) (replicate (Z.to_nat (n / 8)) 0)).
  rewrite xor_bytes_comm, xor_bytes_zero_l; [done|].
  unfold StepRow_new. apply digest_length.
Qed.

Lemma verified_row_leaf (n : Z) (s : HashState) (Nb : nat) (i : Z) :
  verified_row n s Nb 0 (BasicStepRow_new n s i).
Proof.
  split; [|symmetry; apply block_row_leaf].
  simpl. split; [done|]. split; [apply NoDup_singleton|done].
Qed.

Lemma collision_tree_zero_prefix (n : Z) (s : HashState) (Nb t : nat) (l : list Z) :
  collision_tree n s Nb t l ->
  Forall (fun b => b = 0) (take (t * Nb) (leaves_xor n s l)).
Proof. destruct t as [|t]; [constructor|]. by intros (_ & _ & _ & ?). Qed.

(** The pair test of the verifier takes the rows of two nodes at one
    height to the row of their parent. *)
Lemma verified_row_merge (n : Z) (s : HashState) (Nb t : nat) (a b : BasicStepRow) :
  verified_row n s Nb t a -> verified_row n s Nb t b ->
  HasCollision (hash a) (hash b) Nb = true ->
  ~ first_index (indices b) < first_index (indices a) ->
  DistinctIndices (indices a) (indices b) = true ->
  exists c, BasicStepRow_xor a b = Ok c /\
            indices c = indices a ++ indices b /\
            verified_row n s Nb (S t) (BasicStepRow_TrimHash Nb c).
Proof.
  intros ((Ha1 & Ha2 & Ha3) & Ha4) ((Hb1 & Hb2 & Hb3) & Hb4) Hc Ho Hd.
  apply (f_equal hash) in Ha4, Hb4. simpl in Ha4, Hb4.
  pose proof (collision_tree_zero_prefix _ _ _ _ _ Ha3) as Ha5.
  pose proof (collision_tree_zero_prefix _ _ _ _ _ Hb3) as Hb5.
  pose proof (length_leaves_xor n s (indices a)) as HA.
  pose proof (length_leaves_xor n s (indices b)) as HB.
  assert (Hpos : (0 < 2 ^ t)%nat) by (apply Nat.neq_0_lt_0, Nat.pow_nonzero; lia).
  assert (Hlt : first_index (indices a) < first_index (indices b)).
  { destruct (Z.eq_dec (first_index (indices a)) (first_index (indices b))) as [E|E]; [|lia].
    rewrite DistinctIndices_same_first in Hd; [done| | |done].
    - intros E'. rewrite E' in Ha1. simpl in Ha1. lia.
    - intros E'. rewrite E' in Hb1. simpl in Hb1. lia. }
  rewrite BasicStepRow_xor_ok; [|rewrite Ha4, Hb4, !length_drop; lia|congruence].
  destruct (Z.ltb_spec (first_index (indices a)) (first_index (indices b))); [|lia].
  eexists. split; [done|]. split; [done|].
  apply HasCollision_true in Hc.
  assert (Hz : Forall (fun x => x = 0)
                 (take (S t * Nb) (leaves_xor n s (indices a ++ indices b)))).
  { rewrite leaves_xor_app.
    replace (S t * Nb)%nat with (t * Nb + Nb)%nat by lia.
    rewrite <- take_take_drop. apply Forall_app. split.
    - unfold xor_bytes. rewrite zip_with_take. by apply xor_bytes_zero_Forall.
    - unfold xor_bytes. rewrite zip_with_drop, <- Ha4, <- Hb4, zip_with_take, Hc.
      apply xor_bytes_self_zero. }
  split; [split; [|split]|].
  - simpl. rewrite length_app. lia.
  - simpl. apply NoDup_app. split; [done|]. split; [|done].
    intros i Hia Hib. by apply (proj1 (DistinctIndices_spec _ _) Hd i).
  - cbn [indices BasicStepRow_TrimHash collision_tree].
    rewrite take_app_length', drop_app_length' by lia. done.
  - unfold BasicStepRow_TrimHash, block_row. cbn [hash indices]. f_equal.
    rewrite leaves_xor_app. unfold trim_bytes, xor_bytes.
    rewrite Ha4, Hb4, <- zip_with_drop, drop_drop. f_equal. lia.
Qed.

Lemma verify_level_verified (n : Z) (s : HashState) (Nb t : nat)
    (X Xc : list BasicStepRow) :
  Forall (verified_row n s Nb t) X ->
  verify_level Nb X = Ok (Some Xc) ->
  Forall (verified_row n s Nb (S t)) Xc /\
  concat (map indices Xc) = concat (map indices X).
Proof.
  revert Xc. induction X as [|a|a b X IH] using list_pair_ind; intros Xc HX; simpl.
  - intros [= <-]. done.
  - done.
  - apply Forall_cons in HX as [Ha HX]. apply Forall_cons in HX as [Hb HX].
    destruct (HasCollision (hash a) (hash b) Nb) eqn:Hc; simpl; [|done].
    destruct (Z.ltb_spec (first_index (indices b)) (first_index (indices a)))
      as [Hlt|Hge]; [done|].
    destruct (DistinctIndices (indices a) (indices b)) eqn:Hd; simpl; [|done].
    destruct (verified_row_merge n s Nb t a b Ha Hb Hc) as (c & -> & Hic & Hv);
      [lia|done|].
    simpl. destruct (verify_level Nb X) as [[rest|]|]; simpl; try done.
    intros [= <-]. destruct (IH rest HX eq_refl) as [Hrest Hcat].
    split; [by constructor|]. simpl. by rewrite Hic, Hcat, <- app_assoc.
Qed.

Lemma verify_loop_verified (n : Z) (s : HashState) (Nb fuel t : nat)
    (X : list BasicStepRow) :
  Forall (verified_row n s Nb t) X ->
  verify_loop fuel Nb X = Ok true ->
  exists t' x, verified_row n s Nb t' x /\
               indices x = concat (map indices X) /\
               IsZero (hash x) = true.
Proof.
  revert t X. induction fuel as [|fuel IH]; intros t X HX; simpl.
  - case_bool_decide as Hlen; [done|].
    destruct X as [|x [|y X]]; simpl in *; [done| |lia].
    intros [= Hz]. exists t, x. apply Forall_cons in HX as [Hx _].
    by rewrite app_nil_r.
  - case_bool_decide as Hlen.
    + destruct (verify_level Nb X) as [[Xc|]|] eqn:Hl; simpl; try done.
      intros Hloop. destruct (verify_level_verified n s Nb t X Xc HX Hl) as [HXc Hcat].
      destruct (IH _ _ HXc Hloop) as (t' & x & Hx & Hix & Hz).
      exists t', x. by rewrite <- Hcat.
    + destruct X as [|x [|y X]]; simpl in *; [done| |lia].
      intros [= Hz]. exists t, x. apply Forall_cons in HX as [Hx _].
      by rewrite app_nil_r.
Qed.

Lemma concat_leaf_indices (n : Z) (s : HashState) (soln : list Z) :
  concat (map indices (map (BasicStepRow_new n s) soln)) = soln.
Proof. induction soln as [|i soln IH]; simpl; [done|]. by rewrite IH. Qed.

(** What acceptance by the verifier means for the candidate. *)
Lemma IsValidSolution_true_inv (n k : Z) (s : HashState) (soln : list Z) :
  IsValidSolution n k s soln = Ok true ->
  Z.of_nat (length soln) = 2 ^ k /\
  NoDup soln /\
  collision_tree n s (CollisionByteLength n k) (Z.to_nat k) soln /\
  leaves_xor n s soln = replicate (Z.to_nat (n / 8)) 0.
Proof.
  unfold IsValidSolution.
  destruct (Z.leb_spec 32 k) as [?|Hk]; [done|].
  destruct (Z.eqb_spec (Z.of_nat (length soln)) (2 ^ k)) as [Hsize|Hsize]; simpl; [|done].
  intros Hloop.
  destruct (verify_loop_verified n s (CollisionByteLength n k) (length soln) 0
              (map (BasicStepRow_new n s) soln)) as (t & x & Hx & Hix & Hz); [|done|].
  { apply Forall_map, Forall_forall. intros i _. apply verified_row_leaf. }
  rewrite concat_leaf_indices in Hix.
  destruct Hx as ((Hx1 & Hx2 & Hx3) & Hx4). rewrite Hix in *.
  assert (Ht : t = Z.to_nat k).
  { assert (Hp : 2 ^ Z.of_nat t = 2 ^ k).
    { rewrite <- Hsize, Hx1, Nat2Z.inj_pow. done. }
    destruct (Z.lt_ge_cases k 0) as [Hneg|Hpos].
    - rewrite (Z.pow_neg_r 2 k) in Hp by done.
      assert (0 < 2 ^ Z.of_nat t) by (apply Z.pow_pos_nonneg; lia). lia.
    - apply Z.pow_inj_r in Hp; lia. }
  subst t. split; [done|]. split; [done|]. split; [done|].
  symmetry. apply replicate_as_Forall_2; [apply length_leaves_xor|].
  rewrite <- (take_drop (Z.to_nat k * CollisionByteLength n k) (leaves_xor n s soln)).
  apply Forall_app. split.
  - apply collision_tree_zero_prefix in Hx3.
    eapply Forall_impl; [exact Hx3|]. by intros ? ->.
  - rewrite Hx4 in Hz. simpl in Hz. apply IsZero_Forall in Hz.
    eapply Forall_impl; [exact Hz|]. by intros ? ->.
Qed.

(** The two halves of the indices below a node, and the tests their
    rows pass. *)
Lemma tree_block_split (n : Z) (s : HashState) (Nb t : nat) (l : list Z) :
  tree_block n s Nb (S t) l ->
  let la := take (2 ^ t) l in
  let lb := drop (2 ^ t) l in
  l = la ++ lb /\
  tree_block n s Nb t la /\ tree_block n s Nb t lb /\
  first_index la < first_index lb /\
  DistinctIndices la lb = true /\
  HasCollision (hash (block_row n s Nb t la)) (hash (block_row n s Nb t lb)) Nb = true /\
  length (hash (block_row n s Nb t la)) = length (hash (block_row n s Nb t lb)) /\
  BasicStepRow_TrimHash Nb
    {| hash := xor_bytes (hash (block_row n s Nb t la)) (hash (block_row n s Nb t lb));
       indices := la ++ lb |} = block_row n s Nb (S t) l.
Proof.
  intros (Hl1 & Hl2 & Hl3) la lb.
  cbn [collision_tree] in Hl3. destruct Hl3 as (HtL & HtR & Hord & Hz).
  fold la lb in HtL, HtR, Hord.
  assert (Hl : l = la ++ lb) by (symmetry; apply take_drop).
  rewrite Nat.pow_succ_r' in Hl1.
  assert (Hla : length la = (2 ^ t)%nat) by (unfold la; rewrite length_take; lia).
  assert (Hlb : length lb = (2 ^ t)%nat) by (unfold lb; rewrite length_drop; lia).
  rewrite Hl in Hl2. apply NoDup_app in Hl2 as (Hnda & Hdisj & Hndb).
  assert (Ha : verified_row n s Nb t (block_row n s Nb t la)) by (by repeat split).
  assert (Hb : verified_row n s Nb t (block_row n s Nb t lb)) by (by repeat split).
  assert (Hd : DistinctIndices la lb = true).
  { apply DistinctIndices_spec. intros x Hxa Hxb. by apply (Hdisj x). }
  pose proof (length_leaves_xor n s la) as HA.
  pose proof (length_leaves_xor n s lb) as HB.
  assert (Hlen : length (hash (block_row n s Nb t la))
                 = length (hash (block_row n s Nb t lb))).
  { simpl. rewrite !length_drop. lia. }
  assert (Hc : HasCollision (hash (block_row n s Nb t la))
                            (hash (block_row n s Nb t lb)) Nb = true).
  { apply HasCollision_true. simpl.
    apply xor_bytes_zero_eq; [rewrite !length_take, !length_drop; lia|].
    unfold xor_bytes. rewrite <- zip_with_take, <- zip_with_drop.
    fold (xor_bytes (leaves_xor n s la) (leaves_xor n s lb)).
    rewrite <- leaves_xor_app, <- Hl.
    replace (S t * Nb)%nat with (t * Nb + Nb)%nat in Hz by lia.
    rewrite <- take_take_drop in Hz. by apply Forall_app in Hz as [_ ?]. }
  destruct (verified_row_merge n s Nb t _ _ Ha Hb Hc) as (c & Hx & Hic & (_ & Hv));
    [simpl; lia|done|].
  rewrite BasicStepRow_xor_ok in Hx by first [exact Hlen|simpl; congruence].
  cbn [indices block_row] in Hx.
  destruct (Z.ltb_spec (first_index la) (first_index lb)); [|lia].
  injection Hx as <-. cbn [indices BasicStepRow_TrimHash] in Hv.
  repeat (split; [done|]).
  transitivity (block_row n s Nb (S t) (la ++ lb)); [exact Hv|by rewrite <- Hl].
Qed.

(** The rows of the nodes at height [t+1] are what one pass of the
    verifier makes of the rows of their children. *)
Lemma verify_level_blocks (n : Z) (s : HashState) (Nb t : nat) (ls : list (list Z)) :
  Forall (tree_block n s Nb (S t)) ls ->
  exists ys, Forall (tree_block n s Nb t) ys /\
             concat ys = concat ls /\
             verify_level Nb (map (block_row n s Nb t) ys)
               = Ok (Some (map (block_row n s Nb (S t)) ls)).
Proof.
  induction 1 as [|l ls Hl _ (ys & Hys & Hcat & Hlev)].
  - exists []. done.
  - destruct (tree_block_split _ _ _ _ _ Hl)
      as (Hsplit & Hla & Hlb & Hord & Hd & Hc & Hlen & Hrow).
    set (la := take (2 ^ t) l) in *. set (lb := drop (2 ^ t) l) in *.
    exists (la :: lb :: ys). split; [by do 2 (constructor; [done|])|]. split.
    + simpl. by rewrite Hcat, app_assoc, <- Hsplit.
    + cbn [map verify_level]. rewrite Hc. cbn [negb].
      rewrite BasicStepRow_xor_ok;
        [|exact Hlen|simpl; destruct Hla as (-> & _), Hlb as (-> & _); done].
      cbn [indices block_row].
      destruct (Z.ltb_spec (first_index lb) (first_index la)); [lia|].
      destruct (Z.ltb_spec (first_index la) (first_index lb)); [|lia].
      rewrite Hd. cbn [negb mbind result_bind]. rewrite Hlev.
      cbn [mbind result_bind option_map map]. do 3 f_equal. exact Hrow.
Qed.

Lemma verify_levels_blocks (n : Z) (s : HashState) (Nb t : nat) (ls : list (list Z)) :
  Forall (tree_block n s Nb t) ls ->
  verify_levels t Nb (map (BasicStepRow_new n s) (concat ls))
    = Ok (Some (map (block_row n s Nb t) ls)).
Proof.
  revert ls. induction t as [|t IH]; intros ls Hls.
  - simpl. do 2 f_equal. induction Hls as [|l ls (Hl & _) _ IHls]; [done|].
    destruct l as [|i [|j l]]; simpl in Hl; try lia.
    simpl. by rewrite IHls, block_row_leaf.
  - destruct (verify_level_blocks n s Nb t ls Hls) as (ys & Hys & Hcat & Hlev).
    rewrite verify_levels_snoc, <- Hcat, (IH ys Hys). exact Hlev.
Qed.

Lemma verify_loop_levels (Nb t fuel : nat) (X : list BasicStepRow) (x : BasicStepRow) :
  verify_levels t Nb X = Ok (Some [x]) -> (t <= fuel)%nat ->
  verify_loop fuel Nb X = Ok (IsZero (hash x)).
Proof.
  revert fuel X. induction t as [|t IH]; intros fuel X; simpl.
  - intros [= ->] _. apply verify_loop_single.
  - destruct (verify_level Nb X) as [[Xc|]|] eqn:Hl; simpl; try done.
    intros Ht Hfuel. destruct fuel as [|fuel]; [lia|]. simpl.
    pose proof (verify_level_length _ _ _ Hl) as Hlen.
    pose proof (verify_levels_length _ _ _ _ Ht) as Hlen'. simpl in Hlen'.
    assert (0 < 2 ^ t)%nat by (apply Nat.neq_0_lt_0, Nat.pow_nonzero; lia).
    rewrite bool_decide_true by lia. rewrite Hl. simpl. apply IH; [done|lia].
Qed.

(** X10: for every [k] below 32 and every candidate, [IsValidSolution]
    returns a verdict (its loop ends, no row is read out of range, no
    merge throws, the final [assert] holds), and the verdict is true
    exactly when the candidate has 2^k indices, no index occurs twice,
    the indices form a tree (at every node the first index of the left
    half is the smaller, and the digests of the leaves below a node at
    height [h] cancel on their first [h] collision segments), and the
    digests of all its leaves cancel on all [n/8] bytes. *)
Theorem IsValidSolution_accepts_exactly_the_trees (n k : Z) (s : HashState) (soln : list Z) :
  0 <= k < 32 ->
  exists verdict, IsValidSolution n k s soln = Ok verdict /\
    (verdict = true <->
       Z.of_nat (length soln) = 2 ^ k /\
       NoDup soln /\
       collision_tree n s (CollisionByteLength n k) (Z.to_nat k) soln /\
       leaves_xor n s soln = replicate (Z.to_nat (n / 8)) 0).
Proof.
  intros Hk. destruct (IsValidSolution_total n k s soln Hk) as [b Hb].
  exists b. split; [done|]. split.
  - intros ->. by apply IsValidSolution_true_inv.
  - intros (Hsize & Hnd & Htree & Hzero).
    assert (Hlen : length soln = (2 ^ Z.to_nat k)%nat).
    { apply Nat2Z.inj. rewrite Hsize, Nat2Z.inj_pow. f_equal. lia. }
    assert (Ht : IsValidSolution n k s soln = Ok true); [|congruence].
    unfold IsValidSolution.
    destruct (Z.leb_spec 32 k) as [?|_]; [lia|].
    rewrite Hsize, Z.eqb_refl. simpl.
    pose proof (verify_levels_blocks n s (CollisionByteLength n k) (Z.to_nat k) [soln])
      as Hlev.
    simpl in Hlev. rewrite app_nil_r in Hlev.
    rewrite (verify_loop_levels _ (Z.to_nat k) _ _ _ (Hlev ltac:(by repeat constructor))).
    + f_equal. simpl. rewrite Hzero. apply IsZero_Forall, Forall_drop.
      apply Forall_replicate. done.
    + rewrite Hlen. apply Nat.lt_le_incl, Nat.pow_gt_lin_r. lia.
Qed.

(** X12: for [k >= 1] every solution [BasicSolve] returns has 2^k
    indices, all below 2^(N+1) and no two equal, that form a tree, and
    the digests of its leaves cancel on all [n/8] bytes. *)
Theorem BasicSolve_returns_only_solutions (n k : Z) (s : HashState) :
  1 <= k -> CollisionBitLength n k + 1 < 32 ->
  exists S, BasicSolve n k s = Ok S /\
    forall sol, sol ∈ S ->
      Z.of_nat (length sol) = 2 ^ k /\
      NoDup sol /\
      Forall (fun i => 0 <= i < 2 ^ (CollisionBitLength n k + 1)) sol /\
      collision_tree n s (CollisionByteLength n k) (Z.to_nat k) sol /\
      leaves_xor n s sol = replicate (Z.to_nat (n / 8)) 0.
Proof.
  intros Hk HN. destruct (BasicSolve_final_pairs n k s HN) as (S & HS & Hsol).
  exists S. split; [done|]. intros sol Hin.
  destruct (final_pair_shape _ _ _ _ _ (Hsol sol Hin)) as (_ & _ & Hb).
  rewrite init_size_pow in Hb.
  destruct (IsValidSolution_true_inv n k s sol) as (H1 & H2 & H3 & H4).
  { apply final_pair_valid; auto. }
  done.
Qed.

(** X13: when [k] exceeds the number of bits of an index, [N + 1], there
    are fewer leaves than a solution needs indices: every set that
    [BasicSolve] returns is empty. *)
Theorem BasicSolve_no_solution_when_k_exceeds_index_bits (n k : Z) (s : HashState)
    (sols : gset (list Z)) :
  0 <= CollisionBitLength n k + 1 < 32 ->
  CollisionBitLength n k + 1 < k ->
  BasicSolve n k s = Ok sols ->
  sols = ∅.
Proof.
  intros HN Hk Hret.
  destruct (BasicSolve_final_pairs n k s) as (sols' & HS & Hsol); [lia|].
  rewrite HS in Hret. injection Hret as <-.
  apply elem_of_equiv_empty_L. intros sol Hin.
  destruct (final_pair_shape _ _ _ _ _ (Hsol sol Hin)) as (Hl & Hnd & Hb).
  pose proof (NoDup_bounded_length _ _ Hnd Hb) as Hle.
  rewrite Hl, init_size_pow, Nat2Z.inj_pow in Hle.
  assert (2 ^ (CollisionBitLength n k + 1) < 2 ^ Z.of_nat (S (Z.to_nat (k - 1)))).
  { apply Z.pow_lt_mono_r; lia. }
  assert (0 < 2 ^ (CollisionBitLength n k + 1)) by (apply Z.pow_pos_nonneg; lia).
  simpl in Hle. lia.
Qed.

(** ** Further properties of the collision rounds *)

Section RoundMerges.
Context {R : Type} `{StepRowOps R}.
Variable Nb : nat.
Variable check_distinct : bool.

(** The rows a run pushes do not depend on what [Xc] holds already. *)
Lemma merge_with_app (a : R) (bs Xc : list R) :
  merge_with Nb check_distinct a bs Xc =
    (new ← merge_with Nb check_distinct a bs []; Ok (new ++ Xc)).
Proof.
  revert Xc. induction bs as [|b bs IH]; intros Xc; simpl; [done|].
  unfold merge_pair.
  destruct (negb check_distinct || DistinctIndices (row_indices a) (row_indices b)); simpl.
  - destruct (row_xor a b) as [c|e]; simpl; [|done].
    rewrite (IH (row_trim Nb c :: Xc)), (IH [row_trim Nb c]).
    destruct (merge_with Nb check_distinct a bs []) as [new|e]; simpl; [|done].
    by rewrite <- app_assoc.
  - apply IH.
Qed.

Lemma merge_run_app (run Xc : list R) :
  merge_run Nb check_distinct run Xc =
    (new ← merge_run Nb check_distinct run []; Ok (new ++ Xc)).
Proof.
  revert Xc. induction run as [|a run IH]; intros Xc; simpl; [done|].
  rewrite (merge_with_app a run Xc).
  destruct (merge_with Nb check_distinct a run []) as [new1|e]; simpl; [|done].
  rewrite (IH (new1 ++ Xc)), (IH new1).
  destruct (merge_run Nb check_distinct run []) as [new2|e]; simpl; [|done].
  by rewrite <- app_assoc.
Qed.

(** Rows stored so far followed by the rows still in [Xc]: the store
    loop moves rows from the second part to the first. *)
Lemma store_inplace_content (bound : nat) (X : list R) (pf : nat) (Xc : list R)
    (X' : list R) (pf' : nat) (Xc' : list R) :
  store_inplace bound X pf Xc = (X', pf', Xc') ->
  (bound <= length X)%nat ->
  take pf' X' ++ Xc' = take pf X ++ Xc.
Proof.
  revert X pf. induction Xc as [|c Xc IH]; intros X pf; simpl.
  - by intros [= <- <- <-].
  - destruct (Nat.ltb_spec pf bound) as [Hlt|Hge]; [|by intros [= <- <- <-]].
    intros Hs Hb. rewrite (IH _ _ Hs) by (by rewrite length_insert).
    rewrite (take_S_r _ _ c) by (apply list_lookup_insert_eq; lia).
    rewrite take_insert_ge by lia. by rewrite <- app_assoc.
Qed.

Lemma round_merges_short (fuel : nat) (Xs acc : list R) :
  (length Xs <= 1)%nat -> round_merges Nb check_distinct fuel Xs acc = Ok acc.
Proof.
  intros Hl. destruct Xs as [|x [|y Xs]]; simpl in Hl; try lia; by destruct fuel.
Qed.

Lemma round_merges_step (fuel : nat) (x y : R) (Xs acc : list R) :
  round_merges Nb check_distinct (S fuel) (x :: y :: Xs) acc =
    (let j := S (run_length Nb x (y :: Xs)) in
     acc' ← merge_run Nb check_distinct (take j (x :: y :: Xs)) acc;
     round_merges Nb check_distinct fuel (drop j (x :: y :: Xs)) acc').
Proof. reflexivity. Qed.

(** The scan and the list of merges run in step: what the scan has
    stored in the table and what it still holds in [Xc] are, together,
    the merges of the runs scanned so far. *)
Lemma scan_loop_merges (Xs : list R) (fuel : nat) (st : scan_state) (acc : list R) :
  scan_inv Xs st ->
  take (scan_posFree st) (scan_X st) ++ scan_Xc st ≡ₚ acc ->
  match scan_loop Nb check_distinct fuel st with
  | Ok st' =>
      exists M, round_merges Nb check_distinct fuel (drop (scan_i st) Xs) acc = Ok M /\
                take (scan_posFree st') (scan_X st') ++ scan_Xc st' ≡ₚ M /\
                scan_inv Xs st'
  | Fail e => round_merges Nb check_distinct fuel (drop (scan_i st) Xs) acc = Fail e
  end.
Proof.
  revert st acc. induction fuel as [|fuel IH]; intros st acc Hinv Hacc;
    pose proof Hinv as (Hlen & Hpos & Hdrop); cbn [scan_loop].
  - destruct (Nat.ltb_spec (scan_i st) (length (scan_X st) - 1)) as [Hg|Hg].
    + destruct (drop (scan_i st) Xs) as [|x [|y rest]] eqn:Hd; try done;
        apply (f_equal length) in Hd; rewrite length_drop in Hd; simpl in Hd; lia.
    + exists acc. split; [|done]. apply round_merges_short. rewrite length_drop. lia.
  - destruct (Nat.ltb_spec (scan_i st) (length (scan_X st) - 1)) as [Hg|Hg].
    + assert (Hframe : forall st1, scan_step Nb check_distinct st = Ok st1 ->
                                   scan_inv Xs st1).
      { intros st1 Hstep.
        by destruct (scan_step_frame Nb check_distinct Xs st st1 Hinv Hg Hstep). }
      destruct (drop (scan_i st) Xs) as [|x [|y rest]] eqn:Hd;
        try (apply (f_equal length) in Hd; rewrite length_drop in Hd; simpl in Hd; lia).
      assert (Hx : scan_X st !! scan_i st = Some x).
      { rewrite <- (Nat.add_0_r (scan_i st)), <- lookup_drop, Hdrop. done. }
      assert (Hrest : drop (S (scan_i st)) (scan_X st) = y :: rest).
      { replace (S (scan_i st)) with (scan_i st + 1)%nat by lia.
        rewrite <- drop_drop, Hdrop. done. }
      assert (Hlen' : length (x :: y :: rest) = (length Xs - scan_i st)%nat).
      { rewrite <- Hd. apply length_drop. }
      pose proof (run_length_le Nb x (y :: rest)) as Hrl.
      cbn [length] in Hlen', Hrl.
      rewrite round_merges_step. cbv zeta.
      revert Hframe. unfold scan_step. rewrite Hx, Hrest, Hdrop.
      set (j := S (run_length Nb x (y :: rest))).
      assert (Hdj : drop j (x :: y :: rest) = drop (scan_i st + j) Xs).
      { by rewrite <- Hd, drop_drop. }
      rewrite Hdj.
      rewrite (merge_run_app (take j (x :: y :: rest)) (scan_Xc st)).
      rewrite (merge_run_app (take j (x :: y :: rest)) acc).
      destruct (merge_run Nb check_distinct (take j (x :: y :: rest)) [])
        as [new|e]; [|done].
      cbn [mbind result_bind].
      destruct (store_inplace (scan_i st + j) (scan_X st) (scan_posFree st)
                  (new ++ scan_Xc st)) as [[X' pf'] Xc''] eqn:Hs.
      intros Hframe. specialize (Hframe _ eq_refl).
      pose proof (store_inplace_content _ _ _ _ _ _ _ Hs) as Hcont.
      specialize (IH {| scan_X := X'; scan_i := (scan_i st + j)%nat;
                        scan_posFree := pf'; scan_Xc := Xc'' |} (new ++ acc) Hframe).
      apply IH. cbn [scan_X scan_posFree scan_Xc].
      rewrite Hcont by (unfold j; lia).
      rewrite <- Hacc, !app_assoc. apply Permutation_app_tail, Permutation_app_comm.
    + exists acc. split; [|done]. apply round_merges_short. rewrite length_drop. lia.
Qed.

Lemma collision_round_merge_list (X X' : list R) :
  collision_round Nb check_distinct X = Ok X' ->
  exists M, round_merge_list Nb check_distinct (std_sort R row_lt X) = Ok M /\ X' ≡ₚ M.
Proof.
  unfold collision_round, round_merge_list.
  set (Xs := std_sort R row_lt X).
  assert (Hinit : scan_inv Xs (scan_init Xs)).
  { unfold scan_inv, scan_init. simpl. repeat split; lia. }
  pose proof (scan_loop_merges Xs (length Xs) (scan_init Xs) [] Hinit) as Hm.
  simpl in Hm. specialize (Hm (Permutation_refl _)).
  destruct (scan_loop Nb check_distinct (length Xs) (scan_init Xs)) as [st|e0]; simpl;
    [|done].
  destruct Hm as (M & HM & Hperm & (Hlen & Hpos & Hdrop)).
  destruct (store_inplace _ _ _ _) as [[X1 pf1] Xc1] eqn:Hs.
  intros [= <-]. exists M. split; [done|]. rewrite <- Hperm.
  rewrite <- (store_inplace_content _ _ _ _ _ _ _ Hs) by done.
  destruct (store_inplace_frame _ _ _ _ _ _ _ Hs) as (Hl & Hle & Hb & Hne & _).
  destruct Xc1 as [|c Xc1].
  - rewrite app_nil_r. destruct (Nat.ltb_spec pf1 (length X1)); [done|].
    by rewrite take_ge.
  - rewrite take_ge by (rewrite Hl; by apply Hne).
    apply Permutation_app_head. symmetry. apply Permutation_rev.
Qed.

(** X14: the table a collision round leaves holds the merges of the runs
    of the sorted table, each of them once and nothing else: the in-place
    compaction neither drops nor repeats a merged row, and keeps no row of
    the round before.  A round fails exactly when a merge of one of its
    runs fails. *)
Theorem collision_round_table_holds_the_merges (X : list R) :
  (forall X', collision_round Nb check_distinct X = Ok X' ->
     exists M, round_merge_list Nb check_distinct (std_sort R row_lt X) = Ok M /\
               X' ≡ₚ M) /\
  (forall e, collision_round Nb check_distinct X = Fail e ->
     round_merge_list Nb check_distinct (std_sort R row_lt X) = Fail e).
Proof.
  split; [apply collision_round_merge_list|].
  unfold collision_round, round_merge_list.
  set (Xs := std_sort R row_lt X).
  assert (Hinit : scan_inv Xs (scan_init Xs)).
  { unfold scan_inv, scan_init. simpl. repeat split; lia. }
  pose proof (scan_loop_merges Xs (length Xs) (scan_init Xs) [] Hinit) as Hm.
  simpl in Hm. specialize (Hm (Permutation_refl _)).
  destruct (scan_loop Nb check_distinct (length Xs) (scan_init Xs)) as [st|e0]; simpl.
  - intros e. by destruct (store_inplace _ _ _ _) as [[? ?] ?].
  - by intros e [= <-].
Qed.

(** **** No colliding pair is missed *)

Lemma memcmp_le_trans (a b c : list Z) :
  length a = length b -> length b = length c ->
  memcmp_lt b a = false -> memcmp_lt c b = false -> memcmp_lt c a = false.
Proof.
  revert b c. induction a as [|x a IH]; intros [|y b] [|z c]; simpl; try done.
  intros [= Hl1] [= Hl2].
  destruct (Z.ltb_spec y x), (Z.ltb_spec x y), (Z.ltb_spec z y), (Z.ltb_spec y z),
           (Z.ltb_spec z x), (Z.ltb_spec x z); try done; try lia.
  by apply IH.
Qed.

(** Between two buffers with the same first [l] bytes, in the order of
    [memcmp], there are only buffers with these first [l] bytes. *)
Lemma memcmp_lt_sandwich (a b c : list Z) (l : nat) :
  length a = length b -> length b = length c ->
  memcmp_lt b a = false -> memcmp_lt c b = false ->
  take l a = take l c -> take l b = take l a.
Proof.
  revert b c l. induction a as [|x a IH]; intros [|y b] [|z c] l; simpl; try done.
  intros [= Hl1] [= Hl2]. destruct l as [|l]; [done|]. simpl.
  destruct (Z.ltb_spec y x), (Z.ltb_spec x y), (Z.ltb_spec z y), (Z.ltb_spec y z);
    try done; try lia; intros Hba Hcb [= Hxz Htl]; try lia.
  f_equal; [lia|]. by apply (IH b c l).
Qed.

(** In a sorted table of rows with hashes of one length, a row is not
    less than any row before it. *)
Lemma sorted_rows_ordered (L : nat) (Xs : list R) :
  Forall (fun r => length (row_hash r) = L) Xs ->
  Sorted (fun a b => row_lt b a = false) Xs ->
  forall p q a b, (p < q)%nat -> Xs !! p = Some a -> Xs !! q = Some b ->
                  row_lt b a = false.
Proof.
  intros HL Hs. induction Hs as [|x l Hs IH Hhd]; intros p q a b Hpq Ha Hb; [done|].
  apply Forall_cons in HL as [Hx HL]. specialize (IH HL).
  destruct q as [|q]; [lia|]. simpl in Hb. destruct p as [|p].
  - simpl in Ha. injection Ha as <-.
    destruct Hhd as [|y l' Hxy]; [done|].
    destruct q as [|q]; [simpl in Hb; by injection Hb as <-|].
    assert (Hyb : row_lt b y = false) by (apply (IH 0%nat (S q)); [lia|done|done]).
    apply Forall_cons in HL as [Hy HL].
    assert (Hbl : length (row_hash b) = L).
    { by apply (proj1 (Forall_lookup _ _) HL q). }
    unfold row_lt in *. apply (memcmp_le_trans _ (row_hash y)); congruence.
  - simpl in Ha. apply (IH p q); [lia|done|done].
Qed.

Lemma run_length_stop (x : R) (rest : list R) (w : R) :
  rest !! run_length Nb x rest = Some w ->
  HasCollision (row_hash x) (row_hash w) Nb = false.
Proof.
  induction rest as [|y rest IH]; simpl; [done|].
  destruct (HasCollision (row_hash x) (row_hash y) Nb) eqn:Hc; simpl; [done|].
  by intros [= <-].
Qed.

Lemma merge_with_keeps (a : R) (bs Xc Xc' : list R) (r : R) :
  merge_with Nb check_distinct a bs Xc = Ok Xc' -> r ∈ Xc -> r ∈ Xc'.
Proof.
  rewrite merge_with_app.
  destruct (merge_with Nb check_distinct a bs []) as [new|]; simpl; [|done].
  intros [= <-] Hr. apply elem_of_app. by right.
Qed.

Lemma merge_run_keeps (run Xc Xc' : list R) (r : R) :
  merge_run Nb check_distinct run Xc = Ok Xc' -> r ∈ Xc -> r ∈ Xc'.
Proof.
  rewrite merge_run_app.
  destruct (merge_run Nb check_distinct run []) as [new|]; simpl; [|done].
  intros [= <-] Hr. apply elem_of_app. by right.
Qed.

Lemma round_merges_keeps (fuel : nat) (Xs acc M : list R) (r : R) :
  round_merges Nb check_distinct fuel Xs acc = Ok M -> r ∈ acc -> r ∈ M.
Proof.
  revert Xs acc. induction fuel as [|fuel IH]; intros [|x [|y rest]] acc;
    try (by intros [= <-]); try done.
  rewrite round_merges_step. cbv zeta.
  destruct (merge_run _ _ _ _) as [acc'|] eqn:Hrun; [|done].
  cbn [mbind result_bind]. intros HM Hr. apply (IH _ _ HM).
  by apply (merge_run_keeps _ _ _ _ Hrun).
Qed.

Lemma merge_with_member (a : R) (bs Xc Xc' : list R) (m : nat) (b : R) :
  merge_with Nb check_distinct a bs Xc = Ok Xc' ->
  bs !! m = Some b ->
  (check_distinct = true -> DistinctIndices (row_indices a) (row_indices b) = true) ->
  exists c, row_xor a b = Ok c /\ row_trim Nb c ∈ Xc'.
Proof.
  revert Xc m. induction bs as [|b0 bs IH]; intros Xc m; [done|].
  cbn [merge_with]. destruct (merge_pair Nb check_distinct a b0 Xc) as [Xc1|] eqn:Hp;
    [|done].
  cbn [mbind result_bind]. intros Hw Hb Hd. destruct m as [|m].
  - simpl in Hb. injection Hb as ->. revert Hp. unfold merge_pair.
    assert (Hcond : negb check_distinct
                    || DistinctIndices (row_indices a) (row_indices b) = true).
    { destruct check_distinct; [by rewrite Hd|done]. }
    rewrite Hcond. destruct (row_xor a b) as [c|]; [|done].
    cbn [mbind result_bind]. intros [= <-]. exists c. split; [done|].
    apply (merge_with_keeps _ _ _ _ _ Hw). by left.
  - by apply (IH Xc1 m).
Qed.

Lemma merge_run_member (run Xc Xc' : list R) (i j : nat) (a b : R) :
  merge_run Nb check_distinct run Xc = Ok Xc' ->
  (i < j)%nat -> run !! i = Some a -> run !! j = Some b ->
  (check_distinct = true -> DistinctIndices (row_indices a) (row_indices b) = true) ->
  exists c, row_xor a b = Ok c /\ row_trim Nb c ∈ Xc'.
Proof.
  revert Xc i j. induction run as [|a0 run IH]; intros Xc i j; [done|].
  cbn [merge_run]. destruct (merge_with Nb check_distinct a0 run Xc) as [Xc1|] eqn:Hw;
    [|done].
  cbn [mbind result_bind]. intros Hr Hij Ha Hb Hd.
  destruct j as [|j]; [lia|]. simpl in Hb. destruct i as [|i].
  - simpl in Ha. injection Ha as ->.
    destruct (merge_with_member _ _ _ _ _ _ Hw Hb Hd) as (c & Hc & Hin).
    exists c. split; [done|]. by apply (merge_run_keeps _ _ _ _ Hr).
  - simpl in Ha. apply (IH Xc1 i j); [done|lia|done|done|done].
Qed.

(** Two rows of the sorted table that collide lie in one run, and the
    run merges them. *)
Lemma round_merges_member (L fuel : nat) (Xs acc M : list R) (i j : nat) (a b : R) :
  Forall (fun r => length (row_hash r) = L) Xs ->
  (forall p q a b, (p < q)%nat -> Xs !! p = Some a -> Xs !! q = Some b ->
                   row_lt b a = false) ->
  round_merges Nb check_distinct fuel Xs acc = Ok M ->
  (i < j)%nat -> Xs !! i = Some a -> Xs !! j = Some b ->
  HasCollision (row_hash a) (row_hash b) Nb = true ->
  (check_distinct = true -> DistinctIndices (row_indices a) (row_indices b) = true) ->
  exists c, row_xor a b = Ok c /\ row_trim Nb c ∈ M.
Proof.
  revert Xs acc i j.
  induction fuel as [|fuel IH]; intros [|x [|y rest]] acc i j HL Hord;
    try (intros _ Hij Ha Hb; destruct j as [|[|j]]; simpl in *; (done || lia)); [done|].
  rewrite round_merges_step. cbv zeta.
  set (Xs := x :: y :: rest) in *.
  set (m := run_length Nb x (y :: rest)).
  destruct (merge_run Nb check_distinct (take (S m) Xs) acc) as [acc'|] eqn:Hrun; [|done].
  cbn [mbind result_bind]. intros HM Hij Ha Hb Hc Hd.
  destruct (decide (j < S m)%nat) as [Hin|Hout].
  - destruct (merge_run_member _ _ _ i j a b Hrun Hij) as (c & Hx & Hmem);
      [by rewrite lookup_take_lt by lia|by rewrite lookup_take_lt by lia|done|].
    exists c. split; [done|]. by apply (round_merges_keeps _ _ _ _ _ HM).
  - destruct (decide (S m <= i)%nat) as [Hi|Hi].
    + apply (IH (drop (S m) Xs) acc' (i - S m)%nat (j - S m)%nat); try done.
      * by apply Forall_drop.
      * intros p q a' b' Hpq. rewrite !lookup_drop. apply Hord. lia.
      * lia.
      * rewrite lookup_drop, <- Ha. f_equal. lia.
      * rewrite lookup_drop, <- Hb. f_equal. lia.
    + exfalso.
      assert (Hjlen : (j < length Xs)%nat) by (by eapply lookup_lt_Some).
      destruct (lookup_lt_is_Some_2 (y :: rest) m) as [w Hw];
        [unfold Xs in Hjlen; simpl in *; lia|].
      pose proof (run_length_stop x (y :: rest) w Hw) as Hstop.
      apply HasCollision_true in Hc.
      assert (Hax : take Nb (row_hash a) = take Nb (row_hash x)).
      { destruct i as [|i]; [simpl in Ha; by injection Ha as <-|].
        pose proof (run_length_collide Nb x (y :: rest)) as Hrun'.
        fold m in Hrun'.
        apply (proj1 (Forall_lookup _ _) Hrun' i a).
        rewrite lookup_take_lt by lia. exact Ha. }
      assert (Hlen : forall p r, Xs !! p = Some r -> length (row_hash r) = L).
      { intros p r. apply (proj1 (Forall_lookup _ _) HL). }
      assert (Hxw : row_lt w x = false).
      { apply (Hord 0%nat (S m)); [lia|done|exact Hw]. }
      assert (Hwb : take Nb (row_hash w) = take Nb (row_hash x)).
      { destruct (decide (j = S m)) as [->|Hne].
        - assert (w = b) by (simpl in Hb; congruence). subst w. congruence.
        - assert (Hwb' : row_lt b w = false).
          { apply (Hord (S m) j); [lia|exact Hw|done]. }
          unfold row_lt in *.
          apply (memcmp_lt_sandwich (row_hash x) (row_hash w) (row_hash b));
            try done.
          + rewrite (Hlen 0%nat x eq_refl). symmetry. by apply (Hlen (S m)).
          + rewrite (Hlen (S m) w Hw). symmetry. by apply (Hlen j).
          + congruence. }
      assert (Ht : HasCollision (row_hash x) (row_hash w) Nb = true).
      { by apply HasCollision_true. }
      congruence.
Qed.

(** X17: a collision round misses no pair.  When the rows of the table
    have hashes of one length and the sort leaves the table in the order
    of [operator<], any two rows that agree on their first
    [CollisionByteLength()] bytes (and, in [BasicSolve], have disjoint
    histories) are merged, and the trimmed merge is in the table the
    round leaves. *)
Theorem collision_round_merges_every_colliding_pair
    (L : nat) (X X' : list R) (i j : nat) (a b : R) :
  Forall (fun r => length (row_hash r) = L) X ->
  Sorted (fun a b => row_lt b a = false) (std_sort R row_lt X) ->
  collision_round Nb check_distinct X = Ok X' ->
  (i < j)%nat ->
  std_sort R row_lt X !! i = Some a ->
  std_sort R row_lt X !! j = Some b ->
  HasCollision (row_hash a) (row_hash b) Nb = true ->
  (check_distinct = true -> DistinctIndices (row_indices a) (row_indices b) = true) ->
  exists c, row_xor a b = Ok c /\ row_trim Nb c ∈ X'.
Proof.
  intros HL Hs Hround Hij Ha Hb Hc Hd.
  destruct (collision_round_merge_list X X' Hround) as (M & HM & Hperm).
  assert (HLs : Forall (fun r => length (row_hash r) = L) (std_sort R row_lt X)).
  { by rewrite std_sort_perm. }
  destruct (round_merges_member L _ _ _ _ i j a b HLs
              (sorted_rows_ordered L _ HLs Hs) HM Hij Ha Hb Hc Hd) as (c & Hx & Hin).
  exists c. split; [done|]. by rewrite Hperm.
Qed.

(** **** The final round *)

Lemma final_pairs_step (a b : R) (X : list R) :
  final_pairs (a :: b :: X) =
    (res ← row_xor a b;
     rest ← final_pairs (b :: X);
     Ok (if IsZero (row_hash res)
            && DistinctIndices (row_indices a) (row_indices b)
         then {[ row_indices res ]} ∪ rest else rest)).
Proof. reflexivity. Qed.

Lemma final_pairs_exact (Xs : list R) (sols : gset (list Z)) :
  final_pairs Xs = Ok sols ->
  forall sol, sol ∈ sols <->
    exists i a b c,
      Xs !! i = Some a /\ Xs !! S i = Some b /\
      row_xor a b = Ok c /\
      IsZero (row_hash c) = true /\
      DistinctIndices (row_indices a) (row_indices b) = true /\
      sol = row_indices c.
Proof.
  revert sols. induction Xs as [|a Xs IH]; intros sols.
  { intros [= <-] sol. split; [by intros ?%not_elem_of_empty|].
    by intros (i & a & b & c & Ha & _). }
  destruct Xs as [|b Xs].
  { intros [= <-] sol. split; [by intros ?%not_elem_of_empty|].
    by intros (i & a' & b & c & _ & Hb & _). }
  rewrite final_pairs_step.
  destruct (row_xor a b) as [c|] eqn:Hx; [|done]. cbn [mbind result_bind].
  destruct (final_pairs (b :: Xs)) as [rest|] eqn:Hrest; [|done].
  cbn [mbind result_bind]. specialize (IH rest eq_refl).
  intros [= <-] sol. split.
  - intros Hin.
    assert (Hcase : (IsZero (row_hash c)
                     && DistinctIndices (row_indices a) (row_indices b) = true
                     /\ sol = row_indices c) \/ sol ∈ rest).
    { destruct (IsZero (row_hash c) && DistinctIndices (row_indices a) (row_indices b));
        [|by right].
      apply elem_of_union in Hin as [->%elem_of_singleton|Hin]; [by left|by right]. }
    destruct Hcase as [[Hcond ->]|Hr].
    + apply andb_true_iff in Hcond as [Hz Hd]. by exists 0%nat, a, b, c.
    + apply IH in Hr as (i & a' & b' & c' & Ha & Hb & Hrest').
      by exists (S i), a', b', c'.
  - intros (i & a' & b' & c' & Ha & Hb & Hx' & Hz & Hd & ->). destruct i as [|i].
    + simpl in Ha, Hb. injection Ha as <-. injection Hb as <-.
      rewrite Hx in Hx'. injection Hx' as <-. rewrite Hz, Hd. simpl.
      apply elem_of_union. left. by apply elem_of_singleton.
    + assert (Hr : row_indices c' ∈ rest).
      { apply IH. by exists i, a', b', c'. }
      destruct (IsZero (row_hash c) && DistinctIndices (row_indices a) (row_indices b));
        [|done].
      apply elem_of_union. by right.
Qed.

(** X18: the final round returns exactly the merged histories of the
    pairs of rows that are next to each other in the sorted table, whose
    merged hash is zero and whose histories are disjoint; a pair of rows
    that are not neighbours is not examined. *)
Theorem final_round_examines_neighbours (X : list R) (sols : gset (list Z)) :
  final_round X = Ok sols ->
  forall sol, sol ∈ sols <->
    exists i a b c,
      std_sort R row_lt X !! i = Some a /\
      std_sort R row_lt X !! S i = Some b /\
      row_xor a b = Ok c /\
      IsZero (row_hash c) = true /\
      DistinctIndices (row_indices a) (row_indices b) = true /\
      sol = row_indices c.
Proof.
  unfold final_round. destruct (Nat.ltb_spec 1 (length X)) as [Hlen|Hlen].
  - apply final_pairs_exact.
  - intros [= <-] sol. split; [by intros ?%not_elem_of_empty|].
    intros (i & a & b & c & _ & Hb & _). apply lookup_lt_Some in Hb.
    rewrite std_sort_perm in Hb. lia.
Qed.

End RoundMerges.

(** *** The partial solutions of phase A *)







(** *** BasicSolve finds the solutions *)

(** The rows of [BasicSolve] are rows of nodes of trees. *)
Lemma tree_row_verified (n k : Z) (s : HashState) (r : nat) (x : BasicStepRow) :
  tree_row n k s r x -> verified_row n s (CollisionByteLength n k) r x.
Proof.
  induction 1 as [i Hi|r a b Ha IHa Hb IHb Hc Ho Hd]; [apply verified_row_leaf|].
  destruct (verified_row_merge n s _ r a b IHa IHb Hc) as (c & Hx & _ & Hv); [lia|done|].
  pose proof (tree_row_shape _ _ _ _ _ Ha) as (Ha1 & Ha2 & _).
  pose proof (tree_row_shape _ _ _ _ _ Hb) as (Hb1 & Hb2 & _).
  rewrite BasicStepRow_xor_ok in Hx by congruence.
  destruct (Z.ltb_spec (first_index (indices a)) (first_index (indices b))); [|lia].
  by injection Hx as <-.
Qed.

(** Conversely, the row of every node of a tree over indices below
    [init_size] is a row [BasicSolve] can hold. *)
Lemma tree_block_row (n k : Z) (s : HashState) (r : nat) (l : list Z) :
  tree_block n s (CollisionByteLength n k) r l ->
  Forall (fun i => 0 <= i < init_size n k) l ->
  tree_row n k s r (block_row n s (CollisionByteLength n k) r l).
Proof.
  revert l. induction r as [|r IH]; intros l Hl Hb.
  - destruct Hl as (Hlen & _). destruct l as [|i [|j l]]; simpl in Hlen; try lia.
    rewrite block_row_leaf. apply tree_leaf. by apply Forall_cons in Hb as [? _].
  - destruct (tree_block_split _ _ _ _ _ Hl)
      as (Hsplit & Hla & Hlb & Hord & Hd & Hc & _ & Hrow).
    rewrite <- Hrow.
    apply (tree_node n k s r (block_row n s (CollisionByteLength n k) r (take (2 ^ r) l))
                             (block_row n s (CollisionByteLength n k) r (drop (2 ^ r) l)));
      try done.
    + apply IH; [done|by apply Forall_take].
    + apply IH; [done|by apply Forall_drop].
Qed.

Lemma tree_block_prefix (n : Z) (s : HashState) (Nb r c : nat) (l : list Z) :
  tree_block n s Nb (r + c) l -> tree_block n s Nb r (take (2 ^ r) l).
Proof.
  revert l. induction c as [|c IH]; intros l Hl.
  - rewrite Nat.add_0_r in Hl. destruct Hl as (Hlen & ?). by rewrite take_ge by lia.
  - replace (r + S c)%nat with (S (r + c)) in Hl by lia.
    destruct (tree_block_split _ _ _ _ _ Hl) as (_ & Hla & _).
    apply IH in Hla. rewrite take_take in Hla.
    replace (2 ^ r `min` 2 ^ (r + c))%nat with (2 ^ r)%nat in Hla; [done|].
    assert (2 ^ r <= 2 ^ (r + c))%nat by (apply Nat.pow_le_mono_r; lia). lia.
Qed.

(** A round of [BasicSolve] merges every two rows of the table that pass
    the tests, in whichever order the sort has left them. *)
Lemma collision_round_tree_member (n k : Z) (s : HashState) (r : nat)
    (X X' : list BasicStepRow) (a b : BasicStepRow) :
  Sorted (fun a b => row_lt b a = false) (std_sort BasicStepRow row_lt X) ->
  Forall (tree_row n k s r) X ->
  collision_round (CollisionByteLength n k) true X = Ok X' ->
  a ∈ X -> b ∈ X ->
  HasCollision (hash a) (hash b) (CollisionByteLength n k) = true ->
  first_index (indices a) < first_index (indices b) ->
  DistinctIndices (indices a) (indices b) = true ->
  BasicStepRow_TrimHash (CollisionByteLength n k)
    {| hash := xor_bytes (hash a) (hash b); indices := indices a ++ indices b |} ∈ X'.
Proof.
  intros Hs HX Hround Ha Hb Hc Ho Hd.
  set (Nb := CollisionByteLength n k) in *.
  set (L := (Z.to_nat (n / 8) - r * Nb)%nat).
  assert (HL : Forall (fun x : BasicStepRow => length (row_hash x) = L)
                      (std_sort BasicStepRow row_lt X)).
  { rewrite std_sort_perm. eapply Forall_impl; [exact HX|].
    intros x Hx. by apply tree_row_shape in Hx as (? & _). }
  pose proof (proj1 (Forall_forall _ _) HX a Ha) as Hta.
  pose proof (proj1 (Forall_forall _ _) HX b Hb) as Htb.
  pose proof (tree_row_shape _ _ _ _ _ Hta) as (Ha1 & Ha2 & _).
  pose proof (tree_row_shape _ _ _ _ _ Htb) as (Hb1 & Hb2 & _).
  destruct (collision_round_merge_list Nb true X X' Hround) as (M & HM & Hperm).
  rewrite <- (std_sort_perm _ row_lt X) in Ha, Hb.
  apply list_elem_of_lookup in Ha as [i Hi]. apply list_elem_of_lookup in Hb as [j Hj].
  rewrite Hperm.
  destruct (Nat.lt_total i j) as [Hij|[->|Hji]].
  - destruct (round_merges_member Nb true L _ _ _ _ i j a b HL
                (sorted_rows_ordered L _ HL Hs) HM Hij Hi Hj Hc (fun _ => Hd))
      as (c & Hx & Hin).
    cbn [row_xor BasicStepRow_ops] in Hx.
    rewrite BasicStepRow_xor_ok in Hx by congruence.
    destruct (Z.ltb_spec (first_index (indices a)) (first_index (indices b))); [|lia].
    by injection Hx as <-.
  - rewrite Hi in Hj. injection Hj as <-. lia.
  - rewrite HasCollision_sym in Hc. rewrite DistinctIndices_sym in Hd.
    destruct (round_merges_member Nb true L _ _ _ _ j i b a HL
                (sorted_rows_ordered L _ HL Hs) HM Hji Hj Hi Hc (fun _ => Hd))
      as (c & Hx & Hin).
    cbn [row_xor BasicStepRow_ops] in Hx.
    rewrite BasicStepRow_xor_ok in Hx by congruence.
    destruct (Z.ltb_spec (first_index (indices b)) (first_index (indices a))); [lia|].
    by injection Hx as <-.
Qed.

(** After every round the table holds the row of every node of the
    round's height, of every tree over indices below [init_size]. *)
Lemma collision_rounds_complete (n k : Z) (s : HashState) (count r : nat)
    (X X' : list BasicStepRow) :
  (forall Y : list BasicStepRow,
     Sorted (fun a b => row_lt b a = false) (std_sort BasicStepRow row_lt Y)) ->
  Forall (tree_row n k s r) X ->
  (forall l, tree_block n s (CollisionByteLength n k) r l ->
             Forall (fun i => 0 <= i < init_size n k) l ->
             block_row n s (CollisionByteLength n k) r l ∈ X) ->
  collision_rounds (CollisionByteLength n k) true count X = Ok X' ->
  Forall (tree_row n k s (r + count)) X' /\
  (forall l, tree_block n s (CollisionByteLength n k) (r + count) l ->
             Forall (fun i => 0 <= i < init_size n k) l ->
             block_row n s (CollisionByteLength n k) (r + count) l ∈ X').
Proof.
  intros Hs. revert r X. induction count as [|count IH]; intros r X HX Hall.
  - simpl. intros [= <-]. by rewrite Nat.add_0_r.
  - cbn [collision_rounds]. destruct X as [|x X].
    + intros [= <-]. split; [constructor|]. intros l Hl Hb. exfalso.
      apply tree_block_prefix in Hl.
      apply (not_elem_of_nil (block_row n s (CollisionByteLength n k) r (take (2 ^ r) l))).
      apply Hall; [done|by apply Forall_take].
    + destruct (collision_round_tree n k s r _ HX) as (X1 & Hround & HX1).
      rewrite Hround. cbn [mbind result_bind]. intros Hrest.
      replace (r + S count)%nat with (S r + count)%nat by lia.
      apply (IH (S r) X1); [done| |done].
      intros l Hl Hb.
      destruct (tree_block_split _ _ _ _ _ Hl)
        as (Hsplit & Hla & Hlb & Hord & Hd & Hc & _ & Hrow).
      rewrite <- Hrow.
      apply (collision_round_tree_member n k s r (x :: X) X1
               (block_row n s (CollisionByteLength n k) r (take (2 ^ r) l))
               (block_row n s (CollisionByteLength n k) r (drop (2 ^ r) l)));
        try done.
      * apply Hall; [done|by apply Forall_take].
      * apply Hall; [done|by apply Forall_drop].
Qed.

(** Between an [a] and a later [b], in a list that holds nothing but
    [a] and [b] between them, some [a] is followed by a [b]. *)
Lemma neighbours_between {A : Type} (Xs : list A) (a b : A) (d i : nat) :
  Xs !! i = Some a -> Xs !! (i + S d)%nat = Some b ->
  (forall m x, (i < m < i + S d)%nat -> Xs !! m = Some x -> x = a \/ x = b) ->
  exists m, Xs !! m = Some a /\ Xs !! S m = Some b.
Proof.
  revert i. induction d as [|d IH]; intros i Ha Hb Hbetween.
  - exists i. split; [done|]. by rewrite Nat.add_1_r in Hb.
  - destruct (lookup_lt_is_Some_2 Xs (S i)) as [x Hx].
    { apply lookup_lt_Some in Hb. lia. }
    destruct (Hbetween (S i) x) as [->| ->]; [lia|done| |].
    + apply (IH (S i)); [done|by replace (S i + S d)%nat with (i + S (S d))%nat by lia|].
      intros m y Hm. apply Hbetween. lia.
    + by exists i.
Qed.

(** The final round finds a pair of rows with one hash when no third row
    of the table has this hash. *)
Lemma final_round_finds (n k : Z) (s : HashState) (r : nat)
    (X : list BasicStepRow) (a b : BasicStepRow) :
  Sorted (fun a b => row_lt b a = false) (std_sort BasicStepRow row_lt X) ->
  Forall (tree_row n k s r) X ->
  a ∈ X -> b ∈ X ->
  hash a = hash b ->
  first_index (indices a) < first_index (indices b) ->
  DistinctIndices (indices a) (indices b) = true ->
  (forall x, x ∈ X -> hash x = hash a -> x = a \/ x = b) ->
  exists sols, final_round X = Ok sols /\ indices a ++ indices b ∈ sols.
Proof.
  intros Hs HX Ha Hb Heq Ho Hd Honly.
  set (Xs := std_sort BasicStepRow row_lt X) in *.
  assert (HXs : Forall (tree_row n k s r) Xs) by (unfold Xs; by rewrite std_sort_perm).
  set (L := (Z.to_nat (n / 8) - r * CollisionByteLength n k)%nat).
  assert (HL : Forall (fun x : BasicStepRow => length (row_hash x) = L) Xs).
  { eapply Forall_impl; [exact HXs|].
    intros x Hx. by apply tree_row_shape in Hx as (? & _). }
  pose proof (proj1 (Forall_forall _ _) HX a Ha) as Hta.
  pose proof (proj1 (Forall_forall _ _) HX b Hb) as Htb.
  pose proof (tree_row_shape _ _ _ _ _ Hta) as (Ha1 & Ha2 & _).
  pose proof (tree_row_shape _ _ _ _ _ Htb) as (Hb1 & Hb2 & _).
  pose proof (sorted_rows_ordered L Xs HL Hs) as Hord.
  assert (Ha' : a ∈ Xs) by (unfold Xs; by rewrite std_sort_perm).
  assert (Hb' : b ∈ Xs) by (unfold Xs; by rewrite std_sort_perm).
  apply list_elem_of_lookup in Ha' as [i Hi]. apply list_elem_of_lookup in Hb' as [j Hj].
  assert (Hsame : forall p q m x, (p < m < q)%nat ->
            Xs !! p = Some a \/ Xs !! p = Some b ->
            Xs !! q = Some a \/ Xs !! q = Some b ->
            Xs !! m = Some x -> x = a \/ x = b).
  { intros p q m x Hm Hp Hq Hx.
    assert (Hxm : x ∈ X).
    { rewrite <- (std_sort_perm _ row_lt X). by eapply list_elem_of_lookup_2. }
    apply Honly; [done|].
    assert (exists xp xq, Xs !! p = Some xp /\ Xs !! q = Some xq /\
                          hash xp = hash a /\ hash xq = hash a)
      as (xp & xq & Hxp & Hxq & Hhp & Hhq).
    { destruct Hp as [Hp|Hp], Hq as [Hq|Hq]; eexists _, _;
        (split; [exact Hp|split; [exact Hq|split; congruence]]). }
    pose proof (Hord p m xp x ltac:(lia) Hxp Hx) as H1.
    pose proof (Hord m q x xq ltac:(lia) Hx Hxq) as H2.
    unfold row_lt in H1, H2. cbn [row_hash BasicStepRow_ops] in H1, H2.
    assert (HLx : length (hash x) = L).
    { by apply (proj1 (Forall_lookup _ _) HL m x). }
    assert (HLp : length (hash xp) = L) by (rewrite Hhp; exact Ha1).
    assert (HLq : length (hash xq) = L) by (rewrite Hhq; exact Ha1).
    pose proof (memcmp_lt_sandwich (hash xp) (hash x) (hash xq) L
                  ltac:(congruence) ltac:(congruence) H1 H2) as Hsw.
    rewrite !take_ge in Hsw by lia. rewrite Hsw; congruence. }
  assert (Hlen : (1 < length X)%nat).
  { assert (Hpl : length Xs = length X) by apply Permutation_length, std_sort_perm.
    assert (i <> j) by (intros ->; rewrite Hi in Hj; injection Hj as <-; lia).
    apply lookup_lt_Some in Hi, Hj. lia. }
  unfold final_round. destruct (Nat.ltb_spec 1 (length X)) as [_|?]; [|lia]. fold Xs.
  destruct (final_pairs_tree n k s r Xs HXs) as (sols & Hsols & _).
  exists sols. split; [done|].
  apply (final_pairs_exact Xs sols Hsols).
  destruct (Nat.lt_total i j) as [Hij|[->|Hji]].
  - destruct (neighbours_between Xs a b (j - i - 1) i) as (m & Hma & Hmb);
      [done|by replace (i + S (j - i - 1))%nat with j by lia| |].
    { intros m x Hm. apply (Hsame i j); auto. lia. }
    exists m, a, b, {| hash := xor_bytes (hash a) (hash b);
                        indices := indices a ++ indices b |}.
    split; [done|]. split; [done|]. split.
    { cbn [row_xor BasicStepRow_ops]. rewrite BasicStepRow_xor_ok by congruence.
      destruct (Z.ltb_spec (first_index (indices a)) (first_index (indices b)));
        [done|lia]. }
    split; [|done]. cbn [row_hash BasicStepRow_ops hash]. rewrite Heq.
    apply IsZero_Forall, xor_bytes_self_zero.
  - rewrite Hi in Hj. injection Hj as <-. lia.
  - destruct (neighbours_between Xs b a (i - j - 1) j) as (m & Hmb & Hma);
      [done|by replace (j + S (i - j - 1))%nat with i by lia| |].
    { intros m x Hm Hx. destruct (Hsame j i m x) as [->| ->]; auto. lia. }
    exists m, b, a, {| hash := xor_bytes (hash a) (hash b);
                        indices := indices a ++ indices b |}.
    split; [done|]. split; [done|]. split.
    { cbn [row_xor BasicStepRow_ops]. rewrite BasicStepRow_xor_ok by congruence.
      destruct (Z.ltb_spec (first_index (indices b)) (first_index (indices a)));
        [lia|done]. }
    split; [|split; [by rewrite DistinctIndices_sym|done]].
    cbn [row_hash BasicStepRow_ops hash]. rewrite Heq.
    apply IsZero_Forall, xor_bytes_self_zero.
Qed.

(** X19: [BasicSolve] finds every solution that stands alone in the
    final round.  Let [std::sort] leave every table in the order of
    [operator<], let [k >= 1], and let the verifier accept a candidate
    whose indices are below 2^(N+1).  If the two halves of the candidate
    are the only trees of height [k-1] over indices below 2^(N+1) whose
    row has the hash of the row of the left half, then the candidate is
    in the set [BasicSolve] returns.  (The final round compares
    neighbours only: among three or more rows with one hash it examines
    the pairs the sort has put next to each other.) *)
Theorem BasicSolve_finds_isolated_solutions (n k : Z) (s : HashState) (soln : list Z) :
  1 <= k -> CollisionBitLength n k + 1 < 32 ->
  (forall Y : list BasicStepRow,
     Sorted (fun a b => row_lt b a = false) (std_sort BasicStepRow row_lt Y)) ->
  IsValidSolution n k s soln = Ok true ->
  Forall (fun i => 0 <= i < 2 ^ (CollisionBitLength n k + 1)) soln ->
  (forall l,
     tree_block n s (CollisionByteLength n k) (Z.to_nat (k - 1)) l ->
     Forall (fun i => 0 <= i < 2 ^ (CollisionBitLength n k + 1)) l ->
     hash (block_row n s (CollisionByteLength n k) (Z.to_nat (k - 1)) l) =
       hash (block_row n s (CollisionByteLength n k) (Z.to_nat (k - 1))
               (take (2 ^ Z.to_nat (k - 1)) soln)) ->
     l = take (2 ^ Z.to_nat (k - 1)) soln \/ l = drop (2 ^ Z.to_nat (k - 1)) soln) ->
  exists sols, BasicSolve n k s = Ok sols /\ soln ∈ sols.
Proof.
  intros Hk HN Hs Hvalid Hbound Honly.
  rewrite <- init_size_pow in Hbound.
  assert (Honly' : forall l,
     tree_block n s (CollisionByteLength n k) (Z.to_nat (k - 1)) l ->
     Forall (fun i => 0 <= i < init_size n k) l ->
     hash (block_row n s (CollisionByteLength n k) (Z.to_nat (k - 1)) l) =
       hash (block_row n s (CollisionByteLength n k) (Z.to_nat (k - 1))
               (take (2 ^ Z.to_nat (k - 1)) soln)) ->
     l = take (2 ^ Z.to_nat (k - 1)) soln \/ l = drop (2 ^ Z.to_nat (k - 1)) soln).
  { intros l Hl Hb. apply Honly; [done|]. by rewrite <- init_size_pow. }
  clear Honly.
  set (Nb := CollisionByteLength n k) in *. set (r := Z.to_nat (k - 1)) in *.
  destruct (IsValidSolution_true_inv n k s soln Hvalid) as (Hsize & Hnd & Htree & Hzero).
  replace (Z.to_nat k) with (S r) in Htree by lia.
  assert (Hblock : tree_block n s Nb (S r) soln).
  { split; [|done]. apply Nat2Z.inj. rewrite Hsize, Nat2Z.inj_pow. f_equal. lia. }
  destruct (tree_block_split _ _ _ _ _ Hblock)
    as (Hsplit & Hla & Hlb & Hord & Hd & _ & Hlen & _).
  set (la := take (2 ^ r) soln) in *. set (lb := drop (2 ^ r) soln) in *.
  assert (Hbla : Forall (fun i => 0 <= i < init_size n k) la) by (by apply Forall_take).
  assert (Hblb : Forall (fun i => 0 <= i < init_size n k) lb) by (by apply Forall_drop).
  assert (Heq : hash (block_row n s Nb r la) = hash (block_row n s Nb r lb)).
  { simpl. f_equal. apply xor_bytes_zero_eq.
    - by rewrite !length_leaves_xor.
    - rewrite <- leaves_xor_app, <- Hsplit, Hzero. by apply Forall_replicate. }
  unfold BasicSolve.
  destruct (Z.ltb_spec (CollisionBitLength n k + 1) 32) as [_|?]; [|lia].
  cbn [negb]. fold Nb r.
  set (X0 := map (BasicStepRow_new n s) (seqZ 0 (init_size n k))).
  assert (HX0 : Forall (tree_row n k s 0) X0).
  { apply Forall_map, Forall_forall. intros i Hi%elem_of_seqZ. apply tree_leaf. lia. }
  destruct (collision_rounds_tree n k s r 0 X0 HX0) as (X1 & Hrounds & _).
  fold Nb in Hrounds. rewrite Hrounds. cbn [mbind result_bind].
  destruct (collision_rounds_complete n k s r 0 X0 X1 Hs HX0) as (HX1 & Hall); [|done|].
  { intros l (Hl & _) Hb. destruct l as [|i [|j l]]; simpl in Hl; try lia.
    rewrite block_row_leaf. apply list_elem_of_In, in_map, list_elem_of_In.
    apply elem_of_seqZ. apply Forall_cons in Hb as [? _]. lia. }
  simpl in HX1, Hall.
  destruct (final_round_finds n k s r X1 (block_row n s Nb r la) (block_row n s Nb r lb)
              (Hs X1) HX1 (Hall la Hla Hbla) (Hall lb Hlb Hblb) Heq Hord Hd)
    as (sols & Hsols & Hin).
  - intros x Hx Hhx.
    pose proof (proj1 (Forall_forall _ _) HX1 x Hx) as Htx.
    pose proof (tree_row_shape _ _ _ _ _ Htx) as (_ & _ & _ & Hbx).
    destruct (tree_row_verified _ _ _ _ _ Htx) as (Hblk & Hrow).
    fold Nb in Hblk, Hrow. rewrite Hrow in Hhx |- *.
    destruct (Honly' (indices x) Hblk Hbx Hhx) as [-> | ->]; [by left|by right].
  - exists sols. split; [done|]. by rewrite Hsplit.
Qed.

End Model.

(** ** The concrete sort meets the contract, the concrete digest its length *)

Lemma merge_std_sort_perm (A : Type) (lt : A -> A -> bool) (l : list A) :
  merge_std_sort A lt l ≡ₚ l.
Proof. unfold merge_std_sort. apply merge_sort_Permutation. Qed.

Lemma Sorted_weaken {A} (R1 R2 : relation A) (l : list A) :
  (forall x y, R1 x y -> R2 x y) -> Sorted R1 l -> Sorted R2 l.
Proof.
  intros HR. induction 1 as [|x l Hs IH Hhd]; constructor; [done|].
  destruct Hhd; constructor; auto.
Qed.

Lemma merge_std_sort_sorted (l : list Z) : Sorted Z.le (merge_std_sort Z Z.ltb l).
Proof.
  unfold merge_std_sort.
  assert (Htot : Total (fun a b : Z => (b <? a) = false)).
  { intros a b. destruct (Z.ltb_spec b a), (Z.ltb_spec a b); auto; lia. }
  eapply Sorted_weaken; [|apply (Sorted_merge_sort _)].
  intros a b Hab. simpl in Hab. by apply Z.ltb_ge in Hab.
Qed.

Lemma length_be_bytes (len : nat) (v : Z) : length (be_bytes len v) = len.
Proof.
  revert v. induction len as [|len IH]; intros v; simpl; [done|].
  rewrite length_app, IH. simpl. lia.
Qed.

Lemma demo_digest_length (s : unit) (i : Z) (len : nat) : length (demo_digest s i len) = len.
Proof. apply length_be_bytes. Qed.

(** BLAKE2b gives the digest length asked for, up to 64 bytes; there the
    padded digest is the BLAKE2b digest. *)
Lemma length_le_bytes (len : nat) (w : Z) : length (Blake2b.le_bytes len w) = len.
Proof. revert w. induction len as [|len IH]; intros w; simpl; [done|]. by rewrite IH. Qed.

Lemma blake2b_digest_length (s : Blake2b.state) (i : Z) (len : nat) :
  (len <= 64)%nat -> length (blake2b_digest s i len) = len.
Proof.
  intros Hlen. unfold blake2b_digest, Blake2b.final.
  rewrite length_take.
  match goal with |- context [Blake2b.compress ?h ?m ?t ?l] =>
    generalize (eq_refl : length (Blake2b.compress h m t l) = 8%nat);
    generalize (Blake2b.compress h m t l) end.
  intros h Hh.
  assert (Hc : forall ws : list Blake2b.w64,
             length (concat (map (fun w => Blake2b.le_bytes 8 (Blake2b.to_Z64 w)) ws))
             = (8 * length ws)%nat).
  { induction ws as [|w ws IH]; [done|].
    cbn [map concat]. rewrite length_app, IH, length_le_bytes. simpl. lia. }
  rewrite Hc, Hh. lia.
Qed.

Lemma blake2b_digest_padded_eq (s : Blake2b.state) (i : Z) (len : nat) :
  (len <= 64)%nat -> blake2b_digest_padded s i len = blake2b_digest s i len.
Proof.
  intros Hlen. unfold blake2b_digest_padded.
  rewrite <- (blake2b_digest_length s i len Hlen) at 1.
  apply take_app_length.
Qed.

Lemma blake2b_digest_padded_length (s : Blake2b.state) (i : Z) (len : nat) :
  length (blake2b_digest_padded s i len) = len.
Proof.
  unfold blake2b_digest_padded.
  rewrite length_take, length_app, length_replicate. lia.
Qed.

Lemma merge_std_sort_rev_perm (A : Type) (lt : A -> A -> bool) (l : list A) :
  merge_std_sort_rev A lt l ≡ₚ l.
Proof.
  unfold merge_std_sort_rev. rewrite merge_std_sort_perm.
  symmetry. apply Permutation_rev.
Qed.

Lemma merge_std_sort_rev_sorted (l : list Z) : Sorted Z.le (merge_std_sort_rev Z Z.ltb l).
Proof. apply merge_std_sort_sorted. Qed.

(** The concrete sort leaves a table of rows in the order of
    [operator<]. *)
Lemma memcmp_lt_asym (ha hb : list Z) :
  memcmp_lt ha hb = true -> memcmp_lt hb ha = false.
Proof.
  revert hb. induction ha as [|x ha IH]; intros [|y hb]; simpl; try done.
  destruct (Z.ltb_spec x y), (Z.ltb_spec y x); try done; try lia. apply IH.
Qed.

Lemma merge_std_sort_rows_sorted (Y : list BasicStepRow) :
  Sorted (fun a b => row_lt b a = false) (merge_std_sort BasicStepRow row_lt Y).
Proof.
  unfold merge_std_sort.
  assert (Htot : Total (fun a b : BasicStepRow => row_lt b a = false)).
  { intros a b. destruct (row_lt b a) eqn:Hba; [|by left]. right.
    by apply memcmp_lt_asym. }
  apply (Sorted_merge_sort _).
Qed.

(** ** The model at states the program can be given *)

(** The implementation of BLAKE2b above computes the digest of "abc" of
    RFC 7693, appendix A. *)
Lemma Blake2b_abc :
  Blake2b.final (Blake2b.update (Blake2b.init_personal 64 (repeat 0 16)) [97; 98; 99]) 64 =
  [186; 128; 165; 63; 152; 28; 77; 13; 106; 39; 151; 182; 159; 18; 246; 233;
   76; 33; 47; 20; 104; 90; 196; 183; 75; 18; 187; 111; 219; 255; 162; 209;
   125; 135; 197; 57; 42; 171; 121; 45; 194; 82; 213; 222; 69; 51; 204; 149;
   24; 211; 138; 168; 219; 241; 146; 90; 185; 35; 134; 237; 212; 0; 153; 35].
Proof. vm_compute. reflexivity. Qed.

(** C1, at [Equihash(16, 1)] and the base state that [InitialiseState]
    gives, updated with the four bytes 4a 00 00 00: the set
    [OptimisedSolve] returns holds the index vector (20, 20), whichever way
    the sort orders rows with equal hashes, and [IsValidSolution] returns
    false on it.  Phase B merges rows of the left list with rows of the
    same list ([X[v][jChecked+m]]), builds its lists from the leaves of
    [p << 2] and inserts every row of the last list without a test of its
    hash. *)
Theorem OptimisedSolve_returns_rejected_solution :
  let s := Blake2b.update (InitialiseState 16 1) [74; 0; 0; 0] in
  Equihash_new 16 1 = Ok {| eh_n := 16; eh_k := 1 |} /\
  OptimisedSolve Blake2b.state blake2b_digest merge_std_sort 16 1 s = Ok {[ [20; 20] ]} /\
  OptimisedSolve Blake2b.state blake2b_digest merge_std_sort_rev 16 1 s = Ok {[ [20; 20] ]} /\
  IsValidSolution Blake2b.state blake2b_digest merge_std_sort 16 1 s [20; 20] = Ok false.
Proof. repeat split; vm_compute; reflexivity. Qed.

(** C9, at [Equihash(32, 3)] and the base state that [InitialiseState]
    gives, updated with the four bytes d8 4e 03 00.  Phase A yields two
    partial solutions.  For (16, 215, 18, 40, 25, 83, 46, 179) the first
    pass of phase B leaves the lists [], [], one row and two rows; at the
    second pass the cross-merge of the last two finds [i = 1] and
    [j = 2] at [iChecked = 0], [jChecked = 0], the test of step 2c holds
    for [l = 0], [m = 1], and the row pushed is
    [X[v][iChecked+l] ^ X[v][jChecked+m]]: it reads [X[v][1]] in a vector
    of one row.  The loop has no defined behaviour from there on,
    whichever way the sort orders rows with equal hashes, and neither has
    [OptimisedSolve]; two of the lists are empty, and the partial solution
    does not end with zero solutions. *)
Theorem cross_merge_reads_past_left_list :
  let s := Blake2b.update (InitialiseState 32 3) [216; 78; 3; 0] in
  let p := [16; 215; 18; 40; 25; 83; 46; 179] in
  let a := {| hash := [0; 0; 0]; indices := [100; 100] |} in
  let b := {| hash := [0; 0; 0]; indices := [185; 185] |} in
  let c := {| hash := [0; 0; 0]; indices := [184; 184] |} in
  Equihash_new 32 3 = Ok {| eh_n := 32; eh_k := 3 |} /\
  PartialSolve Blake2b.state blake2b_digest merge_std_sort 32 3 s
    = Ok {[ [6; 130; 38; 186; 88; 104; 143; 207]; p ]} /\
  PartialSolve Blake2b.state blake2b_digest merge_std_sort_rev 32 3 s
    = Ok {[ [6; 130; 38; 186; 88; 104; 143; 207]; p ]} /\
  (X ← mapM_result (recreate_list Blake2b.state blake2b_digest 32 3 s) p;
   recreate_levels merge_std_sort 1 1 X) = Ok [[]; []; [a]; [b; c]] /\
  (X ← mapM_result (recreate_list Blake2b.state blake2b_digest 32 3 s) p;
   recreate_levels merge_std_sort_rev 1 1 X) = Ok [[]; []; [a]; [b; c]] /\
  HasCollision (hash a) (hash b) 1 = true /\
  HasCollision (hash a) (hash c) 1 = true /\
  DistinctIndices merge_std_sort (indices a) (indices b) = true /\
  DistinctIndices merge_std_sort (indices a) (indices c) = true /\
  [a] !! 1%nat = None /\
  (forall ic, cross_emit merge_std_sort 1 [a] [b; c] 0 0 ic 0 1
                = Fail UndefinedBehaviour) /\
  cross_merge merge_std_sort 1 [a] [b; c] = Fail UndefinedBehaviour /\
  cross_merge merge_std_sort 1 [a] [c; b] = Fail UndefinedBehaviour /\
  recreate Blake2b.state blake2b_digest merge_std_sort 32 3 s p
    = Fail UndefinedBehaviour /\
  recreate Blake2b.state blake2b_digest merge_std_sort_rev 32 3 s p
    = Fail UndefinedBehaviour /\
  OptimisedSolve Blake2b.state blake2b_digest merge_std_sort 32 3 s
    = Fail UndefinedBehaviour /\
  OptimisedSolve Blake2b.state blake2b_digest merge_std_sort_rev 32 3 s
    = Fail UndefinedBehaviour.
Proof. repeat split; try intros ic; vm_compute; reflexivity. Qed.

(** C2, at [Equihash(16, 1)] and the base state as [InitialiseState]
    gives it: [BasicSolve] returns the two solutions (117, 362) and
    (132, 458), [OptimisedSolve] the empty set, whichever way the sort
    orders rows with equal hashes. *)
Theorem BasicSolve_OptimisedSolve_differ :
  let s := InitialiseState 16 1 in
  BasicSolve Blake2b.state blake2b_digest merge_std_sort 16 1 s
    = Ok {[ [117; 362]; [132; 458] ]} /\
  OptimisedSolve Blake2b.state blake2b_digest merge_std_sort 16 1 s = Ok ∅ /\
  BasicSolve Blake2b.state blake2b_digest merge_std_sort_rev 16 1 s
    = Ok {[ [117; 362]; [132; 458] ]} /\
  OptimisedSolve Blake2b.state blake2b_digest merge_std_sort_rev 16 1 s = Ok ∅ /\
  BasicSolve Blake2b.state blake2b_digest merge_std_sort 16 1 s
    <> OptimisedSolve Blake2b.state blake2b_digest merge_std_sort 16 1 s.
Proof.
  intros s.
  assert (HB : BasicSolve Blake2b.state blake2b_digest merge_std_sort 16 1 s
               = Ok {[ [117; 362]; [132; 458] ]}) by (vm_compute; reflexivity).
  assert (HO : OptimisedSolve Blake2b.state blake2b_digest merge_std_sort 16 1 s = Ok ∅)
    by (vm_compute; reflexivity).
  split; [done|]. split; [done|].
  split; [vm_compute; reflexivity|]. split; [vm_compute; reflexivity|].
  rewrite HB, HO. intros E.
  assert (Hin : [117; 362] ∈ (∅ : gset (list Z))).
  { assert (E' : ({[ [117; 362]; [132; 458] ]} : gset (list Z)) = ∅) by congruence.
    rewrite <- E'. apply elem_of_union. left. by apply elem_of_singleton. }
  by apply not_elem_of_empty in Hin.
Qed.

(** C8, at [Equihash(8, 0)], parameters that construction accepts, and
    the base state as [InitialiseState] gives it: the set [BasicSolve]
    returns holds (144, 451), a vector of two indices and not of 2^0 = 1,
    whichever way the sort orders rows with equal hashes, and
    [IsValidSolution] returns false on it. *)
Theorem BasicSolve_k0_returns_pairs :
  let s := InitialiseState 8 0 in
  Equihash_new 8 0 = Ok {| eh_n := 8; eh_k := 0 |} /\
  (exists sols, BasicSolve Blake2b.state blake2b_digest merge_std_sort 8 0 s = Ok sols /\
                [144; 451] ∈ sols) /\
  (exists sols, BasicSolve Blake2b.state blake2b_digest merge_std_sort_rev 8 0 s = Ok sols /\
                [144; 451] ∈ sols) /\
  Z.of_nat (length [144; 451]) <> 2 ^ 0 /\
  IsValidSolution Blake2b.state blake2b_digest merge_std_sort 8 0 s [144; 451] = Ok false.
Proof.
  intros s. split; [reflexivity|].
  assert (Hmem : forall sort,
            match BasicSolve Blake2b.state blake2b_digest sort 8 0 s with
            | Ok sols => bool_decide ([144; 451] ∈ sols)
            | Fail _ => false
            end = true ->
            exists sols, BasicSolve Blake2b.state blake2b_digest sort 8 0 s = Ok sols /\
                         [144; 451] ∈ sols).
  { intros sort E.
    destruct (BasicSolve Blake2b.state blake2b_digest sort 8 0 s) as [sols|]; [|done].
    exists sols. split; [done|]. by apply bool_decide_eq_true_1 in E. }
  split; [apply Hmem; vm_compute; reflexivity|].
  split; [apply Hmem; vm_compute; reflexivity|].
  split; [done|vm_compute; reflexivity].
Qed.

(** ** Instances of the theorems with hypotheses *)

Lemma IsValidSolution_rejects_misordered_pair_witness :
  ~ first_index [2] < first_index [0] /\
  IsValidSolution unit demo_digest merge_std_sort 16 1 tt [2; 0] = Ok false.
Proof.
  split; [simpl; lia|].
  apply (IsValidSolution_rejects_misordered_pair unit demo_digest merge_std_sort
           demo_digest_length merge_std_sort_perm merge_std_sort_sorted
           16 1 tt [2; 0] 0
           (map (BasicStepRow_new unit demo_digest 16 tt) [2; 0]) 0
           (BasicStepRow_new unit demo_digest 16 tt 2)
           (BasicStepRow_new unit demo_digest 16 tt 0));
    [lia|reflexivity|reflexivity|reflexivity|reflexivity|simpl; lia].
Defined.

Lemma compaction_never_overwrites_unscanned_rows_witness :
  let Xs := map (BasicStepRow_new unit demo_digest 16 tt) [0; 2; 4; 1] in
  exists st', scan_step merge_std_sort 1 true (scan_init Xs) = Ok st' /\
              scan_reach merge_std_sort 1 true Xs st' /\
              (scan_posFree st' <= scan_i st')%nat /\
              drop (scan_i st') (scan_X st') = drop (scan_i st') Xs.
Proof.
  intros Xs.
  assert (E : exists st', scan_step merge_std_sort 1 true (scan_init Xs) = Ok st')
    by (eexists; reflexivity).
  destruct E as [st' E]. exists st'. split; [exact E|].
  assert (Hg : (scan_i (scan_init Xs) < length (scan_X (scan_init Xs)) - 1)%nat)
    by (simpl; lia).
  assert (Hr : scan_reach merge_std_sort 1 true Xs st').
  { eapply scan_reach_step; [apply scan_reach_init|exact Hg|exact E]. }
  split; [exact Hr|].
  destruct (compaction_never_overwrites_unscanned_rows merge_std_sort 1 true Xs st' Hr)
    as (Hpos & _ & Hdrop & _).
  split; [lia|exact Hdrop].
Defined.

Lemma DistinctIndices_decides_disjointness_witness :
  [3; 1] <> [] /\
  (DistinctIndices merge_std_sort [3; 1] [1; 4] = false <->
     exists x, x ∈ [3; 1] /\ x ∈ [1; 4]) /\
  DistinctIndices merge_std_sort [3; 1] [2; 4] = DistinctIndices merge_std_sort [2; 4] [3; 1].
Proof.
  assert (Hne : [3; 1] <> ([] : list Z)) by discriminate.
  split; [exact Hne|].
  destruct (DistinctIndices_decides_disjointness merge_std_sort
              merge_std_sort_perm merge_std_sort_sorted [3; 1] [1; 4] Hne)
    as (_ & Hfalse & _).
  split; [exact Hfalse|].
  destruct (DistinctIndices_decides_disjointness merge_std_sort
              merge_std_sort_perm merge_std_sort_sorted [3; 1] [2; 4] Hne)
    as (_ & _ & Hsym).
  apply Hsym. discriminate.
Defined.

Lemma HasCollision_loop_compares_prefixes_witness :
  HasCollision_loop [1; 2; 3] [1; 2; 4] 2 = Ok (HasCollision [1; 2; 3] [1; 2; 4] 2) /\
  HasCollision_loop [1; 2; 3] [1; 2] 3 = Fail UndefinedBehaviour.
Proof.
  split.
  - apply (proj1 (HasCollision_loop_compares_prefixes [1; 2; 3] [1; 2; 4] 2)); simpl; lia.
  - apply (proj2 (HasCollision_loop_compares_prefixes [1; 2; 3] [1; 2] 3)). simpl. lia.
Defined.

Lemma IsZero_of_merge_iff_equal_hashes_witness :
  exists c,
    BasicStepRow_xor {| hash := [1; 2]; indices := [7] |}
                     {| hash := [1; 2]; indices := [5] |} = Ok c /\
    (IsZero (hash c) = true <-> [1; 2] = [1; 2]).
Proof.
  apply (IsZero_of_merge_iff_equal_hashes
           {| hash := [1; 2]; indices := [7] |}
           {| hash := [1; 2]; indices := [5] |} eq_refl eq_refl).
Defined.

Lemma TrimHash_after_merge_witness :
  let a := {| hash := [1; 2; 3]; indices := [7] |} in
  let b := {| hash := [1; 6; 5]; indices := [5] |} in
  (c ← BasicStepRow_xor a b; Ok (BasicStepRow_TrimHash 1 c)) =
    BasicStepRow_xor (BasicStepRow_TrimHash 1 a) (BasicStepRow_TrimHash 1 b) /\
  BasicStepRow_TrimHash 1 (BasicStepRow_TrimHash 1 a) = BasicStepRow_TrimHash 2 a.
Proof.
  intros a b.
  destruct (TrimHash_after_merge 1 1 a b eq_refl eq_refl) as (H1 & H2 & _);
    [simpl; lia|].
  split; [exact H1|exact H2].
Defined.

Lemma BasicStepRow_xor_operand_order_witness :
  BasicStepRow_xor {| hash := [1; 2]; indices := [7] |}
                   {| hash := [3; 6]; indices := [5] |} =
  BasicStepRow_xor {| hash := [3; 6]; indices := [5] |}
                   {| hash := [1; 2]; indices := [7] |}.
Proof.
  apply (proj1 (BasicStepRow_xor_operand_order
                  {| hash := [1; 2]; indices := [7] |}
                  {| hash := [3; 6]; indices := [5] |})).
  simpl. lia.
Defined.

Lemma row_order_strict_and_total_witness :
  memcmp_lt [1; 2] [1; 2] = false /\
  (memcmp_lt [1; 2] [1; 3] = true -> memcmp_lt [1; 3] [2; 0] = true ->
   memcmp_lt [1; 2] [2; 0] = true) /\
  (memcmp_eq [1; 2] [1; 3] = true <-> [1; 2] = [1; 3]).
Proof.
  destruct (row_order_strict_and_total [1; 2] [1; 3] [2; 0] eq_refl eq_refl)
    as (H1 & _ & H3 & H4 & _).
  split; [exact H1|]. split; [exact H3|exact H4].
Defined.

Lemma TruncatedStepRow_new_keeps_top_byte_witness :
  exists r,
    TruncatedStepRow_new unit demo_digest 16 tt (Z.lor (Z.shiftl 3 (9 - 8)) 1) 9 = Ok r /\
    tindices r = [3].
Proof.
  destruct (TruncatedStepRow_new_keeps_top_byte unit demo_digest 16 tt 9 3 1)
    as [Htop _]; [lia|lia|split; [lia|reflexivity]|exact Htop].
Defined.

Lemma accepted_params_geometry_witness :
  8 <= CollisionBitLength 96 5 /\
  (1 <= CollisionByteLength 96 5)%nat /\
  ((Z.to_nat 5 + 1) * CollisionByteLength 96 5 <= Z.to_nat (96 / 8))%nat.
Proof.
  destruct (accepted_params_geometry 96 5 {| eh_n := 96; eh_k := 5 |})
    as (_ & _ & _ & H1 & _ & H2 & H3); [lia|lia|reflexivity|].
  split; [exact H1|]. split; [exact H2|exact H3].
Defined.

Lemma Equihash_new_in_range_witness :
  params_invariant 96 5 /\ Equihash_new 96 5 = Ok {| eh_n := 96; eh_k := 5 |}.
Proof.
  assert (Hinv : params_invariant 96 5).
  { unfold params_invariant. split; [lia|]. split; reflexivity. }
  split; [exact Hinv|].
  apply (proj2 (Equihash_new_in_range 96 5 ltac:(lia) ltac:(lia))). exact Hinv.
Defined.

Lemma BasicSolve_rows_hold_collision_bytes_witness :
  let a := BasicStepRow_new unit demo_digest 16 tt 0 in
  let b := BasicStepRow_new unit demo_digest 16 tt 2 in
  (2 * CollisionByteLength 16 1 <= length (hash a))%nat /\
  HasCollision_loop (hash a) (hash b) (CollisionByteLength 16 1)
    = Ok (HasCollision (hash a) (hash b) (CollisionByteLength 16 1)).
Proof.
  intros a b.
  destruct (BasicSolve_rows_hold_collision_bytes unit demo_digest merge_std_sort
              demo_digest_length merge_std_sort_perm merge_std_sort_sorted
              16 1 tt {| eh_n := 16; eh_k := 1 |} 0 a b)
    as (H1 & _ & H2); [lia|lia|reflexivity|simpl; lia| | |].
  - apply tree_leaf. split; [lia|apply Z.ltb_lt; reflexivity].
  - apply tree_leaf. split; [lia|apply Z.ltb_lt; reflexivity].
  - split; [exact H1|exact H2].
Defined.

Lemma IsValidSolution_accepts_exactly_the_trees_witness :
  IsValidSolution unit demo_digest merge_std_sort 16 1 tt [0; 2] = Ok true /\
  NoDup [0; 2] /\
  collision_tree unit demo_digest 16 tt (CollisionByteLength 16 1) (Z.to_nat 1) [0; 2] /\
  leaves_xor unit demo_digest 16 tt [0; 2] = replicate (Z.to_nat (16 / 8)) 0.
Proof.
  destruct (IsValidSolution_accepts_exactly_the_trees unit demo_digest merge_std_sort
              demo_digest_length merge_std_sort_perm merge_std_sort_sorted
              16 1 tt [0; 2]) as (verdict & Hv & Hiff); [lia|].
  assert (Ht : IsValidSolution unit demo_digest merge_std_sort 16 1 tt [0; 2] = Ok true)
    by reflexivity.
  split; [exact Ht|].
  assert (E : verdict = true) by congruence.
  destruct (proj1 Hiff E) as (_ & H2 & H3 & H4).
  split; [exact H2|]. split; [exact H3|exact H4].
Defined.

Lemma BasicSolve_solutions_are_valid_witness :
  exists S, BasicSolve unit demo_digest merge_std_sort 16 1 tt = Ok S /\
            forall sol, sol ∈ S ->
              IsValidSolution unit demo_digest merge_std_sort 16 1 tt sol = Ok true.
Proof.
  apply (BasicSolve_solutions_are_valid unit demo_digest merge_std_sort
           demo_digest_length merge_std_sort_perm merge_std_sort_sorted 16 1 tt);
    [lia|apply Z.ltb_lt; reflexivity].
Defined.

Lemma BasicSolve_returns_only_solutions_witness :
  exists S, BasicSolve unit demo_digest merge_std_sort 16 1 tt = Ok S /\
    forall sol, sol ∈ S ->
      Z.of_nat (length sol) = 2 ^ 1 /\
      NoDup sol /\
      Forall (fun i => 0 <= i < 2 ^ (CollisionBitLength 16 1 + 1)) sol /\
      collision_tree unit demo_digest 16 tt (CollisionByteLength 16 1) (Z.to_nat 1) sol /\
      leaves_xor unit demo_digest 16 tt sol = replicate (Z.to_nat (16 / 8)) 0.
Proof.
  apply (BasicSolve_returns_only_solutions unit demo_digest merge_std_sort
           demo_digest_length merge_std_sort_perm merge_std_sort_sorted 16 1 tt);
    [lia|apply Z.ltb_lt; reflexivity].
Defined.

Lemma BasicSolve_no_solution_when_k_exceeds_index_bits_witness :
  Equihash_new 96 11 = Ok {| eh_n := 96; eh_k := 11 |} /\
  exists sols,
    BasicSolve Blake2b.state blake2b_digest_padded merge_std_sort 96 11
      (InitialiseState 96 11) = Ok sols /\
    sols = ∅.
Proof.
  split; [reflexivity|].
  destruct (BasicSolve Blake2b.state blake2b_digest_padded merge_std_sort 96 11
              (InitialiseState 96 11)) as [sols|e] eqn:Hrun;
    [|vm_compute in Hrun; discriminate Hrun].
  exists sols. split; [reflexivity|].
  apply (BasicSolve_no_solution_when_k_exceeds_index_bits Blake2b.state
           blake2b_digest_padded merge_std_sort blake2b_digest_padded_length
           merge_std_sort_perm merge_std_sort_sorted 96 11 (InitialiseState 96 11) sols);
    [split; [apply Z.leb_le|apply Z.ltb_lt]; reflexivity
    |apply Z.ltb_lt; reflexivity
    |exact Hrun].
Defined.

Lemma collision_round_table_holds_the_merges_witness :
  let X := map (BasicStepRow_new unit demo_digest 16 tt) [4; 2; 1; 0] in
  exists X' M,
    collision_round merge_std_sort 1 true X = Ok X' /\
    round_merge_list merge_std_sort 1 true (merge_std_sort BasicStepRow row_lt X) = Ok M /\
    X' ≡ₚ M.
Proof.
  intros X.
  assert (E : exists X', collision_round merge_std_sort 1 true X = Ok X')
    by (eexists; reflexivity).
  destruct E as [X' E].
  destruct (proj1 (collision_round_table_holds_the_merges merge_std_sort 1 true X) X' E)
    as (M & HM & Hperm).
  exists X', M. split; [exact E|]. split; [exact HM|exact Hperm].
Defined.


Lemma collision_round_merges_every_colliding_pair_witness :
  let X := map (BasicStepRow_new unit demo_digest 16 tt) [4; 2; 1; 0] in
  let a := BasicStepRow_new unit demo_digest 16 tt 2 in
  let b := BasicStepRow_new unit demo_digest 16 tt 4 in
  exists X' c,
    collision_round merge_std_sort 1 true X = Ok X' /\
    BasicStepRow_xor a b = Ok c /\
    BasicStepRow_TrimHash 1 c ∈ X'.
Proof.
  intros X a b.
  assert (E : exists X', collision_round merge_std_sort 1 true X = Ok X')
    by (eexists; reflexivity).
  destruct E as [X' E].
  destruct (collision_round_merges_every_colliding_pair merge_std_sort merge_std_sort_perm
              1 true 2 X X' 0 2 a b) as (c & Hc & Hin).
  - repeat constructor.
  - assert (Es : merge_std_sort BasicStepRow row_lt X =
                 map (BasicStepRow_new unit demo_digest 16 tt) [2; 0; 4; 1])
      by reflexivity.
    rewrite Es. repeat constructor.
  - exact E.
  - lia.
  - reflexivity.
  - reflexivity.
  - reflexivity.
  - intros _. reflexivity.
  - exists X', c. split; [exact E|]. split; [exact Hc|exact Hin].
Defined.

Lemma final_round_examines_neighbours_witness :
  let X := map (BasicStepRow_new unit demo_digest 16 tt) [4; 2; 1; 0] in
  exists sols,
    final_round merge_std_sort X = Ok sols /\
    [0; 2] ∈ sols.
Proof.
  intros X.
  assert (E : exists sols, final_round merge_std_sort X = Ok sols)
    by (eexists; reflexivity).
  destruct E as [sols E]. exists sols. split; [exact E|].
  apply (final_round_examines_neighbours merge_std_sort merge_std_sort_perm X sols E).
  exists 0%nat, (BasicStepRow_new unit demo_digest 16 tt 2),
         (BasicStepRow_new unit demo_digest 16 tt 0),
         {| hash := [0; 0]; indices := [0; 2] |}.
  repeat split; reflexivity.
Defined.

Lemma BasicSolve_finds_isolated_solutions_witness :
  exists sols, BasicSolve unit demo_digest merge_std_sort 16 1 tt = Ok sols /\
               [0; 2] ∈ sols.
Proof.
  apply (BasicSolve_finds_isolated_solutions unit demo_digest merge_std_sort
           demo_digest_length merge_std_sort_perm merge_std_sort_sorted 16 1 tt [0; 2]).
  - lia.
  - apply Z.ltb_lt. reflexivity.
  - apply merge_std_sort_rows_sorted.
  - reflexivity.
  - repeat constructor; try lia; apply Z.ltb_lt; reflexivity.
  - intros l (Hlen & _) Hb Hh.
    change (Z.to_nat (1 - 1)) with 0%nat in *.
    destruct l as [|i [|j l]]; simpl in Hlen; try lia.
    apply Forall_cons in Hb as [Hi _].
    change (2 ^ (CollisionBitLength 16 1 + 1)) with 512 in Hi.
    change (take (2 ^ 0) [0; 2]) with [0] in *.
    change (drop (2 ^ 0) [0; 2]) with [2].
    rewrite !(block_row_leaf unit demo_digest demo_digest_length) in Hh.
    unfold BasicStepRow_new, StepRow_new, demo_digest in Hh. cbn [hash] in Hh.
    destruct (Z.eqb_spec i 0) as [->|H0]; [by left|].
    destruct (Z.eqb_spec i 2) as [->|H2]; [by right|].
    exfalso. destruct (Z.eqb_spec i 4) as [->|H4]; [discriminate Hh|].
    simpl in Hh. injection Hh as Hhi _.
    assert (2 <= (512 + i) / 256 <= 3).
    { split; [apply Z.div_le_lower_bound; lia|].
      apply Z.lt_succ_r, Z.div_lt_upper_bound; lia. }
    change ((0 / 256) mod 256) with 0 in Hhi.
    rewrite Z.mod_small in Hhi by lia. lia.
Defined.
